(** * Adafruit GFX (c't-Bot port): a shallow embedding of the rasteriser,
      the SPI TFT pixel sink and the offscreen canvases.

    Sources embedded here:
      - [Adafruit_GFX.cpp]    (class Adafruit_GFX, GFXcanvas1/8/16)
      - [Adafruit_SPITFT.cpp] (class Adafruit_SPITFT)
      - the two headers (inline members, constants, virtual defaults).

    Conventions.  A C++ [int16_t], [uint8_t], [uint16_t] or [uint32_t] is a
    [Z]; every narrowing conversion the compiler inserts is written out
    ([wrap16], [u8], [u16], [u32]).  Arithmetic on promoted operands is done
    in [int] (32 bits on the target), which never overflows on 16-bit
    operands, so only the conversions back to the narrow type wrap.  A
    function that may loop for ever takes a [fuel : nat] and returns [None]
    when the fuel is exhausted; a memory access outside an allocated buffer
    is a fault, also [None]. *)

From Stdlib Require Import ZArith Lia Bool List.
From stdpp Require Import base option list numbers.

Local Open Scope Z_scope.

(** ** Fixed-width integers *)

(** Conversion to [int16_t] (two's complement, modulo 2^16). *)
Definition wrap16 (z : Z) : Z := (z + 32768) mod 65536 - 32768.

(** Conversions to [uint8_t], [uint16_t], [uint32_t]/[size_t]. *)
Definition u8 (z : Z) : Z := z mod 256.
Definition u16 (z : Z) : Z := z mod 65536.
Definition u32 (z : Z) : Z := z mod 4294967296.

Definition in16 (z : Z) : Prop := -32768 <= z <= 32767.
Definition is_u8 (z : Z) : Prop := 0 <= z < 256.
Definition is_u16 (z : Z) : Prop := 0 <= z < 65536.
Definition is_u32 (z : Z) : Prop := 0 <= z < 4294967296.

(** ** Color packing: [Adafruit_SPITFT::color565] *)

(** [return ((red & 0xF8) << 8) | ((green & 0xFC) << 3) | (blue >> 3);]
    converted to the [uint16_t] return type. *)
Definition color565 (red green blue : Z) : Z :=
  u16 (Z.lor (Z.lor (Z.shiftl (Z.land red 0xF8) 8)
                    (Z.shiftl (Z.land green 0xFC) 3))
             (Z.shiftr blue 3)).

(** ** The base class state: [class Adafruit_GFX]

    Only the geometry members are kept; the text members (cursor, text
    colours, text size, wrap, cp437, font) are written by the text functions
    alone and read by none of the functions embedded here. *)
Record Adafruit_GFX : Type := mkGFX {
  WIDTH : Z;      (* const int16_t: raw width, never changes *)
  HEIGHT : Z;     (* const int16_t: raw height, never changes *)
  _width : Z;     (* int16_t: width as modified by current rotation *)
  _height : Z;    (* int16_t: height as modified by current rotation *)
  rotation : Z    (* uint8_t: 0 thru 3 *)
}.

(** [Adafruit_GFX::Adafruit_GFX(int16_t w, int16_t h)]: the arguments are
    converted to [int16_t] at the call. *)
Definition new_GFX (w h : Z) : Adafruit_GFX :=
  {| WIDTH := wrap16 w; HEIGHT := wrap16 h;
     _width := wrap16 w; _height := wrap16 h; rotation := 0 |}.

(** [Adafruit_GFX::setRotation(uint8_t x)]: the switch has no default
    label, which cannot be reached since [x & 3] is 0..3. *)
Definition setRotation (x : Z) (g : Adafruit_GFX) : Adafruit_GFX :=
  let r := Z.land x 3 in
  match r with
  | 0 | 2 =>
      {| WIDTH := WIDTH g; HEIGHT := HEIGHT g;
         _width := WIDTH g; _height := HEIGHT g; rotation := r |}
  | 1 | 3 =>
      {| WIDTH := WIDTH g; HEIGHT := HEIGHT g;
         _width := HEIGHT g; _height := WIDTH g; rotation := r |}
  | _ =>
      {| WIDTH := WIDTH g; HEIGHT := HEIGHT g;
         _width := _width g; _height := _height g; rotation := r |}
  end.

(** ** Buffer memory *)

(** [buf[i] = v]; an index outside the allocation is a fault. *)
Definition poke (buf : list Z) (i v : Z) : option (list Z) :=
  if (0 <=? i) && (i <? Z.of_nat (length buf))
  then Some (<[Z.to_nat i := v]> buf) else None.

(** [buf[i]] as an rvalue. *)
Definition peek (buf : list Z) (i : Z) : option Z :=
  if 0 <=? i then buf !! Z.to_nat i else None.

(** [std::memset(buf + off, v, n)] with [n] already converted to [size_t];
    a range that leaves the allocation is a fault. *)
Definition memset (buf : list Z) (off v n : Z) : option (list Z) :=
  if (0 <=? off) && (0 <=? n) && (off + n <=? Z.of_nat (length buf))
  then Some (take (Z.to_nat off) buf ++ replicate (Z.to_nat n) (u8 v)
               ++ drop (Z.to_nat (off + n)) buf)
  else None.

(** ** Offscreen canvases: [GFXcanvas1], [GFXcanvas8], [GFXcanvas16] *)

(** A canvas is the base-class state and its buffer; [None] is the null
    pointer left by a failed allocation.  Elements are bytes for the 1- and
    8-bit canvases and 16-bit words for the 16-bit one. *)
Record canvas : Type := mkCanvas {
  gfx : Adafruit_GFX;
  buffer : option (list Z)
}.

(** The [switch (rotation)] block that the three [drawPixel] functions and
    [GFXcanvas8::writeFastHLine] each repeat verbatim: logical to raw
    coordinates, stored back in the [int16_t] variables [x] and [y]. *)
Definition rotate_xy (g : Adafruit_GFX) (x y : Z) : Z * Z :=
  match rotation g with
  | 1 => (wrap16 (WIDTH g - 1 - y), x)
  | 2 => (wrap16 (WIDTH g - 1 - x), wrap16 (HEIGHT g - 1 - y))
  | 3 => (y, wrap16 (HEIGHT g - 1 - x))
  | _ => (x, y)
  end.

(** The guard [(x < 0) || (y < 0) || (x >= _width) || (y >= _height)]. *)
Definition off_canvas (g : Adafruit_GFX) (x y : Z) : bool :=
  (x <? 0) || (y <? 0) || (x >=? _width g) || (y >=? _height g).

Module Canvas1.

(** Bytes per scanline, [(WIDTH + 7) / 8]. *)
Definition stride (w : Z) : Z := (w + 7) ÷ 8.

(** [GFXcanvas1::GFXcanvas1(uint16_t w, uint16_t h)]; [alloc] tells
    whether [new] returned memory. *)
Definition new (w h : Z) (alloc : bool) : canvas :=
  {| gfx := new_GFX w h;
     buffer := if alloc
               then Some (replicate (Z.to_nat (stride w * h)) 0)
               else None |}.

(** [GFXcanvas1::drawPixel]. *)
Definition drawPixel (x y color : Z) (c : canvas) : option canvas :=
  match buffer c with
  | None => Some c
  | Some buf =>
      if off_canvas (gfx c) x y then Some c
      else
        let '(x, y) := rotate_xy (gfx c) x y in
        let ptr := (x ÷ 8) + y * stride (WIDTH (gfx c)) in
        old ← peek buf ptr;
        let new :=
          if color =? 0
          then u8 (Z.land old (Z.lnot (Z.shiftr 0x80 (Z.land x 7))))
          else u8 (Z.lor old (Z.shiftr 0x80 (Z.land x 7))) in
        buf' ← poke buf ptr new;
        Some {| gfx := gfx c; buffer := Some buf' |}
  end.

(** [GFXcanvas1::fillScreen]. *)
Definition fillScreen (color : Z) (c : canvas) : option canvas :=
  match buffer c with
  | None => Some c
  | Some buf =>
      let bytes := u32 (stride (WIDTH (gfx c)) * HEIGHT (gfx c)) in
      buf' ← memset buf 0 (if color =? 0 then 0x00 else 0xFF) bytes;
      Some {| gfx := gfx c; buffer := Some buf' |}
  end.

(** The pixel stored at raw position [(x, y)]: bit [0x80 >> (x & 7)] of
    byte [x / 8 + y * stride]. *)
Definition raw (c : canvas) (x y : Z) : option bool :=
  buf ← buffer c;
  b ← peek buf ((x ÷ 8) + y * stride (WIDTH (gfx c)));
  Some (negb (Z.land b (Z.shiftr 0x80 (Z.land x 7)) =? 0)).

End Canvas1.

Module Canvas8.

(** [GFXcanvas8::GFXcanvas8(uint16_t w, uint16_t h)]. *)
Definition new (w h : Z) (alloc : bool) : canvas :=
  {| gfx := new_GFX w h;
     buffer := if alloc then Some (replicate (Z.to_nat (w * h)) 0)
               else None |}.

(** [GFXcanvas8::drawPixel]; the store converts [color] to [uint8_t]. *)
Definition drawPixel (x y color : Z) (c : canvas) : option canvas :=
  match buffer c with
  | None => Some c
  | Some buf =>
      if off_canvas (gfx c) x y then Some c
      else
        let '(x, y) := rotate_xy (gfx c) x y in
        buf' ← poke buf (x + y * WIDTH (gfx c)) (u8 color);
        Some {| gfx := gfx c; buffer := Some buf' |}
  end.

(** [GFXcanvas8::fillScreen]. *)
Definition fillScreen (color : Z) (c : canvas) : option canvas :=
  match buffer c with
  | None => Some c
  | Some buf =>
      buf' ← memset buf 0 color (u32 (WIDTH (gfx c) * HEIGHT (gfx c)));
      Some {| gfx := gfx c; buffer := Some buf' |}
  end.

(** [GFXcanvas8::writeFastHLine]. *)
Definition writeFastHLine (x y w color : Z) (c : canvas) : option canvas :=
  match buffer c with
  | None => Some c
  | Some buf =>
      let g := gfx c in
      if (x >=? _width g) || (y <? 0) || (y >=? _height g) then Some c
      else
        let x2 := wrap16 (x + w - 1) in
        if x2 <? 0 then Some c
        else
          (* Clip left/right *)
          let '(x, w) := if x <? 0 then (0, wrap16 (x2 + 1)) else (x, w) in
          let w := if x2 >=? _width g then wrap16 (_width g - x) else w in
          let '(x, y) := rotate_xy g x y in
          buf' ← memset buf (y * WIDTH g + x) color (u32 w);
          Some {| gfx := g; buffer := Some buf' |}
  end.

(** The pixel stored at raw position [(x, y)]. *)
Definition raw (c : canvas) (x y : Z) : option Z :=
  buf ← buffer c; peek buf (x + y * WIDTH (gfx c)).

End Canvas8.

Module Canvas16.

(** [GFXcanvas16::GFXcanvas16(uint16_t w, uint16_t h)]: [w * h] words. *)
Definition new (w h : Z) (alloc : bool) : canvas :=
  {| gfx := new_GFX w h;
     buffer := if alloc then Some (replicate (Z.to_nat (w * h)) 0)
               else None |}.

(** [GFXcanvas16::drawPixel]. *)
Definition drawPixel (x y color : Z) (c : canvas) : option canvas :=
  match buffer c with
  | None => Some c
  | Some buf =>
      if off_canvas (gfx c) x y then Some c
      else
        let '(x, y) := rotate_xy (gfx c) x y in
        buf' ← poke buf (x + y * WIDTH (gfx c)) (u16 color);
        Some {| gfx := gfx c; buffer := Some buf' |}
  end.

(** [buffer[i] = color] for [i] in the list, in order. *)
Fixpoint store_all (buf : list Z) (idx : list Z) (color : Z)
  : option (list Z) :=
  match idx with
  | [] => Some buf
  | i :: idx => buf' ← poke buf i color; store_all buf' idx color
  end.

(** [GFXcanvas16::fillScreen]: a byte fill of [WIDTH * HEIGHT * 2] bytes
    when both bytes of the colour are equal (every word then reads
    [lo * 256 + lo]), otherwise a loop over the words. *)
Definition fillScreen (color : Z) (c : canvas) : option canvas :=
  match buffer c with
  | None => Some c
  | Some buf =>
      let g := gfx c in
      let hi := u8 (Z.shiftr color 8) in
      let lo := u8 (Z.land color 0xff) in
      if hi =? lo then
        let bytes := u32 (WIDTH g * HEIGHT g * 2) in
        if bytes <=? 2 * Z.of_nat (length buf) then
          Some {| gfx := g;
                  buffer := Some (replicate (Z.to_nat (bytes ÷ 2))
                                    (Z.lor (Z.shiftl lo 8) lo)
                                  ++ drop (Z.to_nat (bytes ÷ 2)) buf) |}
        else None
      else
        let pixels := u32 (WIDTH g * HEIGHT g) in
        buf' ← store_all buf (seqZ 0 pixels) (u16 color);
        Some {| gfx := g; buffer := Some buf' |}
  end.

(** The pixel stored at raw position [(x, y)]. *)
Definition raw (c : canvas) (x y : Z) : option Z :=
  buf ← buffer c; peek buf (x + y * WIDTH (gfx c)).

End Canvas16.

(** ** The hardware sink: [class Adafruit_SPITFT] *)

Module SPITFT.

(** What reaches the SPI peripheral, the chip-select pin and the display
    driver, in program order. *)
Inductive bus : Type :=
| BeginTransaction                 (* _spi->beginTransaction(_spi_settings) *)
| EndTransaction                   (* _spi->endTransaction() *)
| ChipSelect (level : Z)           (* ::digitalWriteFast(_cs, level) *)
| SetAddrWindow (x y w h : Z)      (* setAddrWindow, pure virtual, uint16_t arguments *)
| Transfer16 (w : Z)               (* _spi->transfer16(w) *)
| TransferBuf (buf : list Z) (nbytes : Z).
                                   (* _spi->transfer(_spi_buffer, nullptr, nbytes),
                                      with the buffer's words at the call *)

(** The object: base-class state and the private block buffer
    [uint16_t _spi_buffer[SPI_BLOCKSIZE]]. *)
Record display : Type := mkDisplay {
  base : Adafruit_GFX;
  _spi_buffer : list Z
}.

Definition SPI_BLOCKSIZE : Z := 32.

(** [sizeof(_spi_buffer)], in bytes. *)
Definition sizeof_spi_buffer : Z := SPI_BLOCKSIZE * 2.

Definition startWrite : list bus := [BeginTransaction; ChipSelect 0].
Definition endWrite : list bus := [ChipSelect 1; EndTransaction].
Definition SPI_WRITE16 (w : Z) : list bus := [Transfer16 w].

(** [Adafruit_SPITFT::writePixel]. *)
Definition writePixel (x y color : Z) (d : display) : list bus :=
  if (x >=? 0) && (x <? _width (base d)) && (y >=? 0)
     && (y <? _height (base d))
  then SetAddrWindow (u16 x) (u16 y) 1 1 :: SPI_WRITE16 color
  else [].

(** The loop [for (i = 0; i < count; ++i) _spi_buffer[i] = c;]. *)
Definition fill_block (buf : list Z) (count c : Z) : list Z :=
  fold_left (λ b i, <[i := c]> b) (seq 0 (Z.to_nat count)) buf.

(** The [default:] label of the switch in [writeColor]. *)
Definition writeColor_blocks (color len : Z) (d : display)
  : list bus * display :=
  let c := u16 (Z.lor (Z.shiftl (Z.land color 0xff) 8)
                      (Z.shiftr color 8)) in
  let count := Z.min SPI_BLOCKSIZE len in
  let buf := fill_block (_spi_buffer d) count c in
  let n := len ÷ SPI_BLOCKSIZE in
  (replicate (Z.to_nat n) (TransferBuf buf sizeof_spi_buffer)
     ++ [TransferBuf buf (u32 (u32 (len - n * SPI_BLOCKSIZE) * 2))],
   {| base := base d; _spi_buffer := buf |}).

(** [Adafruit_SPITFT::writeColor(uint16_t color, uint32_t len)]; the
    cases 4, 3, 2 fall through to case 1. *)
Definition writeColor (color len : Z) (d : display) : list bus * display :=
  match len with
  | 0 => ([], d)
  | 4 => (SPI_WRITE16 color ++ SPI_WRITE16 color ++ SPI_WRITE16 color
            ++ SPI_WRITE16 color, d)
  | 3 => (SPI_WRITE16 color ++ SPI_WRITE16 color ++ SPI_WRITE16 color, d)
  | 2 => (SPI_WRITE16 color ++ SPI_WRITE16 color, d)
  | 1 => (SPI_WRITE16 color, d)
  | _ => writeColor_blocks color len d
  end.

(** [Adafruit_SPITFT::writeFillRectPreclipped]: the [int16_t] arguments
    are converted to [uint16_t] for [setAddrWindow], and the pixel count
    is [(uint32_t) w * h]. *)
Definition writeFillRectPreclipped (x y w h color : Z) (d : display)
  : list bus * display :=
  let '(t, d') := writeColor color (u32 (u32 w * u32 h)) d in
  (SetAddrWindow (u16 x) (u16 y) (u16 w) (u16 h) :: t, d').

(** [Adafruit_SPITFT::writeFillRect]. *)
Definition writeFillRect (x y w h color : Z) (d : display)
  : list bus * display :=
  let g := base d in
  if negb (w =? 0) && negb (h =? 0) then
    let '(x, w) :=
      if w <? 0 then (wrap16 (x + w + 1), wrap16 (- w)) else (x, w) in
    if x <? _width g then
      let '(y, h) :=
        if h <? 0 then (wrap16 (y + h + 1), wrap16 (- h)) else (y, h) in
      if y <? _height g then
        let x2 := x + w - 1 in
        if x2 >=? 0 then
          let y2 := y + h - 1 in
          if y2 >=? 0 then
            let '(x, w) := if x <? 0 then (0, wrap16 (x2 + 1)) else (x, w) in
            let '(y, h) := if y <? 0 then (0, wrap16 (y2 + 1)) else (y, h) in
            let w := if x2 >=? _width g then wrap16 (_width g - x) else w in
            let h := if y2 >=? _height g then wrap16 (_height g - y) else h in
            writeFillRectPreclipped x y w h color d
          else ([], d)
        else ([], d)
      else ([], d)
    else ([], d)
  else ([], d).

(** [Adafruit_SPITFT::writeFastHLine]. *)
Definition writeFastHLine (x y w color : Z) (d : display)
  : list bus * display :=
  let g := base d in
  if (y >=? 0) && (y <? _height g) && negb (w =? 0) then
    let '(x, w) :=
      if w <? 0 then (wrap16 (x + w + 1), wrap16 (- w)) else (x, w) in
    if x <? _width g then
      let x2 := x + w - 1 in
      if x2 >=? 0 then
        let '(x, w) := if x <? 0 then (0, wrap16 (x2 + 1)) else (x, w) in
        let w := if x2 >=? _width g then wrap16 (_width g - x) else w in
        writeFillRectPreclipped x y w 1 color d
      else ([], d)
    else ([], d)
  else ([], d).

(** [Adafruit_SPITFT::fillRect]: the body of [writeFillRect] again, with
    the transaction around the one call that draws. *)
Definition fillRect (x y w h color : Z) (d : display)
  : list bus * display :=
  let g := base d in
  if negb (w =? 0) && negb (h =? 0) then
    let '(x, w) :=
      if w <? 0 then (wrap16 (x + w + 1), wrap16 (- w)) else (x, w) in
    if x <? _width g then
      let '(y, h) :=
        if h <? 0 then (wrap16 (y + h + 1), wrap16 (- h)) else (y, h) in
      if y <? _height g then
        let x2 := x + w - 1 in
        if x2 >=? 0 then
          let y2 := y + h - 1 in
          if y2 >=? 0 then
            let '(x, w) := if x <? 0 then (0, wrap16 (x2 + 1)) else (x, w) in
            let '(y, h) := if y <? 0 then (0, wrap16 (y2 + 1)) else (y, h) in
            let w := if x2 >=? _width g then wrap16 (_width g - x) else w in
            let h := if y2 >=? _height g then wrap16 (_height g - y) else h in
            let '(t, d') := writeFillRectPreclipped x y w h color d in
            (startWrite ++ t ++ endWrite, d')
          else ([], d)
        else ([], d)
      else ([], d)
    else ([], d)
  else ([], d).

(** [Adafruit_SPITFT::writeFastVLine]. *)
Definition writeFastVLine (x y h color : Z) (d : display)
  : list bus * display :=
  let g := base d in
  if (x >=? 0) && (x <? _width g) && negb (h =? 0) then
    let '(y, h) :=
      if h <? 0 then (wrap16 (y + h + 1), wrap16 (- h)) else (y, h) in
    if y <? _height g then
      let y2 := y + h - 1 in
      if y2 >=? 0 then
        let '(y, h) := if y <? 0 then (0, wrap16 (y2 + 1)) else (y, h) in
        let h := if y2 >=? _height g then wrap16 (_height g - y) else h in
        writeFillRectPreclipped x y 1 h color d
      else ([], d)
    else ([], d)
  else ([], d).

(** [Adafruit_SPITFT::drawPixel]. *)
Definition drawPixel (x y color : Z) (d : display) : list bus :=
  if (x >=? 0) && (x <? _width (base d)) && (y >=? 0)
     && (y <? _height (base d))
  then startWrite ++ SetAddrWindow (u16 x) (u16 y) 1 1 :: SPI_WRITE16 color
         ++ endWrite
  else [].

(** [Adafruit_SPITFT::drawFastHLine]. *)
Definition drawFastHLine (x y w color : Z) (d : display)
  : list bus * display :=
  let g := base d in
  if (y >=? 0) && (y <? _height g) && negb (w =? 0) then
    let '(x, w) :=
      if w <? 0 then (wrap16 (x + w + 1), wrap16 (- w)) else (x, w) in
    if x <? _width g then
      let x2 := x + w - 1 in
      if x2 >=? 0 then
        let '(x, w) := if x <? 0 then (0, wrap16 (x2 + 1)) else (x, w) in
        let w := if x2 >=? _width g then wrap16 (_width g - x) else w in
        let '(t, d') := writeFillRectPreclipped x y w 1 color d in
        (startWrite ++ t ++ endWrite, d')
      else ([], d)
    else ([], d)
  else ([], d).

(** [Adafruit_SPITFT::drawFastVLine]. *)
Definition drawFastVLine (x y h color : Z) (d : display)
  : list bus * display :=
  let g := base d in
  if (x >=? 0) && (x <? _width g) && negb (h =? 0) then
    let '(y, h) :=
      if h <? 0 then (wrap16 (y + h + 1), wrap16 (- h)) else (y, h) in
    if y <? _height g then
      let y2 := y + h - 1 in
      if y2 >=? 0 then
        let '(y, h) := if y <? 0 then (0, wrap16 (y2 + 1)) else (y, h) in
        let h := if y2 >=? _height g then wrap16 (_height g - y) else h in
        let '(t, d') := writeFillRectPreclipped x y 1 h color d in
        (startWrite ++ t ++ endWrite, d')
      else ([], d)
    else ([], d)
  else ([], d).

(** [Adafruit_SPITFT::pushColor]. *)
Definition pushColor (color : Z) : list bus :=
  startWrite ++ SPI_WRITE16 color ++ endWrite.

(** [Adafruit_SPITFT::writePixels(colors, len)], the pointer [colors] being
    the array [colors] with the element offset [off]: [len] elements are
    read in sequence and sent; reading outside the array is a fault. *)
Definition writePixels (colors : list Z) (off len : Z) : option (list bus) :=
  if (0 <=? off) && (off + len <=? Z.of_nat (length colors))
  then Some (Transfer16 <$> take (Z.to_nat len) (drop (Z.to_nat off) colors))
  else None.

(** The loop [while (h--) { writePixels(pcolors, w); pcolors += saveW; }]
    of [drawRGBBitmap]; [h] is an [int16_t], [w] is converted to the
    [uint32_t] parameter of [writePixels]. *)
Fixpoint push_rows (fuel : nat) (colors : list Z) (off w h saveW : Z)
  : option (list bus) :=
  match fuel with
  | O => None
  | S fuel =>
      if h =? 0 then Some []
      else
        t ← writePixels colors off (u32 w);
        t' ← push_rows fuel colors (off + saveW) w (wrap16 (h - 1)) saveW;
        Some (t ++ t')
  end.

(** [Adafruit_SPITFT::drawRGBBitmap(x, y, pcolors, w, h)]. *)
Definition drawRGBBitmap (fuel : nat) (x y : Z) (pcolors : list Z)
    (w h : Z) (d : display) : option (list bus) :=
  let g := base d in
  let x2 := wrap16 (x + w - 1) in
  let y2 := wrap16 (y + h - 1) in
  if (x >=? _width g) || (y >=? _height g) || (x2 <? 0) || (y2 <? 0)
  then Some []
  else
    let saveW := w in
    let '(w, bx1, x) :=
      if x <? 0 then (wrap16 (w + x), wrap16 (- x), 0) else (w, 0, x) in
    let '(h, by1, y) :=
      if y <? 0 then (wrap16 (h + y), wrap16 (- y), 0) else (h, 0, y) in
    let w := if x2 >=? _width g then wrap16 (_width g - x) else w in
    let h := if y2 >=? _height g then wrap16 (_height g - y) else h in
    let off := by1 * saveW + bx1 in
    t ← push_rows fuel pcolors off w h saveW;
    Some (startWrite
            ++ SetAddrWindow (u16 x) (u16 y) (u16 w) (u16 h) :: t
            ++ endWrite).

(** The 16-bit values an event puts on the wire, most significant byte
    first.  [transfer16] sends its argument; a buffer transfer sends the
    buffer's bytes in memory order, and the target stores a [uint16_t]
    low byte first, so a stored word [w] travels as its byte swap (this is
    why [writeColor] stores the swapped colour). *)
Definition bswap16 (w : Z) : Z :=
  u16 (Z.lor (Z.shiftl (Z.land w 0xff) 8) (Z.shiftr w 8)).

Definition wire16 (e : bus) : list Z :=
  match e with
  | Transfer16 w => [w]
  | TransferBuf buf nbytes => bswap16 <$> take (Z.to_nat (nbytes ÷ 2)) buf
  | _ => []
  end.

(** Pixels of one bulk block transfer (0 for the other events). *)
Definition block_pixels (e : bus) : Z :=
  match e with
  | TransferBuf _ nbytes => nbytes ÷ 2
  | _ => 0
  end.

(** Modelled from the spec: the display driver behind the pure virtual
    [setAddrWindow] is not part of this repository.  The spec's glossary
    says the address window is "the rectangular region declared on a
    PixelSink that subsequent span writes fill in row-major order": the
    [k]-th value written after [setAddrWindow(x, y, w, h)] lands on
    column [x + k mod w] of row [y + k / w]. *)
Definition cell (win : Z * Z * Z * Z) (k v : Z) : Z * Z * Z :=
  let '(x, y, w, _) := win in (x + k mod w, y + k / w, v).

(** Modelled from the spec: cells painted by the values [vs], the first
    one being the [k]-th of the current window. *)
Fixpoint paint_values (win : Z * Z * Z * Z) (k : Z) (vs : list Z)
  : list (Z * Z * Z) :=
  match vs with
  | [] => []
  | v :: vs => cell win k v :: paint_values win (k + 1) vs
  end.

(** Modelled from the spec: the pixels (column, row, colour) painted by a
    bus trace, in order. *)
Fixpoint paint (win : Z * Z * Z * Z) (k : Z) (t : list bus)
  : list (Z * Z * Z) :=
  match t with
  | [] => []
  | SetAddrWindow x y w h :: t => paint (x, y, w, h) 0 t
  | e :: t =>
      paint_values win k (wire16 e)
        ++ paint win (k + Z.of_nat (length (wire16 e))) t
  end.

Definition painted (t : list bus) : list (Z * Z * Z) :=
  paint (0, 0, 0, 0) 0 t.

(** A display of [w] by [h] pixels whose block buffer holds [junk]. *)
Definition new (w h : Z) (junk : list Z) : display :=
  {| base := new_GFX w h; _spi_buffer := junk |}.

End SPITFT.

(** ** The generic rasteriser: [class Adafruit_GFX]

    Every drawing member is [void] and acts on the object only through its
    virtual members, so a member is embedded as a partial transformer of the
    sink state, [sink -> option sink] ([None]: the call does not return).
    The virtual members a body calls are parameters of the section: binding
    them chooses the subclass. *)

(** A counted loop [for (int16_t i { i0 }; i < i0 + n; i++) body] whose
    bound is itself an [int16_t]: the counter stays below the bound, so the
    increment never wraps and the body runs for [i0], [i0 + 1], ... in
    turn; [st] is what the body reads and updates. *)
Fixpoint for_loop {A : Type} (n : nat) (i : Z) (body : Z → A → option A)
    (st : A) : option A :=
  match n with
  | O => Some st
  | S n => st ← body i st; for_loop n (i + 1) body st
  end.

Module GFX.
Section Rasterizer.

Context {sink : Type}.

(** The virtual members supplied by the object. *)
Variables startWrite endWrite : sink → option sink.
Variable writePixel : Z → Z → Z → sink → option sink.
Variable v_writeLine : Z → Z → Z → Z → Z → sink → option sink.
Variables v_writeFastVLine v_writeFastHLine
  : Z → Z → Z → Z → sink → option sink.
Variables v_drawFastVLine v_drawFastHLine
  : Z → Z → Z → Z → sink → option sink.

(** The loop of [writeLine],
    [for (; x0 <= x1; x0++) { ... err -= dy; if (err < 0) { y0 += ystep; err += dx; } }],
    all variables being [int16_t]. *)
Fixpoint writeLine_loop (fuel : nat) (steep : bool)
    (x0 x1 y0 err dx dy ystep color : Z) (s : sink) : option sink :=
  match fuel with
  | O => None
  | S fuel =>
      if x0 <=? x1 then
        s ← (if steep then writePixel y0 x0 color s
             else writePixel x0 y0 color s);
        let err := wrap16 (err - dy) in
        let '(y0, err) :=
          if err <? 0 then (wrap16 (y0 + ystep), wrap16 (err + dx))
          else (y0, err) in
        writeLine_loop fuel steep (wrap16 (x0 + 1)) x1 y0 err dx dy ystep
          color s
      else Some s
  end.

(** [Adafruit_GFX::writeLine]. *)
Definition writeLine (fuel : nat) (x0 y0 x1 y1 color : Z) (s : sink)
  : option sink :=
  let steep := Z.abs (y1 - y0) >? Z.abs (x1 - x0) in
  let '(x0, y0, x1, y1) :=
    if steep then (y0, x0, y1, x1) else (x0, y0, x1, y1) in
  let '(x0, y0, x1, y1) :=
    if x0 >? x1 then (x1, y1, x0, y0) else (x0, y0, x1, y1) in
  let dx := wrap16 (x1 - x0) in
  let dy := wrap16 (Z.abs (y1 - y0)) in
  let err := wrap16 (dx ÷ 2) in
  let ystep := if y0 <? y1 then 1 else -1 in
  writeLine_loop fuel steep x0 x1 y0 err dx dy ystep color s.

(** [Adafruit_GFX::drawFastVLine]. *)
Definition drawFastVLine (x y h color : Z) (s : sink) : option sink :=
  s ← startWrite s;
  s ← v_writeLine x y x (wrap16 (y + h - 1)) color s;
  endWrite s.

(** [Adafruit_GFX::drawFastHLine]. *)
Definition drawFastHLine (x y w color : Z) (s : sink) : option sink :=
  s ← startWrite s;
  s ← v_writeLine x y (wrap16 (x + w - 1)) y color s;
  endWrite s.

(** The loop of [fillRect],
    [for (int16_t i { x }; i < x + w; i++) writeFastVLine(i, y, h, color);]
    where [x + w] is an [int]. *)
Fixpoint fillRect_loop (fuel : nat) (i x y w h color : Z) (s : sink)
  : option sink :=
  match fuel with
  | O => None
  | S fuel =>
      if i <? x + w then
        s ← v_writeFastVLine i y h color s;
        fillRect_loop fuel (wrap16 (i + 1)) x y w h color s
      else Some s
  end.

(** [Adafruit_GFX::fillRect]. *)
Definition fillRect (fuel : nat) (x y w h color : Z) (s : sink)
  : option sink :=
  s ← startWrite s;
  s ← fillRect_loop fuel x x y w h color s;
  endWrite s.

(** [Adafruit_GFX::drawLine]. *)
Definition drawLine (x0 y0 x1 y1 color : Z) (s : sink) : option sink :=
  if x0 =? x1 then
    let '(y0, y1) := if y0 >? y1 then (y1, y0) else (y0, y1) in
    v_drawFastVLine x0 y0 (wrap16 (y1 - y0 + 1)) color s
  else if y0 =? y1 then
    let '(x0, x1) := if x0 >? x1 then (x1, x0) else (x0, x1) in
    v_drawFastHLine x0 y0 (wrap16 (x1 - x0 + 1)) color s
  else
    s ← startWrite s;
    s ← v_writeLine x0 y0 x1 y1 color s;
    endWrite s.

(** Conversion to [int32_t], the type of [sa] and [sb]. *)
Definition wrap32 (z : Z) : Z := (z + 2147483648) mod 4294967296 - 2147483648.

(** The two scanline loops of [fillTriangle] have one body; they differ in
    the edge that [a] follows ([xa], [dxa], [dya] are [x0], [dx01], [dy01]
    in the first loop and [x1], [dx12], [dy12] in the second) and in the
    last scanline.  The loop returns the sink and the value [y] is left
    with.  A division by zero is a fault. *)
Fixpoint scanlines (fuel : nat) (y ylast xa dxa dya x0 dx02 dy02 sa sb
    color : Z) (s : sink) : option (sink * Z) :=
  match fuel with
  | O => None
  | S fuel =>
      if y <=? ylast then
        if (dya =? 0) || (dy02 =? 0) then None
        else
          let a := wrap16 (xa + sa ÷ dya) in
          let b := wrap16 (x0 + sb ÷ dy02) in
          let sa := wrap32 (sa + dxa) in
          let sb := wrap32 (sb + dx02) in
          let '(a, b) := if a >? b then (b, a) else (a, b) in
          s ← v_writeFastHLine a y (wrap16 (b - a + 1)) color s;
          scanlines fuel (wrap16 (y + 1)) ylast xa dxa dya x0 dx02 dy02
            sa sb color s
      else Some (s, y)
  end.

(** [Adafruit_GFX::fillTriangle]. *)
Definition fillTriangle (fuel : nat) (x0 y0 x1 y1 x2 y2 color : Z)
    (s : sink) : option sink :=
  (* Sort coordinates by Y order (y2 >= y1 >= y0) *)
  let '(x0, y0, x1, y1) :=
    if y0 >? y1 then (x1, y1, x0, y0) else (x0, y0, x1, y1) in
  let '(x1, y1, x2, y2) :=
    if y1 >? y2 then (x2, y2, x1, y1) else (x1, y1, x2, y2) in
  let '(x0, y0, x1, y1) :=
    if y0 >? y1 then (x1, y1, x0, y0) else (x0, y0, x1, y1) in
  s ← startWrite s;
  if y0 =? y2 then
    (* Handle awkward all-on-same-line case as its own thing *)
    let a := x0 in
    let b := x0 in
    let '(a, b) :=
      if x1 <? a then (x1, b) else if x1 >? b then (a, x1) else (a, b) in
    let '(a, b) :=
      if x2 <? a then (x2, b) else if x2 >? b then (a, x2) else (a, b) in
    s ← v_writeFastHLine a y0 (wrap16 (b - a + 1)) color s;
    endWrite s
  else
    let dx01 := wrap16 (x1 - x0) in
    let dy01 := wrap16 (y1 - y0) in
    let dx02 := wrap16 (x2 - x0) in
    let dy02 := wrap16 (y2 - y0) in
    let dx12 := wrap16 (x2 - x1) in
    let dy12 := wrap16 (y2 - y1) in
    let last := if y1 =? y2 then y1 else wrap16 (y1 - 1) in
    '(s, y) ← scanlines fuel y0 last x0 dx01 dy01 x0 dx02 dy02 0 0 color s;
    let sa := wrap32 (dx12 * (y - y1)) in
    let sb := wrap32 (dx02 * (y - y0)) in
    '(s, _) ← scanlines fuel y y2 x1 dx12 dy12 x0 dx02 dy02 sa sb color s;
    endWrite s.

(** Further virtual members called below. *)
Variable v_fillRect : Z → Z → Z → Z → Z → sink → option sink.

(** [Adafruit_GFX::fillScreen] (inline in the header):
    [fillRect(0, 0, _width, _height, color)]. *)
Definition fillScreen (g : Adafruit_GFX) (color : Z) (s : sink)
  : option sink :=
  v_fillRect 0 0 (_width g) (_height g) color s.

(** [Adafruit_GFX::drawRect]. *)
Definition drawRect (x y w h color : Z) (s : sink) : option sink :=
  s ← startWrite s;
  s ← v_writeFastHLine x y w color s;
  s ← v_writeFastHLine x (wrap16 (y + h - 1)) w color s;
  s ← v_writeFastVLine x y h color s;
  s ← v_writeFastVLine (wrap16 (x + w - 1)) y h color s;
  endWrite s.

(** The eight [writePixel] calls of one turn of the loop of [drawCircle],
    in program order; the sums are converted to the [int16_t]
    parameters. *)
Definition octants (x0 y0 x y color : Z) (s : sink) : option sink :=
  s ← writePixel (wrap16 (x0 + x)) (wrap16 (y0 + y)) color s;
  s ← writePixel (wrap16 (x0 - x)) (wrap16 (y0 + y)) color s;
  s ← writePixel (wrap16 (x0 + x)) (wrap16 (y0 - y)) color s;
  s ← writePixel (wrap16 (x0 - x)) (wrap16 (y0 - y)) color s;
  s ← writePixel (wrap16 (x0 + y)) (wrap16 (y0 + x)) color s;
  s ← writePixel (wrap16 (x0 - y)) (wrap16 (y0 + x)) color s;
  s ← writePixel (wrap16 (x0 + y)) (wrap16 (y0 - x)) color s;
  writePixel (wrap16 (x0 - y)) (wrap16 (y0 - x)) color s.

(** The loop of [drawCircle],
    [while (x < y) { if (f >= 0) { y--; ddF_y += 2; f += ddF_y; }
                     x++; ddF_x += 2; f += ddF_x; ... }],
    all variables being [int16_t]. *)
Fixpoint drawCircle_loop (fuel : nat) (x0 y0 f ddF_x ddF_y x y color : Z)
    (s : sink) : option sink :=
  match fuel with
  | O => None
  | S fuel =>
      if x <? y then
        let '(y, ddF_y, f) :=
          if f >=? 0
          then (wrap16 (y - 1), wrap16 (ddF_y + 2),
                wrap16 (f + wrap16 (ddF_y + 2)))
          else (y, ddF_y, f) in
        let x := wrap16 (x + 1) in
        let ddF_x := wrap16 (ddF_x + 2) in
        let f := wrap16 (f + ddF_x) in
        s ← octants x0 y0 x y color s;
        drawCircle_loop fuel x0 y0 f ddF_x ddF_y x y color s
      else Some s
  end.

(** [Adafruit_GFX::drawCircle]. *)
Definition drawCircle (fuel : nat) (x0 y0 r color : Z) (s : sink)
  : option sink :=
  let f := wrap16 (1 - r) in
  let ddF_x := 1 in
  let ddF_y := wrap16 (-2 * r) in
  let x := 0 in
  let y := r in
  s ← startWrite s;
  s ← writePixel x0 (wrap16 (y0 + r)) color s;
  s ← writePixel x0 (wrap16 (y0 - r)) color s;
  s ← writePixel (wrap16 (x0 + r)) y0 color s;
  s ← writePixel (wrap16 (x0 - r)) y0 color s;
  s ← drawCircle_loop fuel x0 y0 f ddF_x ddF_y x y color s;
  endWrite s.

(** One turn of the inner loop of the 1-bit bitmap members: the current
    byte is shifted, or fetched when [i] is a multiple of 8, and one of its
    bits selects the pixel.  [drawBitmap] and the masked members shift left
    and test the top bit ([msb = true]); [drawXBitmap] shifts right and
    tests the lowest bit.  The state is the sink and the [uint8_t] variable
    [byte]; [paint set i] is what the member does at column [i] for a set
    or cleared bit. *)
Definition bitmap_bit (msb : bool) (paint : bool → Z → sink → option sink)
    (bitmap : list Z) (j byteWidth : Z) (i : Z) (st : sink * Z)
  : option (sink * Z) :=
  byte ← (if negb (Z.land i 7 =? 0)
          then Some (u8 (if msb then Z.shiftl st.2 1 else Z.shiftr st.2 1))
          else peek bitmap (j * byteWidth + i ÷ 8));
  s ← paint (negb (Z.land byte (if msb then 0x80 else 0x01) =? 0)) i st.1;
  Some (s, byte).

(** The two loops
    [for (int16_t j { 0 }; j < h; j++, y++) for (int16_t i { 0 }; i < w; i++)]
    of the bitmap members, around a turn [bit y j] of the inner loop; the
    state of the outer loop also holds [y]. *)
Definition bitmap_rows
    (bit : Z → Z → Z → sink * Z → option (sink * Z))
    (y w h : Z) (s : sink) : option sink :=
  st ← for_loop (Z.to_nat h) 0
         (λ j (st : sink * Z * Z),
            st' ← for_loop (Z.to_nat w) 0 (bit st.2 j) st.1;
            Some (st', wrap16 (st.2 + 1)))
         (s, 0, y);
  Some st.1.1.

(** [Adafruit_GFX::drawBitmap(x, y, bitmap, w, h, color)]: set bits are
    drawn, cleared bits are skipped. *)
Definition drawBitmap (x y : Z) (bitmap : list Z) (w h color : Z) (s : sink)
  : option sink :=
  let byteWidth := wrap16 ((w + 7) ÷ 8) in
  s ← startWrite s;
  s ← bitmap_rows
        (λ y j, bitmap_bit true
                  (λ set i s, if set then writePixel (wrap16 (x + i)) y color s
                              else Some s)
                  bitmap j byteWidth)
        y w h s;
  endWrite s.

(** [Adafruit_GFX::drawBitmap(x, y, bitmap, w, h, color, bg)]: cleared bits
    are drawn in [bg]. *)
Definition drawBitmap_bg (x y : Z) (bitmap : list Z) (w h color bg : Z)
    (s : sink) : option sink :=
  let byteWidth := wrap16 ((w + 7) ÷ 8) in
  s ← startWrite s;
  s ← bitmap_rows
        (λ y j, bitmap_bit true
                  (λ set i s,
                     writePixel (wrap16 (x + i)) y
                       (if set then color else bg) s)
                  bitmap j byteWidth)
        y w h s;
  endWrite s.

(** [Adafruit_GFX::drawXBitmap]: the bit order is reversed. *)
Definition drawXBitmap (x y : Z) (bitmap : list Z) (w h color : Z)
    (s : sink) : option sink :=
  let byteWidth := wrap16 ((w + 7) ÷ 8) in
  s ← startWrite s;
  s ← bitmap_rows
        (λ y j, bitmap_bit false
                  (λ set i s, if set then writePixel (wrap16 (x + i)) y color s
                              else Some s)
                  bitmap j byteWidth)
        y w h s;
  endWrite s.

(** [Adafruit_GFX::drawGrayscaleBitmap(x, y, bitmap, w, h)] and
    [Adafruit_GFX::drawRGBBitmap(x, y, bitmap, w, h)] have one body,
    [writePixel(x + i, y, bitmap[j * w + i])]; the elements are [uint8_t]
    in the first and [uint16_t] in the second.  The loops keep no byte. *)
Definition drawRGBBitmap (x y : Z) (bitmap : list Z) (w h : Z) (s : sink)
  : option sink :=
  s ← startWrite s;
  s ← bitmap_rows
        (λ y j i (st : sink * Z),
           c ← peek bitmap (j * w + i);
           s ← writePixel (wrap16 (x + i)) y c st.1;
           Some (s, st.2))
        y w h s;
  endWrite s.

Definition drawGrayscaleBitmap := drawRGBBitmap.

(** [Adafruit_GFX::drawRGBBitmap(x, y, bitmap, mask, w, h)] and the
    grayscale member of the same shape: the pixel is drawn where the bit
    of the 1-bit mask is set. *)
Definition drawRGBBitmap_mask (x y : Z) (bitmap mask : list Z) (w h : Z)
    (s : sink) : option sink :=
  let bw := wrap16 ((w + 7) ÷ 8) in
  s ← startWrite s;
  s ← bitmap_rows
        (λ y j, bitmap_bit true
                  (λ set i s,
                     if set
                     then c ← peek bitmap (j * w + i);
                          writePixel (wrap16 (x + i)) y c s
                     else Some s)
                  mask j bw)
        y w h s;
  endWrite s.

End Rasterizer.
End GFX.

(** ** A subclass that overrides [drawPixel], [startWrite] and [endWrite]
    only, and inherits every other virtual member from [Adafruit_GFX].
    The sink state is the list of calls to the three overridden members, in
    program order. *)

Module Inherited.

Inductive prim : Type :=
| StartWrite
| EndWrite
| DrawPixel (x y color : Z).

Definition call (e : prim) (t : list prim) : option (list prim) :=
  Some (t ++ [e]).

Definition startWrite := call StartWrite.
Definition endWrite := call EndWrite.
Definition drawPixel (x y color : Z) := call (DrawPixel x y color).

(** The inline defaults of the header:
    [writePixel] calls [drawPixel], [writeFastVLine] calls
    [drawFastVLine], [writeFastHLine] calls [drawFastHLine]. *)
Definition writePixel := drawPixel.
Definition writeLine (fuel : nat) := GFX.writeLine writePixel fuel.
Definition drawFastVLine (fuel : nat) :=
  GFX.drawFastVLine startWrite endWrite (writeLine fuel).
Definition drawFastHLine (fuel : nat) :=
  GFX.drawFastHLine startWrite endWrite (writeLine fuel).
Definition writeFastVLine := drawFastVLine.
Definition writeFastHLine := drawFastHLine.
Definition fillRect (fuel : nat) :=
  GFX.fillRect startWrite endWrite (writeFastVLine fuel) fuel.
Definition drawLine (fuel : nat) :=
  GFX.drawLine startWrite endWrite (writeLine fuel)
    (drawFastVLine fuel) (drawFastHLine fuel).
Definition fillTriangle (fuel : nat) :=
  GFX.fillTriangle startWrite endWrite (writeFastHLine fuel) fuel.

Definition fillScreen (fuel : nat) := GFX.fillScreen (fillRect fuel).
Definition drawRect (fuel : nat) :=
  GFX.drawRect startWrite endWrite (writeFastVLine fuel)
    (writeFastHLine fuel).
Definition drawCircle := GFX.drawCircle startWrite endWrite writePixel.
Definition drawBitmap := GFX.drawBitmap startWrite endWrite writePixel.
Definition drawBitmap_bg := GFX.drawBitmap_bg startWrite endWrite writePixel.
Definition drawXBitmap := GFX.drawXBitmap startWrite endWrite writePixel.
Definition drawRGBBitmap := GFX.drawRGBBitmap startWrite endWrite writePixel.
Definition drawRGBBitmap_mask :=
  GFX.drawRGBBitmap_mask startWrite endWrite writePixel.

(** Coordinates handed to [drawPixel]. *)
Definition pixels (t : list prim) : list (Z * Z) :=
  flat_map (λ e, match e with DrawPixel x y _ => [(x, y)] | _ => [] end) t.

End Inherited.

(** ** A sink that only records the span-level calls it receives:
    [startWrite], [endWrite] and [writeFastHLine] with their arguments. *)

Module SpanLog.

Inductive call : Type :=
| StartWrite
| EndWrite
| WriteFastHLine (x y w color : Z).

Definition record (e : call) (t : list call) : option (list call) :=
  Some (t ++ [e]).

Definition fillTriangle (fuel : nat) :=
  GFX.fillTriangle (record StartWrite) (record EndWrite)
    (λ x y w color, record (WriteFastHLine x y w color)) fuel.

End SpanLog.

(** ** The members [Adafruit_SPITFT] inherits from [Adafruit_GFX], bound to
    its own overrides.  The sink state is the bus trace so far and the
    object. *)

Module SPITFT_GFX.

Definition sink : Type := list SPITFT.bus * SPITFT.display.

Definition emit (t' : list SPITFT.bus) (s : sink) : option sink :=
  Some (s.1 ++ t', s.2).

Definition lift (f : SPITFT.display → list SPITFT.bus * SPITFT.display)
    (s : sink) : option sink :=
  let '(t', d') := f s.2 in Some (s.1 ++ t', d').

Definition startWrite := emit SPITFT.startWrite.
Definition endWrite := emit SPITFT.endWrite.
Definition writeFastHLine (x y w color : Z) :=
  lift (SPITFT.writeFastHLine x y w color).

(** [Adafruit_GFX::fillTriangle] on an [Adafruit_SPITFT] object. *)
Definition fillTriangle (fuel : nat) :=
  GFX.fillTriangle startWrite endWrite writeFastHLine fuel.

End SPITFT_GFX.

(** ** The offscreen canvases as sinks of the rasteriser

    [GFXcanvas1] and [GFXcanvas16] override [drawPixel] and [fillScreen];
    [GFXcanvas8] overrides [writeFastHLine] as well.  [startWrite] and
    [endWrite] are the empty defaults of the base class. *)

Inductive depth : Type := Bpp1 | Bpp8 | Bpp16.

Module Offscreen.

Definition new (d : depth) : Z → Z → bool → canvas :=
  match d with
  | Bpp1 => Canvas1.new
  | Bpp8 => Canvas8.new
  | Bpp16 => Canvas16.new
  end.

Definition drawPixel (d : depth) : Z → Z → Z → canvas → option canvas :=
  match d with
  | Bpp1 => Canvas1.drawPixel
  | Bpp8 => Canvas8.drawPixel
  | Bpp16 => Canvas16.drawPixel
  end.

Definition fillScreen (d : depth) : Z → canvas → option canvas :=
  match d with
  | Bpp1 => Canvas1.fillScreen
  | Bpp8 => Canvas8.fillScreen
  | Bpp16 => Canvas16.fillScreen
  end.

Definition startWrite (c : canvas) : option canvas := Some c.
Definition endWrite (c : canvas) : option canvas := Some c.
Definition writePixel (d : depth) := drawPixel d.
Definition writeLine (d : depth) (fuel : nat) :=
  GFX.writeLine (writePixel d) fuel.
Definition drawFastVLine (d : depth) (fuel : nat) :=
  GFX.drawFastVLine startWrite endWrite (writeLine d fuel).
Definition drawFastHLine (d : depth) (fuel : nat) :=
  GFX.drawFastHLine startWrite endWrite (writeLine d fuel).
Definition writeFastVLine := drawFastVLine.
Definition writeFastHLine (d : depth) (fuel : nat)
  : Z → Z → Z → Z → canvas → option canvas :=
  match d with
  | Bpp8 => Canvas8.writeFastHLine
  | _ => drawFastHLine d fuel
  end.
Definition fillRect (d : depth) (fuel : nat) :=
  GFX.fillRect startWrite endWrite (writeFastVLine d fuel) fuel.
Definition drawLine (d : depth) (fuel : nat) :=
  GFX.drawLine startWrite endWrite (writeLine d fuel)
    (drawFastVLine d fuel) (drawFastHLine d fuel).
Definition fillTriangle (d : depth) (fuel : nat) :=
  GFX.fillTriangle startWrite endWrite (writeFastHLine d fuel) fuel.

(** [setRotation] on a canvas object (inherited); the argument is
    converted to [uint8_t] at the call. *)
Definition setRotation (r : Z) (c : canvas) : canvas :=
  {| gfx := setRotation (u8 r) (gfx c); buffer := buffer c |}.

(** The public operations of a canvas object. *)
Inductive op : Type :=
| SetRotation (r : Z)
| DrawPixel (x y color : Z)
| FillScreen (color : Z)
| WriteFastHLine (x y w color : Z)
| DrawFastHLine (x y w color : Z)
| DrawFastVLine (x y h color : Z)
| FillRect (x y w h color : Z)
| DrawLine (x0 y0 x1 y1 color : Z)
| FillTriangle (x0 y0 x1 y1 x2 y2 color : Z).

Definition step (d : depth) (fuel : nat) (o : op) (c : canvas)
  : option canvas :=
  match o with
  | SetRotation r => Some (setRotation r c)
  | DrawPixel x y color => drawPixel d x y color c
  | FillScreen color => fillScreen d color c
  | WriteFastHLine x y w color => writeFastHLine d fuel x y w color c
  | DrawFastHLine x y w color => drawFastHLine d fuel x y w color c
  | DrawFastVLine x y h color => drawFastVLine d fuel x y h color c
  | FillRect x y w h color => fillRect d fuel x y w h color c
  | DrawLine x0 y0 x1 y1 color => drawLine d fuel x0 y0 x1 y1 color c
  | FillTriangle x0 y0 x1 y1 x2 y2 color =>
      fillTriangle d fuel x0 y0 x1 y1 x2 y2 color c
  end.

Fixpoint run (d : depth) (fuel : nat) (ops : list op) (c : canvas)
  : option canvas :=
  match ops with
  | [] => Some c
  | o :: ops => c ← step d fuel o c; run d fuel ops c
  end.

(** The argument of the last [setRotation] call of a history, 0 when
    there is none (the constructor's value). *)
Fixpoint last_rotation (acc : Z) (ops : list op) : Z :=
  match ops with
  | [] => acc
  | SetRotation r :: ops => last_rotation r ops
  | _ :: ops => last_rotation acc ops
  end.

End Offscreen.

(** ** Reference behaviour named by the specification *)

(** A horizontal span drawn pixel by pixel: [w] calls of
    [GFXcanvas8::drawPixel] at the logical coordinates [(x + i, y)],
    [i = 0 .. w - 1]. *)
Fixpoint hline_per_pixel (n : nat) (x y color : Z) (c : canvas)
  : option canvas :=
  match n with
  | O => Some c
  | S n =>
      c ← Canvas8.drawPixel x y color c;
      hline_per_pixel n (x + 1) y color c
  end.

(** The requested rectangle as a set of columns (or rows): an extent [w]
    from origin [x] covers [x .. x + w - 1] when positive and
    [x + w + 1 .. x] when negative ("sign indicates direction"). *)
Definition span_lo (x w : Z) : Z := if w <? 0 then x + w + 1 else x.
Definition span_hi (x w : Z) : Z := if w <? 0 then x else x + w - 1.

(** Membership of a pixel in the requested rectangle. *)
Definition in_rect (x y w h i j : Z) : Prop :=
  w ≠ 0 ∧ h ≠ 0 ∧ span_lo x w <= i <= span_hi x w
  ∧ span_lo y h <= j <= span_hi y h.

(** Membership of a pixel in the visible area [0, W) x [0, H). *)
Definition on_screen (W H i j : Z) : Prop := 0 <= i < W ∧ 0 <= j < H.

(** The normalised rectangle is representable in the [int16_t] variables
    that hold it: its origin does not pass below -32768 and its extent is
    not 32768. *)
Definition representable (x w : Z) : Prop := in16 (span_lo x w) ∧ w ≠ -32768.

(** The columns (or rows) of a request as [fillRect] sees them.  With a
    representable normalisation ([meets]) these are the requested ones,
    and they reach into [0, W).  With a negative extent other than -32768
    whose shifted origin [x + w + 1] passes below -32768 ([wraps_onto]),
    the origin wraps around to [x + w + 1 + 65536], and this column lies
    left of [W]. *)
Definition meets (W x w : Z) : Prop :=
  w ≠ 0 ∧ w ≠ -32768 ∧ -32768 <= span_lo x w < W ∧ 0 <= span_hi x w.

Definition wraps_onto (W x w : Z) : Prop :=
  w < 0 ∧ w ≠ -32768 ∧ x + w + 1 < -32768 ∧ x + w + 1 + 65536 < W.

(** The rectangle lies outside the screen, but [fillRect] sees it on the
    screen: on both axes its tests pass, on one of them at least because
    the origin wrapped around. *)
Definition wrapped_onto_screen (W H x y w h : Z) : Prop :=
  (wraps_onto W x w ∨ wraps_onto H y h)
  ∧ (wraps_onto W x w ∨ meets W x w) ∧ (wraps_onto H y h ∨ meets H y h).

(** ** Predicates used in the statements *)

(** The values of [n] rows of [cw] pixels each, read from a bitmap of row
    length [w] starting at element [off]. *)
Fixpoint rows_values (colors : list Z) (cw w : Z) (n : nat) (off : Z)
  : list Z :=
  match n with
  | O => []
  | S n =>
      take (Z.to_nat cw) (drop (Z.to_nat off) colors)
        ++ rows_values colors cw w n (off + w)
  end.

(** The transaction that the self-contained members put around what their
    transaction-free counterpart emits, when it emits anything. *)
Definition in_transaction (r : list SPITFT.bus * SPITFT.display)
  : list SPITFT.bus * SPITFT.display :=
  match r.1 with
  | [] => r
  | t => (SPITFT.startWrite ++ t ++ SPITFT.endWrite, r.2)
  end.

(** The state invariant of the base class, for raw dimensions [W], [H]. *)
Definition geometry_ok (W H : Z) (g : Adafruit_GFX) : Prop :=
  WIDTH g = W ∧ HEIGHT g = H ∧ 0 <= rotation g < 4
  ∧ (_width g, _height g) = if Z.even (rotation g) then (W, H) else (H, W).

(** A property [P] of the sink that the member [f] keeps. *)
Definition keeps {sink : Type} (P : sink → Prop) (f : sink → option sink)
  : Prop :=
  ∀ s s', f s = Some s' → P s → P s'.

(** The canvases whose base-class state is [g]. *)
Definition same_gfx (g : Adafruit_GFX) (c : canvas) : Prop := gfx c = g.

(** The operations that are calls of [setRotation]. *)
Definition is_setRotation (o : Offscreen.op) : Prop :=
  match o with Offscreen.SetRotation _ => True | _ => False end.

(** The bus events other than [setAddrWindow]. *)
Definition no_window (e : SPITFT.bus) : Prop :=
  match e with SPITFT.SetAddrWindow _ _ _ _ => False | _ => True end.

(** Row [base], columns [lo .. hi - 1], set to [v]. *)
Definition row_fill (buf : list Z) (base lo hi v : Z) : list Z :=
  if lo <? hi
  then take (Z.to_nat (base + lo)) buf ++ replicate (Z.to_nat (hi - lo)) v
         ++ drop (Z.to_nat (base + hi)) buf
  else buf.

(** The number of buffer elements of a canvas of raw size [W] by [H], the
    value a canvas keeps of a colour, and the pixel read back at a raw
    position (a bit as 0 or 1). *)
Definition buffer_cells (d : depth) (W H : Z) : Z :=
  match d with
  | Bpp1 => Canvas1.stride W * H
  | _ => W * H
  end.

Definition stored (d : depth) (color : Z) : Z :=
  match d with
  | Bpp1 => if color =? 0 then 0 else 1
  | Bpp8 => u8 color
  | Bpp16 => u16 color
  end.

Definition raw_at (d : depth) (c : canvas) (x y : Z) : option Z :=
  match d with
  | Bpp1 => (λ b : bool, if b then 1 else 0) <$> Canvas1.raw c x y
  | Bpp8 => Canvas8.raw c x y
  | Bpp16 => Canvas16.raw c x y
  end.

(** The call the loop of [writeLine] makes for the point [p] of the
    normalised line (major axis first). *)
Definition emit_point (steep : bool) (color : Z) (p : Z * Z)
  : Inherited.prim :=
  if steep then Inherited.DrawPixel p.2 p.1 color
  else Inherited.DrawPixel p.1 p.2 color.

(** [p] lies in the bounding box of the segment from [(x0, y0)] to
    [(x1, y1)] and within half a pixel of the line through its end points,
    measured along the minor axis. *)
Definition near_line (x0 y0 x1 y1 : Z) (p : Z * Z) : Prop :=
  Z.min x0 x1 <= p.1 <= Z.max x0 x1 ∧ Z.min y0 y1 <= p.2 <= Z.max y0 y1
  ∧ 2 * Z.abs ((p.2 - y0) * (x1 - x0) - (p.1 - x0) * (y1 - y0))
    <= Z.max (Z.abs (x1 - x0)) (Z.abs (y1 - y0)).

(** The [drawPixel] calls of a trace, with their colours. *)
Definition drawn (t : list Inherited.prim) : list (Z * Z * Z) :=
  flat_map (λ e, match e with
                 | Inherited.DrawPixel x y c => [(x, y, c)]
                 | _ => []
                 end) t.



(** Bit [i] of row [j] of a 1-bit bitmap of width [w] whose rows are padded
    to whole bytes, most significant bit first ([msb = true]) or least
    significant bit first; [false] outside the array. *)
Definition bitmap_bit_set (msb : bool) (bitmap : list Z) (w i j : Z) : bool :=
  match bitmap !! Z.to_nat (j * ((w + 7) / 8) + i / 8) with
  | Some b => Z.testbit b (if msb then 7 - i mod 8 else i mod 8)
  | None => false
  end.

(** The [uint8_t] variable [byte] of the inner loop holds the bits of the
    fetched byte [b] that are still to be tested after [k] shifts. *)
Definition byte_at (msb : bool) (b k byte : Z) : Prop :=
  if msb then ∀ n, 0 <= n < 8 → Z.testbit byte n = Z.testbit (b * 2 ^ k) n
  else ∀ n, 0 <= n → n + k < 8 → Z.testbit byte n = Z.testbit b (n + k).

(** The span of row [y] of the triangle with vertices sorted by row, as
    the comments of [fillTriangle] give it ("longhand"): the crossing [b]
    of edge 0-2, and the crossing [a] of edge 0-1 above row [y1] (row [y1]
    included when the triangle is flat-bottomed) or of edge 1-2 from row
    [y1] on; divisions truncate. *)
Definition triangle_row (x0 y0 x1 y1 x2 y2 color y : Z) : SpanLog.call :=
  let b := x0 + (x2 - x0) * (y - y0) ÷ (y2 - y0) in
  let a := if (y <? y1) || (y1 =? y2)
           then x0 + (x1 - x0) * (y - y0) ÷ (y1 - y0)
           else x1 + (x2 - x1) * (y - y1) ÷ (y2 - y1) in
  SpanLog.WriteFastHLine (Z.min a b) y (Z.abs (b - a) + 1) color.

(** The canvas [c] has a buffer exactly when [c0] has one, and of the
    same size. *)
Definition same_buffer_size (c0 c : canvas) : Prop :=
  length <$> buffer c = length <$> buffer c0.


(** ** Text: [drawChar], [write], [charBounds] and [getTextBounds] *)

(** Conversion to [int8_t]. *)
Definition wrap8 (z : Z) : Z := (z + 128) mod 256 - 128.

Module Text.

(** Modelled from the spec: the declarations of [GFXglyph] and [GFXfont]
    (the header [gfxfont.h]) are not under src/.  The font data contract
    of the spec is "first/last character code, per-glyph {bitmap-offset,
    width, height, x-offset, y-offset, x-advance}, line advance, and a
    shared glyph bitmap blob"; these are the fields that the members
    read.  The members read [bitmapOffset] into a [uint16_t], [width],
    [height], [xAdvance], [first], [last] and [yAdvance] into a
    [uint8_t], and [xOffset] and [yOffset] into an [int8_t], by
    initialisations in braces, which admit no narrowing; the conversion
    to these types is made where a field is read. *)
Record GFXglyph : Type := mkGlyph {
  bitmapOffset : Z;
  width : Z;
  height : Z;
  xAdvance : Z;
  xOffset : Z;
  yOffset : Z
}.

Record GFXfont : Type := mkFont {
  bitmap : list Z;
  glyph : list GFXglyph;
  first : Z;
  last : Z;
  yAdvance : Z
}.

(** The text members of an [Adafruit_GFX] object, with the geometry they
    read. *)
Record printer : Type := mkPrinter {
  scr : Adafruit_GFX;
  cursor_x : Z;
  cursor_y : Z;
  textcolor : Z;
  textbgcolor : Z;
  textsize : Z;
  wrap : bool;
  _cp437 : bool;
  gfxFont : option GFXfont
}.

(** Assignment to [cursor_x] and [cursor_y]. *)
Definition set_cursor (x y : Z) (t : printer) : printer :=
  {| scr := scr t; cursor_x := x; cursor_y := y;
     textcolor := textcolor t; textbgcolor := textbgcolor t;
     textsize := textsize t; wrap := wrap t; _cp437 := _cp437 t;
     gfxFont := gfxFont t |}.

(** The variables [charBounds] updates through its pointer arguments. *)
Record bounds : Type := mkBounds {
  bx : Z;
  by_ : Z;
  minx : Z;
  miny : Z;
  maxx : Z;
  maxy : Z
}.

Section Members.

Context {sink : Type}.

(** The virtual members that [drawChar] calls. *)
Variables startWrite endWrite : sink → option sink.
Variable writePixel : Z → Z → Z → sink → option sink.
Variable v_writeFillRect : Z → Z → Z → Z → Z → sink → option sink.
Variable v_writeFastVLine : Z → Z → Z → Z → sink → option sink.

(** The array [font] of the classic font ([glcdfont.c], not under src/),
    5 bytes a character. *)
Variable font : list Z.

(** One dot of a character at column [i] and row [j] of its grid:
    [if (size == 1) writePixel(x + i, y + j, c);
     else writeFillRect(x + i * size, y + j * size, size, size, c);]. *)
Definition dot (x y size c i j : Z) (s : sink) : option sink :=
  if size =? 1 then writePixel (wrap16 (x + i)) (wrap16 (y + j)) c s
  else v_writeFillRect (wrap16 (x + i * size)) (wrap16 (y + j * size))
         size size c s.

(** One turn of the inner loop of the classic font,
    [for (int8_t j { 0 }; j < 8; j++, line >>= 1)]; the state is the sink
    and [line]. *)
Definition classic_bit (x y size color bg i : Z) (j : Z) (st : sink * Z)
  : option (sink * Z) :=
  s ← (if negb (Z.land st.2 1 =? 0) then dot x y size color i j st.1
       else if negb (bg =? color) then dot x y size bg i j st.1
       else Some st.1);
  Some (s, Z.shiftr st.2 1).

(** One turn of the outer loop, [for (int8_t i { 0 }; i < 5; i++)]. *)
Definition classic_column (x y size color bg c : Z) (i : Z) (s : sink)
  : option sink :=
  line ← font !! Z.to_nat (c * 5 + i);
  st ← for_loop 8 0 (classic_bit x y size color bg i) (s, u8 line);
  Some st.1.

(** One turn of the inner loop of a custom font,
    [for (xx = 0; xx < w; xx++)]; the state is the sink and the [uint8_t]
    variables [bits] and [bit] and the [uint16_t] variable [bo]. *)
Definition custom_bit (f : GFXfont) (x y xo yo xo16 yo16 size color yy : Z)
    (xx : Z) (st : sink * (Z * Z * Z)) : option (sink * (Z * Z * Z)) :=
  let '(s, (bits, bit, bo)) := st in
  fetched ← (if Z.land bit 7 =? 0
             then b ← bitmap f !! Z.to_nat bo; Some (u8 b, u16 (bo + 1))
             else Some (bits, bo));
  s ← (if negb (Z.land fetched.1 0x80 =? 0) then
         if size =? 1
         then writePixel (wrap16 (x + xo + xx)) (wrap16 (y + yo + yy))
                color s
         else v_writeFillRect (wrap16 (x + (xo16 + xx) * size))
                (wrap16 (y + (yo16 + yy) * size)) size size color s
       else Some s);
  Some (s, (u8 (Z.shiftl fetched.1 1), u8 (bit + 1), fetched.2)).

(** [Adafruit_GFX::drawChar]. *)
Definition drawChar (t : printer) (x y c color bg size : Z) (s : sink)
  : option sink :=
  match gfxFont t with
  | None =>
      if (x >=? _width (scr t)) || (y >=? _height (scr t))
         || (x + 6 * size - 1 <? 0) || (y + 8 * size - 1 <? 0)
      then Some s
      else
        let c := if negb (_cp437 t) && (c >=? 176) then u8 (c + 1) else c in
        s ← startWrite s;
        s ← for_loop 5 0 (classic_column x y size color bg c) s;
        s ← (if negb (bg =? color) then
               if size =? 1 then v_writeFastVLine (wrap16 (x + 5)) y 8 bg s
               else v_writeFillRect (wrap16 (x + 5 * size)) y size
                      (wrap16 (8 * size)) bg s
             else Some s);
        endWrite s
  | Some f =>
      let c := u8 (c - first f) in
      g ← glyph f !! Z.to_nat c;
      let bo := u16 (bitmapOffset g) in
      let w := u8 (width g) in
      let h := u8 (height g) in
      let xo := wrap8 (xOffset g) in
      let yo := wrap8 (yOffset g) in
      let '(xo16, yo16) := if size >? 1 then (xo, yo) else (0, 0) in
      s ← startWrite s;
      st ← for_loop (Z.to_nat h) 0
             (λ yy st,
                for_loop (Z.to_nat w) 0
                  (custom_bit f x y xo yo xo16 yo16 size color yy) st)
             (s, (0, 0, bo));
      endWrite st.1
  end.

(** [cursor_x = 0; cursor_y += dy;]. *)
Definition new_line (dy : Z) (t : printer) : printer :=
  set_cursor 0 (wrap16 (cursor_y t + dy)) t.

(** [Adafruit_GFX::write(uint8_t c)]. *)
Definition write (c : Z) (t : printer) (s : sink) : option (printer * sink) :=
  match gfxFont t with
  | None =>
      if c =? 10 then Some (new_line (textsize t * 8) t, s)
      else if negb (c =? 13) then
        let t := if wrap t && (cursor_x t + textsize t * 6 >? _width (scr t))
                 then new_line (textsize t * 8) t else t in
        s ← drawChar t (cursor_x t) (cursor_y t) c (textcolor t)
              (textbgcolor t) (textsize t) s;
        Some (set_cursor (wrap16 (cursor_x t + textsize t * 6)) (cursor_y t) t,
              s)
      else Some (t, s)
  | Some f =>
      if c =? 10 then Some (new_line (textsize t * u8 (yAdvance f)) t, s)
      else if negb (c =? 13) then
        let first := u8 (first f) in
        if (c >=? first) && (c <=? u8 (last f)) then
          g ← glyph f !! Z.to_nat (c - first);
          let w := u8 (width g) in
          let h := u8 (height g) in
          r ← (if (w >? 0) && (h >? 0) then
                 let xo := wrap8 (xOffset g) in
                 let t := if wrap t && (cursor_x t + textsize t * (xo + w)
                                        >? _width (scr t))
                          then new_line (textsize t * u8 (yAdvance f)) t
                          else t in
                 s ← drawChar t (cursor_x t) (cursor_y t) c (textcolor t)
                       (textbgcolor t) (textsize t) s;
                 Some (t, s)
               else Some (t, s));
          Some (set_cursor (wrap16 (cursor_x r.1 + u8 (xAdvance g) * textsize t))
                  (cursor_y r.1) r.1,
                r.2)
        else Some (t, s)
      else Some (t, s)
  end.

(** A history of [write] calls, one for each character of [str]. *)
Fixpoint writes (str : list Z) (t : printer) (s : sink)
  : option (printer * sink) :=
  match str with
  | [] => Some (t, s)
  | c :: str => r ← write c t s; writes str r.1 r.2
  end.

End Members.

(** [*x = 0; *y += dy;]. *)
Definition next_line (dy : Z) (b : bounds) : bounds :=
  {| bx := 0; by_ := wrap16 (by_ b + dy); minx := minx b; miny := miny b;
     maxx := maxx b; maxy := maxy b |}.

(** The four comparisons that grow the box to the corners [(x1, y1)] and
    [(x2, y2)], followed by [*x += dx]. *)
Definition grow (x1 y1 x2 y2 dx : Z) (b : bounds) : bounds :=
  {| bx := wrap16 (bx b + dx); by_ := by_ b;
     minx := if x1 <? minx b then x1 else minx b;
     miny := if y1 <? miny b then y1 else miny b;
     maxx := if x2 >? maxx b then wrap16 x2 else maxx b;
     maxy := if y2 >? maxy b then wrap16 y2 else maxy b |}.

(** [Adafruit_GFX::charBounds]; [c] is the value of the [char] argument:
    negative for a character from 128 on where [char] is signed. *)
Definition charBounds (t : printer) (c : Z) (b : bounds) : option bounds :=
  match gfxFont t with
  | Some f =>
      if c =? 10 then Some (next_line (textsize t * u8 (yAdvance f)) b)
      else if negb (c =? 13) then
        let first := u8 (first f) in
        let last := u8 (last f) in
        if (c >=? first) && (c <=? last) then
          g ← glyph f !! Z.to_nat (c - first);
          let gw := u8 (width g) in
          let gh := u8 (height g) in
          let xa := u8 (xAdvance g) in
          let xo := wrap8 (xOffset g) in
          let yo := wrap8 (yOffset g) in
          let b := if wrap t && (bx b + (xo + gw) * textsize t
                                 >? _width (scr t))
                   then next_line (textsize t * u8 (yAdvance f)) b else b in
          let ts := textsize t in
          let x1 := wrap16 (bx b + xo * ts) in
          let y1 := wrap16 (by_ b + yo * ts) in
          let x2 := wrap16 (x1 + gw * ts - 1) in
          let y2 := wrap16 (y1 + gh * ts - 1) in
          Some (grow x1 y1 x2 y2 (xa * ts) b)
        else Some b
      else Some b
  | None =>
      if c =? 10 then Some (next_line (textsize t * 8) b)
      else if negb (c =? 13) then
        let b := if wrap t && (bx b + textsize t * 6 >? _width (scr t))
                 then next_line (textsize t * 8) b else b in
        let x2 := bx b + textsize t * 6 - 1 in
        let y2 := by_ b + textsize t * 8 - 1 in
        Some (grow (bx b) (by_ b) x2 y2 (textsize t * 6) b)
      else Some b
  end.

(** The loop [while ((c = *str++)) charBounds(c, ...)] over the characters
    [str] of a string; [signed_char] tells whether [char] is signed. *)
Fixpoint bounds_of (signed_char : bool) (t : printer) (str : list Z)
    (b : bounds) : option bounds :=
  match str with
  | [] => Some b
  | c :: str =>
      b ← charBounds t (if signed_char then wrap8 c else c) b;
      bounds_of signed_char t str b
  end.

(** [Adafruit_GFX::getTextBounds(const char*, ...)]: the values left in
    [*x1], [*y1], [*w] and [*h]. *)
Definition getTextBounds (signed_char : bool) (t : printer) (str : list Z)
    (x y : Z) : option (Z * Z * Z * Z) :=
  b ← bounds_of signed_char t str
        {| bx := x; by_ := y; minx := _width (scr t);
           miny := _height (scr t); maxx := -1; maxy := -1 |};
  let '(x1, w) := if maxx b >=? minx b
                  then (minx b, u16 (maxx b - minx b + 1)) else (x, 0) in
  let '(y1, h) := if maxy b >=? miny b
                  then (miny b, u16 (maxy b - miny b + 1)) else (y, 0) in
  Some (x1, y1, w, h).

End Text.

(** A subclass that records the calls of [drawChar] to the virtual members
    with their arguments. *)
Module Glyphs.

Inductive call : Type :=
| StartWrite
| EndWrite
| WritePixel (x y color : Z)
| WriteFillRect (x y w h color : Z)
| WriteFastVLine (x y h color : Z).

Definition record (e : call) (t : list call) : option (list call) :=
  Some (t ++ [e]).

Definition drawChar (font : list Z) :=
  Text.drawChar (record StartWrite) (record EndWrite)
    (λ x y color, record (WritePixel x y color))
    (λ x y w h color, record (WriteFillRect x y w h color))
    (λ x y h color, record (WriteFastVLine x y h color)) font.

Definition write (font : list Z) :=
  Text.write (record StartWrite) (record EndWrite)
    (λ x y color, record (WritePixel x y color))
    (λ x y w h color, record (WriteFillRect x y w h color))
    (λ x y h color, record (WriteFastVLine x y h color)) font.

Definition writes (font : list Z) :=
  Text.writes (record StartWrite) (record EndWrite)
    (λ x y color, record (WritePixel x y color))
    (λ x y w h color, record (WriteFillRect x y w h color))
    (λ x y h color, record (WriteFastVLine x y h color)) font.

End Glyphs.

(** The call [e] draws only inside the box with corners [(x1, y1)] and
    [(x2, y2)]. *)
Definition call_within (x1 y1 x2 y2 : Z) (e : Glyphs.call) : Prop :=
  match e with
  | Glyphs.StartWrite | Glyphs.EndWrite => True
  | Glyphs.WritePixel x y _ => x1 <= x <= x2 ∧ y1 <= y <= y2
  | Glyphs.WriteFillRect x y w h _ =>
      0 < w ∧ 0 < h ∧ x1 <= x ∧ x + w - 1 <= x2 ∧ y1 <= y ∧ y + h - 1 <= y2
  | Glyphs.WriteFastVLine x y h _ =>
      0 < h ∧ x1 <= x <= x2 ∧ y1 <= y ∧ y + h - 1 <= y2
  end.

(** The glyph [g] holds values of the types of its fields. *)
Definition glyph_ok (g : Text.GFXglyph) : Prop :=
  is_u16 (Text.bitmapOffset g) ∧ is_u8 (Text.width g)
  ∧ is_u8 (Text.height g) ∧ is_u8 (Text.xAdvance g)
  ∧ -128 <= Text.xOffset g < 128 ∧ -128 <= Text.yOffset g < 128.

(** Bit [n] of the bit stream that starts at byte [bo] of [bitmap], the
    most significant bit of a byte first; [false] outside the array. *)
Definition packed_bit (bitmap : list Z) (bo n : Z) : bool :=
  match bitmap !! Z.to_nat (bo + n / 8) with
  | Some b => Z.testbit b (7 - n mod 8)
  | None => false
  end.

(** The dot of a character at column [i] and row [j] of its grid, drawn at
    magnification [size]. *)
Definition glyph_dot (x y size c i j : Z) : Glyphs.call :=
  if size =? 1 then Glyphs.WritePixel (x + i) (y + j) c
  else Glyphs.WriteFillRect (x + i * size) (y + j * size) size size c.

(** The calls of [drawChar] for the character with code [c] of the classic
    font inside a transaction: dot [(i, j)] is drawn in [color] when bit
    [j] of byte [c * 5 + i] of the font is set and in [bg] otherwise, column
    by column; when [bg = color] only the set bits are drawn, and otherwise
    a sixth column is filled with [bg]. *)
Definition classic_dots (font : list Z) (x y c color bg size : Z)
  : list Glyphs.call :=
  flat_map
    (λ i, flat_map
            (λ j, match font !! Z.to_nat (c * 5 + i) with
                  | Some line =>
                      if Z.testbit line j then [glyph_dot x y size color i j]
                      else if bg =? color then []
                      else [glyph_dot x y size bg i j]
                  | None => []
                  end)
            (seqZ 0 8))
    (seqZ 0 5)
  ++ (if bg =? color then []
      else if size =? 1 then [Glyphs.WriteFastVLine (x + 5) y 8 bg]
      else [Glyphs.WriteFillRect (x + 5 * size) y size (8 * size) bg]).


(** The dots of [drawChar] for the glyph [g] of a custom font: the bits of
    the glyph are packed row by row without padding, and dot [(xx, yy)] is
    drawn when bit [yy * width + xx] is set. *)
Definition custom_dots (f : Text.GFXfont) (g : Text.GFXglyph)
    (x y color size : Z) : list Glyphs.call :=
  flat_map
    (λ yy, flat_map
             (λ xx, if packed_bit (Text.bitmap f) (Text.bitmapOffset g)
                         (yy * Text.width g + xx)
                    then [glyph_dot x y size color (Text.xOffset g + xx)
                            (Text.yOffset g + yy)]
                    else [])
             (seqZ 0 (Text.width g)))
    (seqZ 0 (Text.height g)).

(** The walk of [charBounds] and a history of [write] calls agree: [b]
    holds the cursor of [t], the calls recorded in [log] lie in the box of
    [b], and the [n] characters still to come fit the range of
    [int16_t]. *)
Definition tracks (t : Text.printer) (b : Text.bounds)
    (log : list Glyphs.call) (n : Z) : Prop :=
  Text.bx b = Text.cursor_x t ∧ Text.by_ b = Text.cursor_y t
  ∧ -32768 < Text.cursor_x t
  ∧ Z.max 0 (Text.cursor_x t) + 6 * Text.textsize t * n <= 32767
  ∧ -32768 < Text.cursor_y t
  ∧ Text.cursor_y t + 8 * Text.textsize t * (n + 1) <= 32767
  ∧ -32768 < Text.minx b ∧ -32768 < Text.miny b
  ∧ Text.maxx b <= 32767 ∧ Text.maxy b <= 32767
  ∧ Forall (call_within (Text.minx b) (Text.miny b) (Text.maxx b)
              (Text.maxy b)) log
  ∧ (log = [] ∨ (Text.minx b <= Text.maxx b ∧ Text.miny b <= Text.maxy b)).

(** The registers of the loops of a custom font after [n] bits: the bit
    counter, the offset of the next byte, and the bits of the current
    byte still to come. *)
Definition glyph_regs (bitmap : list Z) (bo n : Z) (r : Z * Z * Z) : Prop :=
  let '(bits, bit, bo') := r in
  bit = u8 n ∧ bo' = bo + (n + 7) / 8
  ∧ (n mod 8 ≠ 0 →
     ∃ b, bitmap !! Z.to_nat (bo + n / 8) = Some b
          ∧ byte_at true b (n mod 8) bits).

(** The conditions under which [charBounds] takes the decisions of
    [write] on the characters [str].  With the classic font there is none.
    With a custom font, [charBounds] receives the character as a [char]
    and, where [char] is signed, misses the characters from 128 on; and it
    tests for wrapping at every glyph, where [write] only does at a glyph
    that has a bitmap. *)
Definition same_walk (signed_char : bool) (t : Text.printer) (str : list Z)
  : Prop :=
  match Text.gfxFont t with
  | None => True
  | Some f =>
      (signed_char = false ∨ Forall (λ c, c < 128) str)
      ∧ (Text.wrap t = false
         ∨ Forall (λ g, 0 < u8 (Text.width g) ∧ 0 < u8 (Text.height g))
             (Text.glyph f))
  end.

(** * Proofs *)

(** ** The embedding on small inputs *)

Example fillRect_spec_example :
  SPITFT.painted (fst (SPITFT.fillRect (-5) 10 20 5 7
                         (SPITFT.new 100 100 (replicate 32 0))))
  = SPITFT.paint_values (0, 10, 15, 5) 0 (replicate 75 7).
Proof. vm_compute. reflexivity. Qed.

Example line_example :
  Inherited.pixels <$> Inherited.drawLine 10 0 0 3 1 9 []
  = Some [(0, 0); (1, 0); (2, 1); (3, 1)].
Proof. vm_compute. reflexivity. Qed.

Example line_example_rev :
  Inherited.pixels <$> Inherited.drawLine 10 3 1 0 0 9 []
  = Some [(0, 0); (1, 0); (2, 1); (3, 1)].
Proof. vm_compute. reflexivity. Qed.

Example fillRect_base_example :
  Inherited.fillRect 10 200 200 1 2 9 []
  = Some [Inherited.StartWrite; Inherited.StartWrite;
          Inherited.DrawPixel 200 200 9; Inherited.DrawPixel 200 201 9;
          Inherited.EndWrite; Inherited.EndWrite].
Proof. vm_compute. reflexivity. Qed.

(** [lia] after the divisions and remainders are turned into equations. *)
Ltac elia := Z.to_euclidean_division_equations; lia.

(** Closed comparisons, by evaluation. *)
Ltac evaluate :=
  vm_compute; repeat split;
  first [reflexivity | discriminate | intro; discriminate].

(** Boolean comparisons in the hypotheses, as propositions. *)
Ltac zbool :=
  repeat match goal with
  | H : (_ >? _) = _ |- _ => rewrite Z.gtb_ltb in H
  | H : (_ >=? _) = _ |- _ => rewrite Z.geb_leb in H
  | H : (_ <? _) = true |- _ => apply Z.ltb_lt in H
  | H : (_ <? _) = false |- _ => apply Z.ltb_ge in H
  | H : (_ <=? _) = true |- _ => apply Z.leb_le in H
  | H : (_ <=? _) = false |- _ => apply Z.leb_gt in H
  | H : (_ =? _) = true |- _ => apply Z.eqb_eq in H
  | H : (_ =? _) = false |- _ => apply Z.eqb_neq in H
  end.

(** ** Fixed-width integers *)

Lemma wrap16_id z : in16 z → wrap16 z = z.
Proof. unfold in16, wrap16. intros. elia. Qed.

Lemma wrap16_in16 z : in16 (wrap16 z).
Proof. unfold in16, wrap16. elia. Qed.

Lemma u8_id z : is_u8 z → u8 z = z.
Proof. unfold is_u8, u8. intros. elia. Qed.

Lemma u16_id z : is_u16 z → u16 z = z.
Proof. unfold is_u16, u16. intros. elia. Qed.

Lemma u32_id z : is_u32 z → u32 z = z.
Proof. unfold is_u32, u32. intros. elia. Qed.

(** A boolean check run over [0 .. n - 1] holds of every number there. *)
Lemma range_check (P : Z → bool) (n z : Z) :
  forallb P (seqZ 0 n) = true → 0 <= z < n → P z = true.
Proof.
  intros Hall Hz. rewrite forallb_forall in Hall. apply Hall.
  apply list_elem_of_In, elem_of_seqZ. lia.
Qed.

(** ** Color packing *)

Lemma red_field r : is_u8 r → Z.shiftl (Z.land r 0xF8) 8 = (r ÷ 8) * 2048.
Proof.
  intros Hr.
  apply Z.eqb_eq.
  apply (range_check (λ r, Z.shiftl (Z.land r 0xF8) 8 =? (r ÷ 8) * 2048) 256);
    [ vm_compute; reflexivity | exact Hr ].
Qed.

Lemma green_field g : is_u8 g → Z.shiftl (Z.land g 0xFC) 3 = (g ÷ 4) * 32.
Proof.
  intros Hg.
  apply Z.eqb_eq.
  apply (range_check (λ g, Z.shiftl (Z.land g 0xFC) 3 =? (g ÷ 4) * 32) 256);
    [ vm_compute; reflexivity | exact Hg ].
Qed.

Lemma blue_field b : Z.shiftr b 3 = b / 8.
Proof. apply (Z.shiftr_div_pow2 b 3). lia. Qed.

(** A value shifted left by [n] and a value below [2 ^ n] have no bit in
    common: their bitwise or is their sum. *)
Lemma lor_shifted a b n :
  0 <= n → 0 <= b < 2 ^ n → Z.lor (Z.shiftl a n) b = a * 2 ^ n + b.
Proof.
  intros Hn Hb.
  assert (Hland : Z.land (Z.shiftl a n) b = 0).
  { apply Z.bits_inj'. intros i Hi. rewrite Z.land_spec, Z.bits_0.
    destruct (Z.lt_ge_cases i n) as [Hlt|Hge].
    - rewrite Z.shiftl_spec_low by lia. reflexivity.
    - destruct (Z.eq_dec b 0) as [->|Hb0].
      + rewrite Z.bits_0. apply andb_false_r.
      + rewrite (Z.bits_above_log2 b i), andb_false_r; [reflexivity|lia|].
        assert (Z.log2 b < n) by (apply Z.log2_lt_pow2; lia). lia. }
  rewrite <- Z.lxor_lor by exact Hland.
  rewrite <- Z.add_nocarry_lxor by exact Hland.
  rewrite Z.shiftl_mul_pow2 by lia. reflexivity.
Qed.

(** Three fields that do not overlap are or-ed as they are added. *)
Lemma lor_fields a b c :
  0 <= a < 32 → 0 <= b < 64 → 0 <= c < 32 →
  Z.lor (Z.lor (a * 2048) (b * 32)) c = a * 2048 + b * 32 + c.
Proof.
  intros Ha Hb Hc.
  assert (E1 : Z.lor (a * 2048) (b * 32) = Z.shiftl (a * 64 + b) 5).
  { replace (a * 2048) with (Z.shiftl a 11)
      by (rewrite Z.shiftl_mul_pow2 by lia; reflexivity).
    rewrite (lor_shifted a (b * 32) 11) by (change (2 ^ 11) with 2048; lia).
    rewrite Z.shiftl_mul_pow2 by lia.
    change (2 ^ 11) with 2048. change (2 ^ 5) with 32. lia. }
  rewrite E1.
  rewrite (lor_shifted (a * 64 + b) c 5) by (change (2 ^ 5) with 32; lia).
  change (2 ^ 5) with 32. lia.
Qed.

(** The fields read back from a packed value. *)
Lemma fields_back a b c :
  0 <= a < 32 → 0 <= b < 64 → 0 <= c < 32 →
  let p := a * 2048 + b * 32 + c in
  Z.shiftr p 11 = a ∧ Z.land (Z.shiftr p 5) 0x3F = b ∧ Z.land p 0x1F = c.
Proof.
  intros Ha Hb Hc p.
  rewrite !Z.shiftr_div_pow2 by lia.
  change 0x3F with (Z.ones 6). change 0x1F with (Z.ones 5).
  rewrite !Z.land_ones by lia.
  change (2 ^ 11) with 2048. change (2 ^ 5) with 32. change (2 ^ 6) with 64.
  unfold p. repeat split; elia.
Qed.

(** ** Rotation *)

Lemma land3_mod4 x : Z.land x 3 = x mod 4.
Proof. change 3 with (Z.ones 2). rewrite Z.land_ones by lia. reflexivity. Qed.

Lemma new_GFX_ok w h : geometry_ok (wrap16 w) (wrap16 h) (new_GFX w h).
Proof. repeat split; simpl; lia. Qed.

Lemma setRotation_rotation x g : rotation (setRotation x g) = x mod 4.
Proof.
  unfold setRotation. rewrite land3_mod4.
  assert (Hr : x mod 4 = 0 ∨ x mod 4 = 1 ∨ x mod 4 = 2 ∨ x mod 4 = 3) by elia.
  destruct Hr as [E|[E|[E|E]]]; rewrite E; reflexivity.
Qed.

Lemma setRotation_ok W H x g :
  geometry_ok W H g → geometry_ok W H (setRotation x g).
Proof.
  intros (HW & HH & _ & _).
  unfold geometry_ok. rewrite setRotation_rotation.
  unfold setRotation. rewrite land3_mod4.
  assert (Hr : x mod 4 = 0 ∨ x mod 4 = 1 ∨ x mod 4 = 2 ∨ x mod 4 = 3) by elia.
  destruct Hr as [E|[E|[E|E]]]; rewrite E; simpl;
    rewrite ?HW, ?HH; repeat split; lia.
Qed.

Lemma u8_mod4 r : u8 r mod 4 = r mod 4.
Proof. unfold u8. elia. Qed.

(** ** What the rasteriser leaves alone

    A property of the sink that every virtual member keeps is kept by every
    drawing member built from them. *)

Section Preservation.

Context {sink : Type} (P : sink → Prop).

Lemma keeps_bind (f g : sink → option sink) :
  keeps P f → keeps P g → keeps P (λ s, f s ≫= g).
Proof.
  intros Hf Hg s s' H Hs. destruct (f s) as [s1|] eqn:E; [|discriminate].
  simpl in H. eapply Hg; [exact H|]. eapply Hf; eauto.
Qed.

Variables startWrite endWrite : sink → option sink.
Variable writePixel : Z → Z → Z → sink → option sink.
Variable v_writeLine : Z → Z → Z → Z → Z → sink → option sink.
Variables v_writeFastVLine v_writeFastHLine
  : Z → Z → Z → Z → sink → option sink.
Variables v_drawFastVLine v_drawFastHLine
  : Z → Z → Z → Z → sink → option sink.

Hypothesis startWrite_keeps : keeps P startWrite.
Hypothesis endWrite_keeps : keeps P endWrite.
Hypothesis writePixel_keeps : ∀ x y c, keeps P (writePixel x y c).
Hypothesis writeLine_keeps' : ∀ a b c d e, keeps P (v_writeLine a b c d e).
Hypothesis writeFastVLine_keeps : ∀ a b c d, keeps P (v_writeFastVLine a b c d).
Hypothesis writeFastHLine_keeps : ∀ a b c d, keeps P (v_writeFastHLine a b c d).
Hypothesis drawFastVLine_keeps' : ∀ a b c d, keeps P (v_drawFastVLine a b c d).
Hypothesis drawFastHLine_keeps' : ∀ a b c d, keeps P (v_drawFastHLine a b c d).

Lemma writeLine_loop_keeps fuel steep x0 x1 y0 err dx dy ystep color :
  keeps P (GFX.writeLine_loop writePixel fuel steep x0 x1 y0 err dx dy ystep
           color).
Proof.
  revert x0 y0 err.
  induction fuel as [|fuel IH]; intros x0 y0 err s s' H Hs; simpl in H;
    [discriminate|].
  destruct (x0 <=? x1); [|by simplify_eq].
  destruct (if steep then writePixel y0 x0 color s
            else writePixel x0 y0 color s) as [s1|] eqn:E;
    [|discriminate].
  simpl in H.
  assert (P s1) by (destruct steep; eapply writePixel_keeps; eauto).
  destruct (wrap16 (err - dy) <? 0); eapply IH; eauto.
Qed.

Lemma writeLine_keeps fuel x0 y0 x1 y1 color :
  keeps P (GFX.writeLine writePixel fuel x0 y0 x1 y1 color).
Proof.
  intros s s' H. unfold GFX.writeLine in H.
  destruct (Z.abs (y1 - y0) >? Z.abs (x1 - x0));
    [destruct (y0 >? y1) | destruct (x0 >? x1)];
    eapply writeLine_loop_keeps; exact H.
Qed.

Lemma drawFastVLine_keeps x y h color :
  keeps P (GFX.drawFastVLine startWrite endWrite v_writeLine x y h color).
Proof.
  unfold GFX.drawFastVLine.
  apply (keeps_bind startWrite), (keeps_bind (v_writeLine _ _ _ _ _)); auto.
Qed.

Lemma drawFastHLine_keeps x y w color :
  keeps P (GFX.drawFastHLine startWrite endWrite v_writeLine x y w color).
Proof.
  unfold GFX.drawFastHLine.
  apply (keeps_bind startWrite), (keeps_bind (v_writeLine _ _ _ _ _)); auto.
Qed.

Lemma fillRect_loop_keeps fuel i x y w h color :
  keeps P (GFX.fillRect_loop v_writeFastVLine fuel i x y w h color).
Proof.
  revert i. induction fuel as [|fuel IH]; intros i s s' H Hs; simpl in H;
    [discriminate|].
  destruct (i <? x + w); [|by simplify_eq].
  destruct (v_writeFastVLine i y h color s) as [s1|] eqn:E; [|discriminate].
  simpl in H. eapply IH; [exact H|]. eapply writeFastVLine_keeps; eauto.
Qed.

Lemma fillRect_keeps fuel x y w h color :
  keeps P (GFX.fillRect startWrite endWrite v_writeFastVLine fuel x y w h
           color).
Proof.
  unfold GFX.fillRect.
  apply (keeps_bind startWrite); [auto|].
  apply (keeps_bind (GFX.fillRect_loop _ _ _ _ _ _ _ _)); [|auto].
  apply fillRect_loop_keeps.
Qed.

Lemma drawLine_keeps x0 y0 x1 y1 color :
  keeps P (GFX.drawLine startWrite endWrite v_writeLine v_drawFastVLine
           v_drawFastHLine x0 y0 x1 y1 color).
Proof.
  intros s s' H. unfold GFX.drawLine in H.
  destruct (x0 =? x1).
  { destruct (y0 >? y1); eapply drawFastVLine_keeps'; exact H. }
  destruct (y0 =? y1).
  { destruct (x0 >? x1); eapply drawFastHLine_keeps'; exact H. }
  revert s s' H.
  apply (keeps_bind startWrite), (keeps_bind (v_writeLine _ _ _ _ _)); auto.
Qed.

Lemma scanlines_keeps fuel y ylast xa dxa dya x0 dx02 dy02 sa sb color s r :
  GFX.scanlines v_writeFastHLine fuel y ylast xa dxa dya x0 dx02 dy02 sa sb
    color s = Some r →
  P s → P r.1.
Proof.
  revert y sa sb s.
  induction fuel as [|fuel IH]; intros y sa sb s H Hs; simpl in H;
    [discriminate|].
  destruct (y <=? ylast); [|by simplify_eq].
  destruct ((dya =? 0) || (dy02 =? 0)); [discriminate|].
  destruct (wrap16 (xa + sa ÷ dya) >? wrap16 (x0 + sb ÷ dy02));
    (destruct (v_writeFastHLine _ _ _ _ s) as [s1|] eqn:E; [|discriminate];
     simpl in H; eapply IH; [exact H|]; eapply writeFastHLine_keeps; eauto).
Qed.

Lemma fillTriangle_keeps fuel x0 y0 x1 y1 x2 y2 color :
  keeps P (GFX.fillTriangle startWrite endWrite v_writeFastHLine fuel
           x0 y0 x1 y1 x2 y2 color).
Proof.
  intros s s' H Hs. unfold GFX.fillTriangle in H.
  repeat match type of H with
         | context [if ?b then (_, _, _, _) else _] => destruct b
         end.
  all: destruct (startWrite s) as [s1|] eqn:E1; [|discriminate].
  all: simpl in H; assert (P s1) by (eapply startWrite_keeps; eauto).
  all: match type of H with
       | (if ?b then _ else _) = _ => destruct b
       end.
  all: repeat match type of H with
              | context [if ?b then (_, _) else _] => destruct b
              end.
  all: try (match type of H with
            | (v_writeFastHLine ?a ?b ?c ?d ?s ≫= _) = _ =>
                destruct (v_writeFastHLine a b c d s) as [s2|] eqn:E2;
                [|discriminate]
            end;
            simpl in H; (eapply endWrite_keeps; [exact H|]);
            eapply writeFastHLine_keeps; eauto; fail).
  all: match type of H with
       | (?sc ≫= _) = _ => destruct sc as [[s2 y]|] eqn:E2; [|discriminate]
       end.
  all: simpl in H; apply scanlines_keeps in E2; [|assumption]; simpl in E2.
  all: match type of H with
       | (?sc ≫= _) = _ => destruct sc as [[s3 y']|] eqn:E3; [|discriminate]
       end.
  all: simpl in H; apply scanlines_keeps in E3; [|assumption]; simpl in E3.
  all: eapply endWrite_keeps; eauto.
Qed.

End Preservation.

(** ** The canvases keep the geometry *)

Lemma drawPixel_gfx d x y color c c' :
  Offscreen.drawPixel d x y color c = Some c' → gfx c' = gfx c.
Proof.
  destruct d; simpl;
    unfold Canvas1.drawPixel, Canvas8.drawPixel, Canvas16.drawPixel;
    destruct (buffer c); try (intros; simplify_eq; reflexivity);
    destruct (off_canvas _ _ _); try (intros; simplify_eq; reflexivity);
    destruct (rotate_xy _ _ _); intros H; simplify_option_eq; reflexivity.
Qed.

Lemma fillScreen_gfx d color c c' :
  Offscreen.fillScreen d color c = Some c' → gfx c' = gfx c.
Proof.
  destruct d; simpl;
    unfold Canvas1.fillScreen, Canvas8.fillScreen, Canvas16.fillScreen;
    destruct (buffer c); try (intros; simplify_eq; reflexivity);
    intros H; simplify_option_eq; try reflexivity.
  repeat case_match; simplify_option_eq; reflexivity.
Qed.

Lemma writeFastHLine8_gfx x y w color c c' :
  Canvas8.writeFastHLine x y w color c = Some c' → gfx c' = gfx c.
Proof.
  unfold Canvas8.writeFastHLine. intros H.
  repeat case_match; simplify_option_eq; reflexivity.
Qed.

Lemma keeps_of_gfx g (f : canvas → option canvas) :
  (∀ c c', f c = Some c' → gfx c' = gfx c) → keeps (same_gfx g) f.
Proof. intros Hf c c' H Hc. unfold same_gfx. rewrite (Hf _ _ H). exact Hc. Qed.

Lemma startWrite_same g : keeps (same_gfx g) Offscreen.startWrite.
Proof. apply keeps_of_gfx. intros c c' [= ->]. reflexivity. Qed.

Lemma endWrite_same g : keeps (same_gfx g) Offscreen.endWrite.
Proof. apply keeps_of_gfx. intros c c' [= ->]. reflexivity. Qed.

Lemma writePixel_same g d x y color :
  keeps (same_gfx g) (Offscreen.writePixel d x y color).
Proof. apply keeps_of_gfx. apply drawPixel_gfx. Qed.

Lemma writeLine_same g d fuel x0 y0 x1 y1 color :
  keeps (same_gfx g) (Offscreen.writeLine d fuel x0 y0 x1 y1 color).
Proof. apply writeLine_keeps. apply writePixel_same. Qed.

Lemma drawFastVLine_same g d fuel x y h color :
  keeps (same_gfx g) (Offscreen.drawFastVLine d fuel x y h color).
Proof.
  apply drawFastVLine_keeps;
    auto using startWrite_same, endWrite_same, writeLine_same.
Qed.

Lemma drawFastHLine_same g d fuel x y w color :
  keeps (same_gfx g) (Offscreen.drawFastHLine d fuel x y w color).
Proof.
  apply drawFastHLine_keeps;
    auto using startWrite_same, endWrite_same, writeLine_same.
Qed.

Lemma writeFastHLine_same g d fuel x y w color :
  keeps (same_gfx g) (Offscreen.writeFastHLine d fuel x y w color).
Proof.
  destruct d; simpl; try apply drawFastHLine_same.
  apply keeps_of_gfx, writeFastHLine8_gfx.
Qed.

Lemma step_same g d fuel o :
  (∀ r, o ≠ Offscreen.SetRotation r) →
  keeps (same_gfx g) (Offscreen.step d fuel o).
Proof.
  intros Ho. destruct o; simpl.
  - exfalso. eapply Ho. reflexivity.
  - apply writePixel_same.
  - apply keeps_of_gfx, fillScreen_gfx.
  - apply writeFastHLine_same.
  - apply drawFastHLine_same.
  - apply drawFastVLine_same.
  - apply fillRect_keeps;
      auto using startWrite_same, endWrite_same, drawFastVLine_same.
  - apply drawLine_keeps;
      auto using startWrite_same, endWrite_same, writeLine_same,
        drawFastVLine_same, drawFastHLine_same.
  - apply fillTriangle_keeps;
      auto using startWrite_same, endWrite_same, writeFastHLine_same.
Qed.

Lemma step_geometry W H d fuel o c c' acc :
  geometry_ok W H (gfx c) → rotation (gfx c) = acc mod 4 →
  Offscreen.step d fuel o c = Some c' →
  geometry_ok W H (gfx c')
  ∧ rotation (gfx c') = Offscreen.last_rotation acc [o] mod 4.
Proof.
  intros Hg Hr Hstep.
  assert (Hsame : (∀ r, o ≠ Offscreen.SetRotation r) → gfx c' = gfx c).
  { intros Hne.
    eapply (step_same (gfx c) d fuel o); [exact Hne|exact Hstep|reflexivity]. }
  destruct o; try (rewrite Hsame by discriminate; split; [exact Hg|exact Hr]).
  simpl in Hstep. injection Hstep as <-. simpl. split.
  - apply setRotation_ok, Hg.
  - rewrite setRotation_rotation. apply u8_mod4.
Qed.

Lemma run_geometry W H d fuel ops : ∀ c c' acc,
  geometry_ok W H (gfx c) → rotation (gfx c) = acc mod 4 →
  Offscreen.run d fuel ops c = Some c' →
  geometry_ok W H (gfx c')
  ∧ rotation (gfx c') = Offscreen.last_rotation acc ops mod 4.
Proof.
  induction ops as [|o ops IH]; intros c c' acc Hg Hr Hrun; simpl in Hrun.
  - injection Hrun as <-. split; assumption.
  - destruct (Offscreen.step d fuel o c) as [c1|] eqn:E; [|discriminate].
    simpl in Hrun.
    destruct (step_geometry W H d fuel o c c1 acc Hg Hr E) as [Hg1 Hr1].
    destruct o; simpl in Hr1 |- *; eapply IH; eauto.
Qed.

Lemma new_geometry d w h alloc :
  gfx (Offscreen.new d w h alloc) = new_GFX w h.
Proof. destruct d; reflexivity. Qed.

Lemma setRotation_calls_return d fuel ops : ∀ c,
  Forall is_setRotation ops → is_Some (Offscreen.run d fuel ops c).
Proof.
  induction ops as [|o ops IH]; intros c Hall; simpl; [eauto|].
  inversion Hall as [|? ? Ho Hops]; subst.
  destruct o; simpl in Ho; try contradiction. simpl. apply IH, Hops.
Qed.

(** C4.  A canvas constructed with dimensions [(w, h)] has raw dimensions
    [(W, H) = (wrap16 w, wrap16 h)] (the constructor's [int16_t]
    conversion; [(w, h)] itself up to 32767).  After any history of public
    operations, [rotation] is the argument of the last [setRotation] call
    modulo 4 (0 when there was none), [WIDTH] and [HEIGHT] are unchanged,
    and [(_width, _height)] is [(W, H)] when [rotation] is even and
    [(H, W)] when it is odd; calls to [setRotation] always return. *)
Theorem rotation_invariant d w h alloc fuel ops :
  let c0 := Offscreen.new d w h alloc in
  let W := wrap16 w in
  let H := wrap16 h in
  (Forall is_setRotation ops → is_Some (Offscreen.run d fuel ops c0))
  ∧ ∀ c', Offscreen.run d fuel ops c0 = Some c' →
      rotation (gfx c') = Offscreen.last_rotation 0 ops mod 4
      ∧ WIDTH (gfx c') = W ∧ HEIGHT (gfx c') = H
      ∧ (_width (gfx c'), _height (gfx c'))
        = if Z.even (rotation (gfx c')) then (W, H) else (H, W).
Proof.
  intros c0 W H. split; [apply setRotation_calls_return|].
  intros c' Hrun.
  destruct (run_geometry W H d fuel ops c0 c' 0) as [(HW & HH & _ & Hd) Hr];
    try exact Hrun.
  - unfold c0. rewrite new_geometry. apply new_GFX_ok.
  - unfold c0. rewrite new_geometry. reflexivity.
  - auto.
Qed.

Lemma rotation_invariant_witness :
  ∃ c', Offscreen.run Bpp8 8
          [Offscreen.SetRotation 1; Offscreen.DrawLine 0 0 1 2 5;
           Offscreen.SetRotation 7] (Offscreen.new Bpp8 3 2 true) = Some c'
        ∧ rotation (gfx c') = 3
        ∧ (_width (gfx c'), _height (gfx c')) = (2, 3).
Proof.
  destruct (Offscreen.run Bpp8 8
              [Offscreen.SetRotation 1; Offscreen.DrawLine 0 0 1 2 5;
               Offscreen.SetRotation 7] (Offscreen.new Bpp8 3 2 true))
    as [c'|] eqn:E; [|vm_compute in E; discriminate].
  exists c'. split; [reflexivity|].
  destruct (proj2 (rotation_invariant Bpp8 3 2 true 8
              [Offscreen.SetRotation 1; Offscreen.DrawLine 0 0 1 2 5;
               Offscreen.SetRotation 7]) c' E)
    as (Hr & _ & _ & Hd).
  split; [exact Hr|]. rewrite Hd, Hr. reflexivity.
Defined.

(** ** No-op on bad input or absent buffer *)

(** C9.  On each of the three canvases, [drawPixel] called with logical
    coordinates outside [0, _width) x [0, _height), or on a canvas whose
    buffer is the null pointer, returns normally (no fault) and leaves the
    canvas, buffer included, exactly as it was. *)
Theorem drawPixel_noop d x y color c :
  buffer c = None
  ∨ ¬ (0 <= x < _width (gfx c) ∧ 0 <= y < _height (gfx c)) →
  Offscreen.drawPixel d x y color c = Some c.
Proof.
  intros Hbad.
  destruct d; simpl;
    unfold Canvas1.drawPixel, Canvas8.drawPixel, Canvas16.drawPixel;
    destruct (buffer c) as [buf|] eqn:Eb; try reflexivity;
    (destruct Hbad as [Hnull|Hout]; [discriminate|]);
    (assert (off_canvas (gfx c) x y = true) as ->; [|reflexivity]);
    unfold off_canvas;
    destruct (x <? 0) eqn:E1, (y <? 0) eqn:E2, (x >=? _width (gfx c)) eqn:E3,
      (y >=? _height (gfx c)) eqn:E4; try reflexivity; exfalso; apply Hout;
    zbool; lia.
Qed.

Lemma drawPixel_noop_witness :
  Offscreen.drawPixel Bpp1 8 3 1 (Offscreen.new Bpp1 8 8 true)
  = Some (Offscreen.new Bpp1 8 8 true)
  ∧ Offscreen.drawPixel Bpp16 2 3 1 (Offscreen.new Bpp16 8 8 false)
    = Some (Offscreen.new Bpp16 8 8 false).
Proof.
  split.
  - apply (drawPixel_noop Bpp1 8 3 1 (Offscreen.new Bpp1 8 8 true)).
    right. change (¬ (0 <= 8 < 8 ∧ 0 <= 3 < 8)). lia.
  - apply (drawPixel_noop Bpp16 2 3 1 (Offscreen.new Bpp16 8 8 false)).
    left. reflexivity.
Defined.

(** ** Color packing, the claim *)

(** C10.  For 8-bit channel values, [color565 red green blue] is
    [(red / 8) * 2^11 + (green / 4) * 2^5 + blue / 8] with truncating
    division; it is a 16-bit value whose three fields are the top 5, 6 and
    5 bits of the channels.  The function reads and writes no state: it is
    a function of its three arguments alone. *)
Theorem color565_packing red green blue :
  is_u8 red → is_u8 green → is_u8 blue →
  let c := color565 red green blue in
  c = (red ÷ 8) * 2 ^ 11 + (green ÷ 4) * 2 ^ 5 + blue ÷ 8
  ∧ is_u16 c
  ∧ Z.shiftr c 11 = Z.shiftr red 3
  ∧ Z.land (Z.shiftr c 5) 0x3F = Z.shiftr green 2
  ∧ Z.land c 0x1F = Z.shiftr blue 3.
Proof.
  intros Hr Hg Hb c.
  assert (Ha : 0 <= red ÷ 8 < 32) by (unfold is_u8 in Hr; elia).
  assert (Hm : 0 <= green ÷ 4 < 64) by (unfold is_u8 in Hg; elia).
  assert (Hc : 0 <= blue ÷ 8 < 32) by (unfold is_u8 in Hb; elia).
  assert (Hq : blue / 8 = blue ÷ 8) by (unfold is_u8 in Hb; elia).
  assert (Ec : c = (red ÷ 8) * 2048 + (green ÷ 4) * 32 + blue ÷ 8).
  { unfold c, color565.
    rewrite red_field, green_field, blue_field, Hq by assumption.
    rewrite lor_fields by assumption. apply u16_id. unfold is_u16. lia. }
  destruct (fields_back _ _ _ Ha Hm Hc) as (F1 & F2 & F3).
  change (2 ^ 11) with 2048. change (2 ^ 5) with 32.
  rewrite Ec. repeat split; try lia.
  - rewrite F1, (Z.shiftr_div_pow2 red 3) by lia. unfold is_u8 in Hr. elia.
  - rewrite F2, (Z.shiftr_div_pow2 green 2) by lia. unfold is_u8 in Hg. elia.
  - rewrite F3, blue_field. symmetry. exact Hq.
Qed.

Lemma color565_packing_witness :
  color565 255 128 7 = 31 * 2 ^ 11 + 32 * 2 ^ 5 + 0.
Proof.
  destruct (color565_packing 255 128 7) as [H _];
    [unfold is_u8; lia | unfold is_u8; lia | unfold is_u8; lia |].
  exact H.
Defined.

(** ** Rotation round trip *)

Lemma poke_peek buf i v :
  0 <= i < Z.of_nat (length buf) →
  ∃ buf', poke buf i v = Some buf' ∧ peek buf' i = Some v.
Proof.
  intros Hi. exists (<[Z.to_nat i := v]> buf). unfold poke, peek.
  destruct (0 <=? i) eqn:E1; [|zbool; lia].
  destruct (i <? Z.of_nat (length buf)) eqn:E2; [|zbool; lia].
  split; [reflexivity|]. apply list_lookup_insert_eq. lia.
Qed.

Lemma peek_replicate n v i :
  0 <= i < Z.of_nat n → peek (replicate n v) i = Some v.
Proof.
  intros Hi. unfold peek. destruct (0 <=? i) eqn:E; [|zbool; lia].
  apply lookup_replicate_2. lia.
Qed.

(** A freshly constructed canvas whose raw dimensions fit [int16_t], turned
    to rotation 0 or 2. *)
Lemma fresh_gfx d W H alloc r :
  0 <= W <= 32767 → 0 <= H <= 32767 → r = 0 ∨ r = 2 →
  gfx (Offscreen.setRotation r (Offscreen.new d W H alloc))
  = {| WIDTH := W; HEIGHT := H; _width := W; _height := H; rotation := r |}.
Proof.
  intros HW HH Hr. unfold Offscreen.setRotation. rewrite new_geometry.
  unfold new_GFX. rewrite !wrap16_id by (unfold in16; lia).
  destruct Hr as [-> | ->]; reflexivity.
Qed.

Lemma setRotation_0_fresh d W H alloc :
  Offscreen.setRotation 0 (Offscreen.new d W H alloc)
  = Offscreen.new d W H alloc.
Proof. destruct d; reflexivity. Qed.

(** Raw position of a logical position at rotation 0 or 2. *)
Lemma rotate_xy_02 W H r x y :
  0 <= x < W → 0 <= y < H → W <= 32767 → H <= 32767 → r = 0 ∨ r = 2 →
  rotate_xy {| WIDTH := W; HEIGHT := H; _width := W; _height := H;
               rotation := r |} x y
  = if r =? 0 then (x, y) else (W - 1 - x, H - 1 - y).
Proof.
  intros Hx Hy HW HH [-> | ->]; unfold rotate_xy; simpl; [reflexivity|].
  rewrite !wrap16_id by (unfold in16; lia). reflexivity.
Qed.

Lemma on_canvas W H r x y :
  0 <= x < W → 0 <= y < H →
  off_canvas {| WIDTH := W; HEIGHT := H; _width := W; _height := H;
                rotation := r |} x y = false.
Proof.
  intros Hx Hy. unfold off_canvas. simpl.
  destruct (x <? 0) eqn:E1, (y <? 0) eqn:E2, (x >=? W) eqn:E3,
    (y >=? H) eqn:E4; try reflexivity; zbool; lia.
Qed.

Lemma raw_position_02 W H r x y :
  0 <= x < W → 0 <= y < H → r = 0 ∨ r = 2 →
  let p := if r =? 0 then (x, y) else (W - 1 - x, H - 1 - y) in
  0 <= p.1 < W ∧ 0 <= p.2 < H.
Proof. intros Hx Hy [-> | ->]; simpl; lia. Qed.

(** Drawing on a fresh 8- or 16-bit canvas at rotation 0 or 2, then reading
    the raw buffer where the rotation sent the pixel. *)
Lemma draw_then_raw8 W H r x y color :
  0 <= W <= 32767 → 0 <= H <= 32767 → 0 <= x < W → 0 <= y < H →
  r = 0 ∨ r = 2 →
  let p := if r =? 0 then (x, y) else (W - 1 - x, H - 1 - y) in
  Canvas8.drawPixel x y color
    (Offscreen.setRotation r (Canvas8.new W H true))
  ≫= (λ c, Canvas8.raw c p.1 p.2) = Some (u8 color).
Proof.
  intros HW HH Hx Hy Hr p.
  pose proof (fresh_gfx Bpp8 W H true r HW HH Hr) as Eg.
  pose proof (raw_position_02 W H r x y Hx Hy Hr) as [Hp1 Hp2].
  fold p in Hp1, Hp2.
  unfold Canvas8.drawPixel. simpl in Eg |- *. rewrite Eg.
  rewrite on_canvas, rotate_xy_02 by (assumption || lia). fold p.
  destruct p as [rx ry]. simpl in Hp1, Hp2 |- *.
  destruct (poke_peek (replicate (Z.to_nat (W * H)) 0) (rx + ry * W)
              (u8 color)) as (buf' & -> & Hpeek).
  { rewrite length_replicate. nia. }
  simpl. unfold Canvas8.raw. simpl. exact Hpeek.
Qed.

Lemma draw_then_raw16 W H r x y color :
  0 <= W <= 32767 → 0 <= H <= 32767 → 0 <= x < W → 0 <= y < H →
  r = 0 ∨ r = 2 →
  let p := if r =? 0 then (x, y) else (W - 1 - x, H - 1 - y) in
  Canvas16.drawPixel x y color
    (Offscreen.setRotation r (Canvas16.new W H true))
  ≫= (λ c, Canvas16.raw c p.1 p.2) = Some (u16 color).
Proof.
  intros HW HH Hx Hy Hr p.
  pose proof (fresh_gfx Bpp16 W H true r HW HH Hr) as Eg.
  pose proof (raw_position_02 W H r x y Hx Hy Hr) as [Hp1 Hp2].
  fold p in Hp1, Hp2.
  unfold Canvas16.drawPixel. simpl in Eg |- *. rewrite Eg.
  rewrite on_canvas, rotate_xy_02 by (assumption || lia). fold p.
  destruct p as [rx ry]. simpl in Hp1, Hp2 |- *.
  destruct (poke_peek (replicate (Z.to_nat (W * H)) 0) (rx + ry * W)
              (u16 color)) as (buf' & -> & Hpeek).
  { rewrite length_replicate. nia. }
  simpl. unfold Canvas16.raw. simpl. exact Hpeek.
Qed.

(** The bit of a pixel, set or cleared in a zero byte and read back. *)
Lemma bit_write_read x color :
  let mask := Z.shiftr 0x80 (Z.land x 7) in
  let new := if color =? 0 then u8 (Z.land 0 (Z.lnot mask))
             else u8 (Z.lor 0 mask) in
  negb (Z.land new mask =? 0) = negb (color =? 0).
Proof.
  cbv zeta.
  change 7 with (Z.ones 3). rewrite Z.land_ones by lia.
  assert (Hk : 0 <= x mod 2 ^ 3 < 8) by (change (2 ^ 3) with 8; elia).
  destruct (color =? 0).
  - reflexivity.
  - apply (range_check
             (λ k, negb (Z.land (u8 (Z.lor 0 (Z.shiftr 0x80 k)))
                           (Z.shiftr 0x80 k) =? 0)) 8);
      [vm_compute; reflexivity | exact Hk].
Qed.

Lemma draw_then_raw1 W H r x y color :
  0 <= W <= 32767 → 0 <= H <= 32767 → 0 <= x < W → 0 <= y < H →
  r = 0 ∨ r = 2 →
  let p := if r =? 0 then (x, y) else (W - 1 - x, H - 1 - y) in
  Canvas1.drawPixel x y color
    (Offscreen.setRotation r (Canvas1.new W H true))
  ≫= (λ c, Canvas1.raw c p.1 p.2) = Some (negb (color =? 0)).
Proof.
  intros HW HH Hx Hy Hr p.
  pose proof (fresh_gfx Bpp1 W H true r HW HH Hr) as Eg.
  pose proof (raw_position_02 W H r x y Hx Hy Hr) as [Hp1 Hp2].
  fold p in Hp1, Hp2.
  unfold Canvas1.drawPixel. simpl in Eg |- *. rewrite Eg.
  rewrite on_canvas, rotate_xy_02 by (assumption || lia). fold p.
  destruct p as [rx ry]. simpl in Hp1, Hp2 |- *.
  set (ptr := rx ÷ 8 + ry * Canvas1.stride W).
  assert (Hptr : 0 <= ptr
                 < Z.of_nat (length (replicate
                                 (Z.to_nat (Canvas1.stride W * H)) 0))).
  { rewrite length_replicate. unfold ptr, Canvas1.stride.
    assert (0 <= rx ÷ 8 < (W + 7) ÷ 8) by elia.
    nia. }
  rewrite peek_replicate by (rewrite length_replicate in Hptr; exact Hptr).
  simpl.
  match goal with
  | |- context [poke ?b ptr ?v] =>
      destruct (poke_peek b ptr v Hptr) as (buf' & -> & Hpeek)
  end.
  simpl. unfold Canvas1.raw. simpl. fold ptr. rewrite Hpeek. simpl.
  f_equal. apply bit_write_read.
Qed.

(** C5.  On a freshly constructed canvas of raw dimensions [(W, H)], for
    every logical position [(x, y)] in bounds and every colour:
    [drawPixel(x, y, color)] at rotation 0 followed by a read of the raw
    buffer at [(x, y)] yields the same value as [drawPixel(x, y, color)] at
    rotation 2 on a fresh identical canvas followed by a read of the raw
    buffer at [(W-1-x, H-1-y)], for the 16-, 8- and 1-bit canvas alike;
    with an allocated buffer that value is the colour as the canvas stores
    it (16 bits, low 8 bits, or the bit "colour is not zero"). *)
Theorem rotation_round_trip W H alloc x y color :
  0 <= W <= 32767 → 0 <= H <= 32767 → 0 <= x < W → 0 <= y < H →
  let at2 d := Offscreen.setRotation 2 (Offscreen.new d W H alloc) in
  let v16 := Canvas16.drawPixel x y color (Canvas16.new W H alloc)
             ≫= (λ c, Canvas16.raw c x y) in
  let v8 := Canvas8.drawPixel x y color (Canvas8.new W H alloc)
            ≫= (λ c, Canvas8.raw c x y) in
  let v1 := Canvas1.drawPixel x y color (Canvas1.new W H alloc)
            ≫= (λ c, Canvas1.raw c x y) in
  v16 = Canvas16.drawPixel x y color (at2 Bpp16)
        ≫= (λ c, Canvas16.raw c (W - 1 - x) (H - 1 - y))
  ∧ v8 = Canvas8.drawPixel x y color (at2 Bpp8)
         ≫= (λ c, Canvas8.raw c (W - 1 - x) (H - 1 - y))
  ∧ v1 = Canvas1.drawPixel x y color (at2 Bpp1)
         ≫= (λ c, Canvas1.raw c (W - 1 - x) (H - 1 - y))
  ∧ (alloc = true →
     v16 = Some (u16 color) ∧ v8 = Some (u8 color)
     ∧ v1 = Some (negb (color =? 0))).
Proof.
  intros HW HH Hx Hy at2 v16 v8 v1.
  destruct alloc.
  - pose proof (draw_then_raw16 W H 0 x y color HW HH Hx Hy (or_introl eq_refl))
      as A0.
    pose proof (draw_then_raw16 W H 2 x y color HW HH Hx Hy (or_intror eq_refl))
      as A2.
    pose proof (draw_then_raw8 W H 0 x y color HW HH Hx Hy (or_introl eq_refl))
      as B0.
    pose proof (draw_then_raw8 W H 2 x y color HW HH Hx Hy (or_intror eq_refl))
      as B2.
    pose proof (draw_then_raw1 W H 0 x y color HW HH Hx Hy (or_introl eq_refl))
      as C0.
    pose proof (draw_then_raw1 W H 2 x y color HW HH Hx Hy (or_intror eq_refl))
      as C2.
    rewrite (setRotation_0_fresh Bpp16) in A0.
    rewrite (setRotation_0_fresh Bpp8) in B0.
    rewrite (setRotation_0_fresh Bpp1) in C0.
    simpl in A0, A2, B0, B2, C0, C2.
    unfold v16, v8, v1, at2. simpl.
    rewrite A0, A2, B0, B2, C0, C2.
    split; [reflexivity|]. split; [reflexivity|]. split; [reflexivity|].
    intros _. repeat split; reflexivity.
  - unfold v16, v8, v1, at2.
    split; [reflexivity|]. split; [reflexivity|]. split; [reflexivity|].
    discriminate.
Qed.

Lemma rotation_round_trip_witness :
  Canvas16.drawPixel 1 2 0xF800 (Canvas16.new 4 3 true)
    ≫= (λ c, Canvas16.raw c 1 2)
  = Canvas16.drawPixel 1 2 0xF800
      (Offscreen.setRotation 2 (Offscreen.new Bpp16 4 3 true))
    ≫= (λ c, Canvas16.raw c (4 - 1 - 1) (3 - 1 - 2)).
Proof.
  destruct (rotation_round_trip 4 3 true 1 2 0xF800) as [H _];
    [lia | lia | lia | lia |].
  exact H.
Defined.

(** ** Solid spans on the bus *)

Lemma fill_block_nat (buf : list Z) (n : nat) (c : Z) :
  (n ≤ length buf)%nat →
  fold_left (λ b i, <[i := c]> b) (seq 0 n) buf = replicate n c ++ drop n buf.
Proof.
  induction n as [|n IH]; intros Hn; [reflexivity|].
  rewrite seq_S, fold_left_app, IH by lia.
  rewrite replicate_S_end, <- app_assoc.
  cbn [fold_left Nat.add].
  rewrite insert_app_r_alt by (rewrite length_replicate; lia).
  rewrite length_replicate, Nat.sub_diag.
  destruct (lookup_lt_is_Some_2 buf n) as [x Hx]; [lia|].
  rewrite (drop_S _ _ _ Hx). reflexivity.
Qed.

Lemma fill_block_spec buf count c :
  0 <= count <= Z.of_nat (length buf) →
  SPITFT.fill_block buf count c
  = replicate (Z.to_nat count) c ++ drop (Z.to_nat count) buf.
Proof. intros H. unfold SPITFT.fill_block. apply fill_block_nat. lia. Qed.

Lemma bswap16_value w :
  is_u16 w → SPITFT.bswap16 w = (w mod 256) * 256 + w / 256.
Proof.
  unfold is_u16. intros Hw. unfold SPITFT.bswap16.
  change 0xff with (Z.ones 8). rewrite Z.land_ones by lia.
  rewrite Z.shiftr_div_pow2 by lia. change (2 ^ 8) with 256.
  rewrite lor_shifted by (change (2 ^ 8) with 256; elia).
  change (2 ^ 8) with 256. apply u16_id. unfold is_u16. elia.
Qed.

Lemma bswap16_involutive w : is_u16 w → SPITFT.bswap16 (SPITFT.bswap16 w) = w.
Proof.
  intros Hw. rewrite (bswap16_value w Hw).
  rewrite bswap16_value by (unfold is_u16 in *; elia).
  unfold is_u16 in Hw. elia.
Qed.

(** The values sent by a transfer of the first [k] words of a buffer that
    starts with at least [k] copies of the swapped colour. *)
Lemma wire16_block color (k m : nat) rest nbytes :
  is_u16 color → (k ≤ m)%nat → Z.to_nat (nbytes ÷ 2) = k →
  SPITFT.wire16
    (SPITFT.TransferBuf (replicate m (SPITFT.bswap16 color) ++ rest) nbytes)
  = replicate k color.
Proof.
  intros Hc Hk Hn. simpl. rewrite Hn.
  rewrite take_app_le by (rewrite length_replicate; lia).
  rewrite take_replicate, fmap_replicate, bswap16_involutive by assumption.
  f_equal. lia.
Qed.

Lemma flat_map_replicate {A B} (f : A → list B) (n k : nat) (e : A) (v : B) :
  f e = replicate k v → flat_map f (replicate n e) = replicate (n * k) v.
Proof.
  intros He. induction n as [|n IH]; [reflexivity|].
  simpl. rewrite He, IH, <- replicate_add. reflexivity.
Qed.

(** From 5 pixels on, [writeColor] takes the [default:] label. *)
Lemma writeColor_default color len d :
  5 <= len → SPITFT.writeColor color len d
             = SPITFT.writeColor_blocks color len d.
Proof.
  intros Hlen. unfold SPITFT.writeColor.
  destruct len as [|p|p]; try lia.
  destruct p as [[q|q|]|[q|[r|r|]|]|]; try reflexivity; lia.
Qed.

Lemma writeColor_blocks_wire color len d :
  is_u16 color → is_u32 len → length (SPITFT._spi_buffer d) = 32%nat → 5 <= len →
  flat_map SPITFT.wire16 (SPITFT.writeColor_blocks color len d).1
  = replicate (Z.to_nat len) color.
Proof.
  intros Hc Hl Hbuf H5. unfold SPITFT.writeColor_blocks. cbn [fst].
  fold (SPITFT.bswap16 color).
  unfold SPITFT.sizeof_spi_buffer, SPITFT.SPI_BLOCKSIZE in *.
  unfold is_u32 in Hl. change (32 * 2) with 64.
  set (n := len ÷ 32).
  assert (Hn : 0 <= n ∧ 0 <= len - n * 32 < 32) by (unfold n; elia).
  rewrite fill_block_spec by lia.
  rewrite flat_map_app. cbn [flat_map]. rewrite app_nil_r.
  set (count := Z.to_nat (Z.min 32 len)).
  rewrite (wire16_block color (Z.to_nat (len - n * 32)) count) by
    (try assumption; unfold count, u32; try lia; f_equal; elia).
  destruct (decide (n = 0)) as [En|En].
  - rewrite En. simpl. f_equal. lia.
  - rewrite (flat_map_replicate _ _ 32 _ color).
    + rewrite <- replicate_add. f_equal. lia.
    + apply wire16_block; [assumption|unfold count; lia|reflexivity].
Qed.

Lemma writeColor_wire color len d :
  is_u16 color → is_u32 len → length (SPITFT._spi_buffer d) = 32%nat →
  flat_map SPITFT.wire16 (SPITFT.writeColor color len d).1
  = replicate (Z.to_nat len) color.
Proof.
  intros Hc Hl Hbuf.
  assert (Hcase : len = 0 ∨ len = 1 ∨ len = 2 ∨ len = 3 ∨ len = 4 ∨ 5 <= len)
    by (unfold is_u32 in Hl; lia).
  destruct Hcase as [->|[->|[->|[->|[->|H5]]]]]; try reflexivity.
  rewrite writeColor_default by assumption.
  apply writeColor_blocks_wire; assumption.
Qed.

Lemma writeColor_block_bound color len d :
  is_u32 len →
  Forall (λ e, 0 <= SPITFT.block_pixels e <= SPITFT.SPI_BLOCKSIZE)
    (SPITFT.writeColor color len d).1.
Proof.
  intros Hl.
  assert (Hcase : len = 0 ∨ len = 1 ∨ len = 2 ∨ len = 3 ∨ len = 4 ∨ 5 <= len)
    by (unfold is_u32 in Hl; lia).
  destruct Hcase as [->|[->|[->|[->|[->|H5]]]]];
    try (simpl; repeat constructor; unfold SPITFT.SPI_BLOCKSIZE; simpl; lia).
  rewrite writeColor_default by assumption.
  unfold SPITFT.writeColor_blocks. simpl.
  unfold SPITFT.SPI_BLOCKSIZE, SPITFT.sizeof_spi_buffer, is_u32 in *.
  apply Forall_app. split.
  - apply Forall_replicate. simpl. split; [|reflexivity]. discriminate.
  - constructor; [|constructor]. simpl. unfold u32. elia.
Qed.

Lemma writeColor_state color len d :
  is_u32 len → length (SPITFT._spi_buffer d) = 32%nat →
  SPITFT.base (SPITFT.writeColor color len d).2 = SPITFT.base d
  ∧ length (SPITFT._spi_buffer (SPITFT.writeColor color len d).2) = 32%nat.
Proof.
  intros Hl Hbuf.
  assert (Hcase : len = 0 ∨ len = 1 ∨ len = 2 ∨ len = 3 ∨ len = 4 ∨ 5 <= len)
    by (unfold is_u32 in Hl; lia).
  destruct Hcase as [->|[->|[->|[->|[->|H5]]]]];
    try (simpl; split; [reflexivity|assumption]).
  rewrite writeColor_default by assumption.
  unfold SPITFT.writeColor_blocks. simpl. split; [reflexivity|].
  unfold SPITFT.SPI_BLOCKSIZE.
  rewrite fill_block_spec by lia.
  rewrite length_app, length_replicate, length_drop. lia.
Qed.

(** C8.  For every 16-bit colour and every count [len] of type
    [uint32_t], [writeColor(color, len)] puts exactly [len] 16-bit values
    on the bus, each one equal to [color] (none when [len = 0]); no bulk
    block transfer carries more than [SPI_BLOCKSIZE] = 32 pixels; the only
    memory it works in is the 32-word block buffer, whatever [len]. *)
Theorem writeColor_exact color len d :
  is_u16 color → is_u32 len → length (SPITFT._spi_buffer d) = 32%nat →
  let r := SPITFT.writeColor color len d in
  flat_map SPITFT.wire16 r.1 = replicate (Z.to_nat len) color
  ∧ Forall (λ e, 0 <= SPITFT.block_pixels e <= SPITFT.SPI_BLOCKSIZE) r.1
  ∧ SPITFT.SPI_BLOCKSIZE = 32
  ∧ length (SPITFT._spi_buffer r.2) = 32%nat
  ∧ SPITFT.base r.2 = SPITFT.base d.
Proof.
  intros Hc Hl Hbuf r.
  destruct (writeColor_state color len d Hl Hbuf) as [Hb Hlen].
  split; [apply writeColor_wire; assumption|].
  split; [apply writeColor_block_bound; assumption|].
  split; [reflexivity|]. split; assumption.
Qed.

Lemma writeColor_exact_witness :
  flat_map SPITFT.wire16
    (SPITFT.writeColor 0x07E0 70 (SPITFT.new 320 240 (replicate 32 0xAAAA))).1
  = replicate 70 0x07E0.
Proof.
  destruct (writeColor_exact 0x07E0 70
              (SPITFT.new 320 240 (replicate 32 0xAAAA))) as [H _];
    [unfold is_u16; lia | unfold is_u32; lia | reflexivity |].
  exact H.
Defined.

(** ** Rectangle clipping on the hardware sink *)

(** The normalisation of a negative extent, when it is representable. *)
Lemma normalise x w :
  in16 x → in16 w → w ≠ 0 → representable x w →
  (if w <? 0 then (wrap16 (x + w + 1), wrap16 (- w)) else (x, w))
  = (span_lo x w, span_hi x w - span_lo x w + 1).
Proof.
  unfold representable, span_lo, span_hi, in16. intros Hx Hw H0 [Hlo Hmin].
  destruct (w <? 0) eqn:E; zbool.
  - rewrite !wrap16_id by (unfold in16; lia). f_equal. lia.
  - f_equal. lia.
Qed.

Lemma span_ordered x w : w ≠ 0 → span_lo x w <= span_hi x w.
Proof. unfold span_lo, span_hi. intros. destruct (w <? 0) eqn:E; zbool; lia. Qed.

Lemma span_width x w :
  in16 w → w ≠ -32768 → span_hi x w - span_lo x w + 1 <= 32767.
Proof.
  unfold span_lo, span_hi, in16. intros.
  destruct (w <? 0) eqn:E; zbool; lia.
Qed.

Lemma preclipped_ext a b c e a' b' c' e' color d :
  a = a' → b = b' → c = c' → e = e' →
  (let '(t, d') := SPITFT.writeFillRectPreclipped a b c e color d in
   (SPITFT.startWrite ++ t ++ SPITFT.endWrite, d'))
  = (let '(t, d') := SPITFT.writeFillRectPreclipped a' b' c' e' color d in
     (SPITFT.startWrite ++ t ++ SPITFT.endWrite, d')).
Proof. intros -> -> -> ->. reflexivity. Qed.

Section FillRect.

Variables (d : SPITFT.display) (x y w h color : Z).

Let W := _width (SPITFT.base d).
Let H := _height (SPITFT.base d).

Hypothesis W_range : 0 < W <= 32767.
Hypothesis H_range : 0 < H <= 32767.
Hypothesis x_in16 : in16 x.
Hypothesis y_in16 : in16 y.
Hypothesis w_in16 : in16 w.
Hypothesis h_in16 : in16 h.
Hypothesis x_repr : representable x w.
Hypothesis y_repr : representable y h.

(** Rejection: an empty rectangle, or one that lies beyond an edge. *)
Lemma fillRect_rejects :
  w = 0 ∨ h = 0 ∨ W <= span_lo x w ∨ H <= span_lo y h
  ∨ span_hi x w < 0 ∨ span_hi y h < 0 →
  SPITFT.fillRect x y w h color d = ([], d).
Proof.
  intros Hout. unfold SPITFT.fillRect. fold W H.
  destruct (w =? 0) eqn:Ew; [reflexivity|].
  destruct (h =? 0) eqn:Eh; [reflexivity|]. zbool.
  cbn [negb andb].
  rewrite (normalise x w), (normalise y h) by assumption.
  cbv beta iota.
  destruct (span_lo x w <? W) eqn:E1; [|reflexivity].
  destruct (span_lo y h <? H) eqn:E2; [|reflexivity].
  replace (span_lo x w + (span_hi x w - span_lo x w + 1) - 1)
    with (span_hi x w) by lia.
  replace (span_lo y h + (span_hi y h - span_lo y h + 1) - 1)
    with (span_hi y h) by lia.
  destruct (span_hi x w >=? 0) eqn:E3; [|reflexivity].
  destruct (span_hi y h >=? 0) eqn:E4; [|reflexivity].
  zbool. lia.
Qed.

(** Otherwise the transaction is opened around one preclipped fill of
    the intersection. *)
Lemma fillRect_draws :
  w ≠ 0 → h ≠ 0 → span_lo x w < W → span_lo y h < H →
  0 <= span_hi x w → 0 <= span_hi y h →
  let ix := Z.max 0 (span_lo x w) in
  let iy := Z.max 0 (span_lo y h) in
  let iw := Z.min (W - 1) (span_hi x w) - ix + 1 in
  let ih := Z.min (H - 1) (span_hi y h) - iy + 1 in
  SPITFT.fillRect x y w h color d
  = (let '(t, d') := SPITFT.writeFillRectPreclipped ix iy iw ih color d in
     (SPITFT.startWrite ++ t ++ SPITFT.endWrite, d')).
Proof.
  intros Hw Hh Hx1 Hy1 Hx2 Hy2 ix iy iw ih.
  pose proof (span_ordered x w Hw) as Ox.
  pose proof (span_ordered y h Hh) as Oy.
  pose proof (span_width x w w_in16 (proj2 x_repr)) as Bx.
  pose proof (span_width y h h_in16 (proj2 y_repr)) as By.
  pose proof (proj1 x_repr) as Lx. pose proof (proj1 y_repr) as Ly.
  unfold in16 in Lx, Ly.
  unfold SPITFT.fillRect. fold W H.
  destruct (w =? 0) eqn:Ew; [zbool; lia|].
  destruct (h =? 0) eqn:Eh; [zbool; lia|].
  cbn [negb andb].
  rewrite (normalise x w), (normalise y h) by assumption.
  cbv beta iota.
  destruct (span_lo x w <? W) eqn:E1; [|zbool; lia].
  destruct (span_lo y h <? H) eqn:E2; [|zbool; lia].
  replace (span_lo x w + (span_hi x w - span_lo x w + 1) - 1)
    with (span_hi x w) by lia.
  replace (span_lo y h + (span_hi y h - span_lo y h + 1) - 1)
    with (span_hi y h) by lia.
  destruct (span_hi x w >=? 0) eqn:E3; [|zbool; lia].
  destruct (span_hi y h >=? 0) eqn:E4; [|zbool; lia].
  unfold ix, iy, iw, ih.
  destruct (span_lo x w <? 0) eqn:A, (span_lo y h <? 0) eqn:B,
    (span_hi x w >=? W) eqn:C, (span_hi y h >=? H) eqn:D;
    cbv beta iota; zbool;
    rewrite ?wrap16_id by (unfold in16; lia);
    apply preclipped_ext; lia.
Qed.

End FillRect.

(** ** What a bus trace paints *)

Lemma paint_values_app win k a b :
  SPITFT.paint_values win k (a ++ b)
  = SPITFT.paint_values win k a
    ++ SPITFT.paint_values win (k + Z.of_nat (length a)) b.
Proof.
  revert k. induction a as [|v a IH]; intros k; simpl.
  - f_equal. lia.
  - rewrite IH. do 3 f_equal. lia.
Qed.

Lemma paint_no_window win k t :
  Forall no_window t →
  SPITFT.paint win k t = SPITFT.paint_values win k (flat_map SPITFT.wire16 t).
Proof.
  intros Hall. revert k. induction Hall as [|e t He _ IH]; intros k;
    [reflexivity|].
  destruct e; try contradiction; cbn [SPITFT.paint flat_map];
    rewrite IH, paint_values_app; reflexivity.
Qed.

Lemma writeColor_no_window color len d :
  is_u32 len → Forall no_window (SPITFT.writeColor color len d).1.
Proof.
  intros Hl.
  assert (Hcase : len = 0 ∨ len = 1 ∨ len = 2 ∨ len = 3 ∨ len = 4 ∨ 5 <= len)
    by (unfold is_u32 in Hl; lia).
  destruct Hcase as [->|[->|[->|[->|[->|H5]]]]];
    try (simpl; repeat constructor).
  rewrite writeColor_default by assumption.
  unfold SPITFT.writeColor_blocks. cbn [fst].
  apply Forall_app. split; [apply Forall_replicate|]; repeat constructor.
Qed.

Lemma painted_transaction x y w h t :
  Forall no_window t →
  SPITFT.painted (SPITFT.startWrite
                    ++ SPITFT.SetAddrWindow x y w h :: t ++ SPITFT.endWrite)
  = SPITFT.paint_values (x, y, w, h) 0 (flat_map SPITFT.wire16 t).
Proof.
  intros Ht. unfold SPITFT.painted, SPITFT.startWrite.
  cbn [app SPITFT.paint SPITFT.wire16 SPITFT.paint_values length].
  rewrite paint_no_window.
  - rewrite flat_map_app. simpl. rewrite app_nil_r. reflexivity.
  - apply Forall_app. split; [exact Ht|]. repeat constructor.
Qed.

Lemma in_paint_values win k n c i j v :
  In (i, j, v) (SPITFT.paint_values win k (replicate n c))
  ↔ v = c ∧ ∃ m, k <= m < k + Z.of_nat n ∧ (i, j, v) = SPITFT.cell win m v.
Proof.
  revert k. induction n as [|n IH]; intros k.
  - simpl. split; [contradiction|]. intros (_ & m & Hm & _). lia.
  - cbn [replicate SPITFT.paint_values In]. rewrite IH. split.
    + intros [Hc | (-> & m & Hm & Hcell)].
      * assert (v = c) as ->.
        { destruct win as [[[? ?] ?] ?]. simpl in Hc. congruence. }
        split; [reflexivity|]. exists k. split; [lia|]. symmetry. exact Hc.
      * split; [reflexivity|]. exists m. split; [lia|]. exact Hcell.
    + intros (-> & m & Hm & Hcell).
      destruct (decide (m = k)) as [->|Hne].
      * left. symmetry. exact Hcell.
      * right. split; [reflexivity|]. exists m. split; [lia|]. exact Hcell.
Qed.

(** The [w * h] first cells of a window are the window. *)
Lemma window_cells x y w h i j :
  0 < w → 0 <= h →
  (∃ m, 0 <= m < w * h ∧ i = x + m mod w ∧ j = y + m / w)
  ↔ x <= i < x + w ∧ y <= j < y + h.
Proof.
  intros Hw Hh. split.
  - intros (m & Hm & -> & ->).
    assert (0 <= m mod w < w) by (apply Z.mod_pos_bound; lia).
    assert (0 <= m / w) by (apply Z.div_pos; lia).
    assert (m / w < h) by (apply Z.div_lt_upper_bound; lia).
    lia.
  - intros [Hi Hj]. exists ((j - y) * w + (i - x)).
    rewrite Z.add_comm, Z.mod_add, Z.div_add, Z.mod_small, Z.div_small by lia.
    split; [nia|lia].
Qed.

Lemma preclipped_paints ix iy iw ih color d :
  0 <= ix <= 32767 → 0 <= iy <= 32767 → 0 < iw <= 32767 → 0 < ih <= 32767 →
  is_u16 color → length (SPITFT._spi_buffer d) = 32%nat →
  SPITFT.painted
    (SPITFT.startWrite
       ++ (SPITFT.writeFillRectPreclipped ix iy iw ih color d).1
       ++ SPITFT.endWrite)
  = SPITFT.paint_values (ix, iy, iw, ih) 0
      (replicate (Z.to_nat (iw * ih)) color).
Proof.
  intros Hx Hy Hw Hh Hc Hbuf. unfold SPITFT.writeFillRectPreclipped.
  rewrite !u16_id by (unfold is_u16; lia).
  rewrite (u32_id iw), (u32_id ih), (u32_id (iw * ih))
    by (unfold is_u32; nia).
  destruct (SPITFT.writeColor color (iw * ih) d) as [t d'] eqn:E.
  cbn [fst].
  change ((SPITFT.SetAddrWindow ix iy iw ih :: t) ++ SPITFT.endWrite)
    with (SPITFT.SetAddrWindow ix iy iw ih :: t ++ SPITFT.endWrite).
  assert (Hl : is_u32 (iw * ih)) by (unfold is_u32; nia).
  pose proof (writeColor_no_window color (iw * ih) d Hl) as Hnw.
  pose proof (writeColor_wire color (iw * ih) d Hc Hl Hbuf) as Hwire.
  rewrite E in Hnw, Hwire. cbn [fst] in Hnw, Hwire.
  rewrite painted_transaction by exact Hnw. rewrite Hwire. reflexivity.
Qed.

(** The pixels painted by [Adafruit_SPITFT::fillRect] are the pixels of the
    requested rectangle that are on the screen, in the requested colour,
    whenever the normalised rectangle is representable. *)
Lemma fillRect_painted d x y w h color :
  let W := _width (SPITFT.base d) in
  let H := _height (SPITFT.base d) in
  0 < W <= 32767 → 0 < H <= 32767 →
  in16 x → in16 y → in16 w → in16 h → is_u16 color →
  length (SPITFT._spi_buffer d) = 32%nat →
  representable x w → representable y h →
  ∀ i j v,
    In (i, j, v) (SPITFT.painted (SPITFT.fillRect x y w h color d).1)
    ↔ v = color ∧ in_rect x y w h i j ∧ on_screen W H i j.
Proof.
  intros W H HW HH Hx Hy Hw Hh Hc Hbuf Rx Ry i j v.
  unfold in_rect, on_screen.
  destruct (decide (w = 0 ∨ h = 0 ∨ W <= span_lo x w ∨ H <= span_lo y h
                    ∨ span_hi x w < 0 ∨ span_hi y h < 0)) as [Hout|Hin].
  - rewrite (fillRect_rejects d x y w h color) by assumption.
    simpl. split; [contradiction|]. lia.
  - assert (Hw0 : w ≠ 0) by lia. assert (Hh0 : h ≠ 0) by lia.
    pose proof (span_ordered x w Hw0) as Ox.
    pose proof (span_ordered y h Hh0) as Oy.
    rewrite (fillRect_draws d x y w h color) by (assumption || fold W H; lia).
    fold W H.
    set (ix := Z.max 0 (span_lo x w)). set (iy := Z.max 0 (span_lo y h)).
    set (iw := Z.min (W - 1) (span_hi x w) - ix + 1).
    set (ih := Z.min (H - 1) (span_hi y h) - iy + 1).
    pose proof (preclipped_paints ix iy iw ih color d) as Hp.
    destruct (SPITFT.writeFillRectPreclipped ix iy iw ih color d) as [t d'].
    cbn [fst] in Hp |- *.
    rewrite Hp by (assumption || unfold ix, iy, iw, ih; lia).
    rewrite in_paint_values. unfold SPITFT.cell.
    assert (Hiw : 0 < iw) by (unfold iw, ix; lia).
    assert (Hih : 0 <= ih) by (unfold ih, iy; lia).
    pose proof (window_cells ix iy iw ih i j Hiw Hih) as Hcells.
    rewrite Z2Nat.id by nia.
    split.
    + intros (-> & m & Hm & [= Hi Hj]).
      split; [reflexivity|].
      assert (Hr : ix <= i < ix + iw ∧ iy <= j < iy + ih).
      { apply Hcells. exists m. split; [lia|]. split; assumption. }
      unfold ix, iy, iw, ih in Hr. lia.
    + intros (-> & (_ & _ & Hi & Hj) & Hsi & Hsj).
      split; [reflexivity|].
      destruct (proj2 Hcells) as (m & Hm & Hi' & Hj').
      { unfold ix, iy, iw, ih. lia. }
      exists m. split; [lia|]. rewrite Hi', Hj'. reflexivity.
Qed.

(** ** Line symmetry *)

Lemma writeLine_symmetric {sink : Type}
    (writePixel : Z → Z → Z → sink → option sink)
    fuel x0 y0 x1 y1 color s :
  GFX.writeLine writePixel fuel x0 y0 x1 y1 color s
  = GFX.writeLine writePixel fuel x1 y1 x0 y0 color s.
Proof.
  unfold GFX.writeLine.
  replace (Z.abs (y0 - y1)) with (Z.abs (y1 - y0)) by lia.
  replace (Z.abs (x0 - x1)) with (Z.abs (x1 - x0)) by lia.
  destruct (Z.abs (y1 - y0) >? Z.abs (x1 - x0)) eqn:Es.
  - destruct (y0 >? y1) eqn:E1, (y1 >? y0) eqn:E2; zbool; try reflexivity;
      lia.
  - destruct (x0 >? x1) eqn:E1, (x1 >? x0) eqn:E2; zbool; try reflexivity;
      try lia.
    assert (x0 = x1) as -> by lia. assert (y0 = y1) as -> by lia.
    reflexivity.
Qed.

Lemma drawLine_symmetric {sink : Type}
    (startWrite endWrite : sink → option sink)
    (writePixel : Z → Z → Z → sink → option sink)
    (drawFastVLine drawFastHLine : Z → Z → Z → Z → sink → option sink)
    fuel x0 y0 x1 y1 color s :
  GFX.drawLine startWrite endWrite (GFX.writeLine writePixel fuel)
    drawFastVLine drawFastHLine x0 y0 x1 y1 color s
  = GFX.drawLine startWrite endWrite (GFX.writeLine writePixel fuel)
      drawFastVLine drawFastHLine x1 y1 x0 y0 color s.
Proof.
  unfold GFX.drawLine.
  destruct (x0 =? x1) eqn:Ex.
  - zbool. subst x1. rewrite Z.eqb_refl.
    destruct (y0 >? y1) eqn:E1, (y1 >? y0) eqn:E2; zbool; try reflexivity;
      try lia.
    assert (y0 = y1) as -> by lia. reflexivity.
  - rewrite (Z.eqb_sym x1 x0), Ex.
    destruct (y0 =? y1) eqn:Ey.
    + zbool. subst y1. rewrite Z.eqb_refl.
      destruct (x0 >? x1) eqn:E1, (x1 >? x0) eqn:E2; zbool; try reflexivity;
        lia.
    + rewrite (Z.eqb_sym y1 y0), Ey.
      destruct (startWrite s) as [s1|]; [|reflexivity]. simpl.
      rewrite writeLine_symmetric. reflexivity.
Qed.

(** ** Termination of the Bresenham loop *)

Lemma wrap16_nested a b : wrap16 (a + wrap16 b - 1) = wrap16 (a + b - 1).
Proof. unfold wrap16. elia. Qed.

Section Returns.

Context {sink : Type}.
Variable writePixel : Z → Z → Z → sink → option sink.
Hypothesis writePixel_returns : ∀ x y c s, is_Some (writePixel x y c s).

(** The loop counter reaches [x1 + 1] without wrapping when [x1] is not
    the largest [int16_t]. *)
Lemma writeLine_loop_returns fuel :
  ∀ steep x0 x1 y0 err dx dy ystep color s,
    in16 x0 → x1 < 32767 → Z.max 0 (x1 - x0 + 1) < Z.of_nat fuel →
    is_Some (GFX.writeLine_loop writePixel fuel steep x0 x1 y0 err dx dy
               ystep color s).
Proof.
  induction fuel as [|fuel IH];
    intros steep x0 x1 y0 err dx dy ystep color s Hx0 Hx1 Hfuel;
    [lia|].
  cbn [GFX.writeLine_loop].
  destruct (x0 <=? x1) eqn:E; [|eauto]. zbool.
  destruct (if steep then writePixel y0 x0 color s
            else writePixel x0 y0 color s) as [s1|] eqn:Ep.
  - simpl. unfold in16 in Hx0.
    rewrite (wrap16_id (x0 + 1)) by (unfold in16; lia).
    destruct (wrap16 (err - dy) <? 0); apply IH; unfold in16; lia.
  - destruct steep;
      [destruct (writePixel_returns y0 x0 color s) as [? Hs]
      |destruct (writePixel_returns x0 y0 color s) as [? Hs]];
      congruence.
Qed.

Lemma writeLine_returns fuel x0 y0 x1 y1 color s :
  in16 x0 → in16 y0 → in16 x1 → in16 y1 →
  x0 < 32767 → y0 < 32767 → x1 < 32767 → y1 < 32767 →
  65536 < Z.of_nat fuel →
  is_Some (GFX.writeLine writePixel fuel x0 y0 x1 y1 color s).
Proof.
  unfold in16. intros. unfold GFX.writeLine.
  destruct (Z.abs (y1 - y0) >? Z.abs (x1 - x0));
    [destruct (y0 >? y1) | destruct (x0 >? x1)];
    apply writeLine_loop_returns; unfold in16; lia.
Qed.

End Returns.

Lemma call_returns e t : is_Some (Inherited.call e t).
Proof. unfold Inherited.call. eauto. Qed.

Lemma inherited_drawFastVLine_returns fuel x y0 y1 color t :
  in16 x → in16 y0 → in16 y1 → x < 32767 → y0 < 32767 → y1 < 32767 →
  65536 < Z.of_nat fuel →
  is_Some (Inherited.drawFastVLine fuel x y0 (wrap16 (y1 - y0 + 1)) color t).
Proof.
  intros. unfold Inherited.drawFastVLine, GFX.drawFastVLine. simpl.
  rewrite wrap16_nested.
  replace (y0 + (y1 - y0 + 1) - 1) with y1 by lia.
  rewrite (wrap16_id y1) by assumption.
  destruct (writeLine_returns Inherited.writePixel
              (λ x y c s, call_returns _ s) fuel x y0 x y1 color
              (t ++ [Inherited.StartWrite])) as [t' Ht]; try assumption.
  unfold Inherited.writeLine. rewrite Ht. simpl. apply call_returns.
Qed.

Lemma inherited_drawFastHLine_returns fuel x0 x1 y color t :
  in16 y → in16 x0 → in16 x1 → y < 32767 → x0 < 32767 → x1 < 32767 →
  65536 < Z.of_nat fuel →
  is_Some (Inherited.drawFastHLine fuel x0 y (wrap16 (x1 - x0 + 1)) color t).
Proof.
  intros. unfold Inherited.drawFastHLine, GFX.drawFastHLine. simpl.
  rewrite wrap16_nested.
  replace (x0 + (x1 - x0 + 1) - 1) with x1 by lia.
  rewrite (wrap16_id x1) by assumption.
  destruct (writeLine_returns Inherited.writePixel
              (λ x y c s, call_returns _ s) fuel x0 y x1 y color
              (t ++ [Inherited.StartWrite])) as [t' Ht]; try assumption.
  unfold Inherited.writeLine. rewrite Ht. simpl. apply call_returns.
Qed.

Lemma inherited_drawLine_returns fuel x0 y0 x1 y1 color t :
  in16 x0 → in16 y0 → in16 x1 → in16 y1 →
  x0 < 32767 → y0 < 32767 → x1 < 32767 → y1 < 32767 →
  65536 < Z.of_nat fuel →
  is_Some (Inherited.drawLine fuel x0 y0 x1 y1 color t).
Proof.
  intros. unfold Inherited.drawLine, GFX.drawLine.
  destruct (x0 =? x1).
  { destruct (y0 >? y1); apply inherited_drawFastVLine_returns; assumption. }
  destruct (y0 =? y1).
  { destruct (x0 >? x1); apply inherited_drawFastHLine_returns; assumption. }
  simpl.
  destruct (writeLine_returns Inherited.writePixel
              (λ x y c s, call_returns _ s) fuel x0 y0 x1 y1 color
              (t ++ [Inherited.StartWrite])) as [t' Ht]; try assumption.
  unfold Inherited.writeLine. rewrite Ht. simpl. apply call_returns.
Qed.

(** C6.  [drawLine(x0, y0, x1, y1, color)] and
    [drawLine(x1, y1, x0, y0, color)] make the same calls in the same
    order, on any sink and for any amount of fuel (so also when a run does
    not return); in particular they hand the same pixel coordinates to
    [drawPixel].  Both calls return as soon as no coordinate is 32767. *)
Theorem drawLine_endpoint_symmetry fuel x0 y0 x1 y1 color :
  (∀ (sink : Type) (startWrite endWrite : sink → option sink)
     (writePixel : Z → Z → Z → sink → option sink)
     (drawFastVLine drawFastHLine : Z → Z → Z → Z → sink → option sink)
     (s : sink),
     GFX.drawLine startWrite endWrite (GFX.writeLine writePixel fuel)
       drawFastVLine drawFastHLine x0 y0 x1 y1 color s
     = GFX.drawLine startWrite endWrite (GFX.writeLine writePixel fuel)
         drawFastVLine drawFastHLine x1 y1 x0 y0 color s)
  ∧ Inherited.drawLine fuel x0 y0 x1 y1 color []
    = Inherited.drawLine fuel x1 y1 x0 y0 color []
  ∧ Inherited.pixels <$> Inherited.drawLine fuel x0 y0 x1 y1 color []
    = Inherited.pixels <$> Inherited.drawLine fuel x1 y1 x0 y0 color []
  ∧ (in16 x0 → in16 y0 → in16 x1 → in16 y1 →
     x0 < 32767 → y0 < 32767 → x1 < 32767 → y1 < 32767 →
     65536 < Z.of_nat fuel →
     is_Some (Inherited.drawLine fuel x0 y0 x1 y1 color [])).
Proof.
  split; [intros; apply drawLine_symmetric|].
  assert (Hsym : Inherited.drawLine fuel x0 y0 x1 y1 color []
                 = Inherited.drawLine fuel x1 y1 x0 y0 color []).
  { unfold Inherited.drawLine, Inherited.writeLine.
    apply drawLine_symmetric. }
  split; [exact Hsym|]. split; [rewrite Hsym; reflexivity|].
  apply inherited_drawLine_returns.
Qed.

Lemma drawLine_endpoint_symmetry_witness :
  Inherited.pixels <$> Inherited.drawLine 8 0 0 3 1 9 []
  = Some [(0, 0); (1, 0); (2, 1); (3, 1)]
  ∧ Inherited.pixels <$> Inherited.drawLine 8 3 1 0 0 9 []
    = Some [(0, 0); (1, 0); (2, 1); (3, 1)]
  ∧ is_Some (Inherited.drawLine (Z.to_nat 65537) 0 0 3 1 9 []).
Proof.
  destruct (drawLine_endpoint_symmetry 8 0 0 3 1 9) as (_ & _ & H & _).
  destruct (drawLine_endpoint_symmetry (Z.to_nat 65537) 0 0 3 1 9)
    as (_ & _ & _ & R).
  split; [reflexivity|]. split; [rewrite <- H; reflexivity|].
  apply R; unfold in16; lia.
Defined.

(** ** The degenerate triangle *)

(** The span bounds computed by the all-on-same-line case of
    [fillTriangle] are the least and the largest of the three columns. *)
Lemma flat_bounds x0 x1 x2 :
  (let '(a, b) :=
     if x1 <? x0 then (x1, x0) else if x1 >? x0 then (x0, x1) else (x0, x0) in
   if x2 <? a then (x2, b) else if x2 >? b then (a, x2) else (a, b))
  = (Z.min x0 (Z.min x1 x2), Z.max x0 (Z.max x1 x2)).
Proof.
  destruct (x1 <? x0) eqn:E1; [|destruct (x1 >? x0) eqn:E2];
    cbv beta iota;
    match goal with
    | |- (if ?c then _ else _) = _ => destruct c eqn:E3
    end;
    try match goal with
        | |- (if ?c then _ else _) = _ => destruct c eqn:E4
        end;
    zbool; f_equal; lia.
Qed.

Lemma fillTriangle_flat {sink : Type}
    (startWrite endWrite : sink → option sink)
    (writeFastHLine : Z → Z → Z → Z → sink → option sink)
    fuel x0 x1 x2 y color s :
  GFX.fillTriangle startWrite endWrite writeFastHLine fuel
    x0 y x1 y x2 y color s
  = (s ← startWrite s;
     s ← writeFastHLine (Z.min x0 (Z.min x1 x2)) y
           (wrap16 (Z.max x0 (Z.max x1 x2) - Z.min x0 (Z.min x1 x2) + 1))
           color s;
     endWrite s).
Proof.
  unfold GFX.fillTriangle.
  assert (Hgt : (y >? y) = false) by (rewrite Z.gtb_ltb; apply Z.ltb_irrefl).
  repeat (rewrite Hgt; cbv beta iota). rewrite Z.eqb_refl.
  destruct (startWrite s) as [s1|]; [|reflexivity]. simpl.
  pose proof (flat_bounds x0 x1 x2) as Hb.
  destruct (if x1 <? x0 then (x1, x0)
            else if x1 >? x0 then (x0, x1) else (x0, x0)) as [a b].
  destruct (if x2 <? a then (x2, b)
            else if x2 >? b then (a, x2) else (a, b)) as [a' b'].
  injection Hb as -> ->. reflexivity.
Qed.

(** A horizontal run of the Bresenham loop: [dy = 0] and a non-negative
    error term, so the row never changes. *)
Lemma hline_loop fuel : ∀ x0 x1 y err dx ystep color t,
  in16 x0 → x1 < 32767 → 0 <= err <= 32767 →
  Z.max 0 (x1 - x0 + 1) < Z.of_nat fuel →
  GFX.writeLine_loop Inherited.writePixel fuel false x0 x1 y err dx 0 ystep
    color t
  = Some (t ++ ((λ i, Inherited.DrawPixel i y color)
                  <$> seqZ x0 (x1 - x0 + 1))).
Proof.
  induction fuel as [|fuel IH]; intros x0 x1 y err dx ystep color t
    Hx0 Hx1 Herr Hfuel; [lia|].
  cbn [GFX.writeLine_loop].
  destruct (x0 <=? x1) eqn:E; zbool.
  - unfold Inherited.writePixel at 1, Inherited.drawPixel, Inherited.call.
    simpl. unfold in16 in Hx0.
    rewrite Z.sub_0_r, (wrap16_id err), (wrap16_id (x0 + 1))
      by (unfold in16; lia).
    destruct (err <? 0) eqn:E2; [zbool; lia|].
    rewrite IH by (unfold in16; lia).
    rewrite (seqZ_cons x0) by lia. rewrite fmap_cons, <- app_assoc.
    replace (Z.succ x0) with (x0 + 1) by lia.
    replace (Z.pred (x1 - x0 + 1)) with (x1 - (x0 + 1) + 1) by lia.
    reflexivity.
  - rewrite seqZ_nil by lia. rewrite app_nil_r. reflexivity.
Qed.

Lemma inherited_writeFastHLine_pixels fuel a b y color t :
  in16 a → a <= b → b - a <= 32766 → b < 32767 → 65536 < Z.of_nat fuel →
  Inherited.writeFastHLine fuel a y (b - a + 1) color t
  = Some (t ++ [Inherited.StartWrite]
            ++ ((λ i, Inherited.DrawPixel i y color) <$> seqZ a (b - a + 1))
            ++ [Inherited.EndWrite]).
Proof.
  intros Ha Hab Hw Hb Hfuel. unfold in16 in Ha.
  unfold Inherited.writeFastHLine, Inherited.drawFastHLine,
    GFX.drawFastHLine, Inherited.writeLine, GFX.writeLine.
  unfold Inherited.startWrite at 1, Inherited.call at 1. simpl.
  replace (a + (b - a + 1) - 1) with b by lia.
  rewrite (wrap16_id b) by (unfold in16; lia).
  rewrite Z.sub_diag. change (Z.abs 0) with 0.
  destruct (0 >? Z.abs (b - a)) eqn:E1; [zbool; lia|]. cbv beta iota.
  destruct (a >? b) eqn:E2; [zbool; lia|]. cbv beta iota.
  rewrite Z.sub_diag. change (wrap16 (Z.abs 0)) with 0.
  rewrite (wrap16_id (b - a)) by (unfold in16; lia).
  rewrite hline_loop; try (unfold in16; lia).
  - simpl. unfold Inherited.endWrite, Inherited.call.
    rewrite <- !app_assoc. reflexivity.
  - rewrite wrap16_id by (unfold in16; elia). elia.
Qed.

(** C7 (amended).  For three vertices on one row [y] whose extreme columns
    [a = min(x0, x1, x2)] and [b = max(x0, x1, x2)] are at most 32766 apart
    (the span width [b - a + 1] fits [int16_t]), [fillTriangle] on any sink
    opens the transaction, makes exactly one [writeFastHLine] call, for the
    span [(a, y, b - a + 1)], closes the transaction and does nothing else;
    with the inherited [writeFastHLine] the pixels handed to [drawPixel]
    are exactly [(i, y)] for [a <= i <= b], provided [b] is not 32767. *)
Theorem fillTriangle_degenerate x0 x1 x2 y color :
  let a := Z.min x0 (Z.min x1 x2) in
  let b := Z.max x0 (Z.max x1 x2) in
  b - a <= 32766 →
  (∀ (sink : Type) (startWrite endWrite : sink → option sink)
     (writeFastHLine : Z → Z → Z → Z → sink → option sink) fuel (s : sink),
     GFX.fillTriangle startWrite endWrite writeFastHLine fuel
       x0 y x1 y x2 y color s
     = (s ← startWrite s;
        s ← writeFastHLine a y (b - a + 1) color s;
        endWrite s))
  ∧ (∀ fuel,
       SpanLog.fillTriangle fuel x0 y x1 y x2 y color []
       = Some [SpanLog.StartWrite; SpanLog.WriteFastHLine a y (b - a + 1) color;
               SpanLog.EndWrite])
  ∧ (∀ fuel,
       in16 a → b < 32767 → 65536 < Z.of_nat fuel →
       Inherited.fillTriangle fuel x0 y x1 y x2 y color []
       = Some ([Inherited.StartWrite; Inherited.StartWrite]
                 ++ ((λ i, Inherited.DrawPixel i y color)
                       <$> seqZ a (b - a + 1))
                 ++ [Inherited.EndWrite; Inherited.EndWrite])).
Proof.
  intros a b Hw.
  assert (Hab : a <= b) by (unfold a, b; lia).
  assert (Ewrap : wrap16 (b - a + 1) = b - a + 1)
    by (apply wrap16_id; unfold in16; lia).
  split; [|split].
  - intros. rewrite fillTriangle_flat. fold a b. rewrite Ewrap. reflexivity.
  - intros fuel. unfold SpanLog.fillTriangle.
    rewrite fillTriangle_flat. fold a b. rewrite Ewrap. reflexivity.
  - intros fuel Ha Hb Hfuel. unfold Inherited.fillTriangle.
    rewrite fillTriangle_flat. fold a b. rewrite Ewrap.
    unfold Inherited.startWrite at 1, Inherited.call at 1. simpl.
    rewrite inherited_writeFastHLine_pixels by assumption. simpl.
    unfold Inherited.endWrite, Inherited.call.
    cbn [app]. rewrite <- app_assoc. reflexivity.
Qed.

Lemma fillTriangle_degenerate_witness :
  SpanLog.fillTriangle 0 7 4 2 4 9 4 5 []
  = Some [SpanLog.StartWrite; SpanLog.WriteFastHLine 2 4 8 5;
          SpanLog.EndWrite]
  ∧ Inherited.pixels <$> Inherited.fillTriangle (Z.to_nat 65537) 7 4 2 4 9 4 5 []
    = Some [(2, 4); (3, 4); (4, 4); (5, 4); (6, 4); (7, 4); (8, 4); (9, 4)].
Proof.
  destruct (fillTriangle_degenerate 7 2 9 4 5) as (_ & Hlog & Hpix);
    [simpl; lia|].
  split; [exact (Hlog 0%nat)|].
  rewrite Hpix; [reflexivity | unfold in16; simpl; lia | simpl; lia | lia].
Defined.

(** The claim C7 as stated fails for a span wider than 32767 pixels: the
    width handed to [writeFastHLine] has wrapped to a negative number, and
    on an [Adafruit_SPITFT] display of 320 x 240 nothing at all is painted
    although the columns 0..319 of row 0 lie between the extreme vertices. *)
Lemma fillTriangle_wide_span_lost :
  SpanLog.fillTriangle 0 (-20000) 0 0 0 20000 0 9 []
  = Some [SpanLog.StartWrite;
          SpanLog.WriteFastHLine (-20000) 0 (-25535) 9; SpanLog.EndWrite]
  ∧ 20000 - (-20000) + 1 ≠ -25535
  ∧ (SPITFT.painted ∘ fst)
      <$> SPITFT_GFX.fillTriangle 0 (-20000) 0 0 0 20000 0 9
            ([], SPITFT.new 320 240 (replicate 32 0))
    = Some []
  ∧ (-20000 <= 0 <= 20000 ∧ on_screen 320 240 0 0).
Proof.
  split; [vm_compute; reflexivity|]. split; [lia|].
  split; [vm_compute; reflexivity|]. unfold on_screen. lia.
Qed.

(** ** Rectangles on the hardware sink, the claims *)

(** C1 (amended).  On a display of [W] by [H] pixels, for every [fillRect]
    request [(x, y, w, h, color)] whose normalised rectangle is
    representable in [int16_t] (origin not below -32768, extent not
    -32768), the set of pixels written is exactly the intersection of the
    requested rectangle with [0, W) x [0, H), each in the requested
    colour. *)
Theorem fillRect_writes_intersection d x y w h color :
  let W := _width (SPITFT.base d) in
  let H := _height (SPITFT.base d) in
  0 < W <= 32767 → 0 < H <= 32767 →
  in16 x → in16 y → in16 w → in16 h → is_u16 color →
  length (SPITFT._spi_buffer d) = 32%nat →
  representable x w → representable y h →
  ∀ i j v,
    In (i, j, v) (SPITFT.painted (SPITFT.fillRect x y w h color d).1)
    ↔ v = color ∧ in_rect x y w h i j ∧ on_screen W H i j.
Proof. apply fillRect_painted. Qed.

Lemma fillRect_writes_intersection_witness :
  In (0, 10, 7)
    (SPITFT.painted (SPITFT.fillRect (-5) 10 20 5 7
                       (SPITFT.new 100 100 (replicate 32 0))).1)
  ∧ ¬ In (15, 10, 7)
        (SPITFT.painted (SPITFT.fillRect (-5) 10 20 5 7
                           (SPITFT.new 100 100 (replicate 32 0))).1).
Proof.
  pose proof (fillRect_writes_intersection
                (SPITFT.new 100 100 (replicate 32 0)) (-5) 10 20 5 7) as T.
  assert (∀ i j v,
    In (i, j, v)
      (SPITFT.painted (SPITFT.fillRect (-5) 10 20 5 7
                         (SPITFT.new 100 100 (replicate 32 0))).1)
    ↔ v = 7 ∧ in_rect (-5) 10 20 5 i j ∧ on_screen 100 100 i j) as T'.
  { apply T;
      [ change (0 < 100 <= 32767); lia | change (0 < 100 <= 32767); lia
      | unfold in16; lia | unfold in16; lia | unfold in16; lia
      | unfold in16; lia | unfold is_u16; lia | reflexivity
      | unfold representable, in16, span_lo; simpl; lia
      | unfold representable, in16, span_lo; simpl; lia ]. }
  split.
  - apply T'. unfold in_rect, on_screen, span_lo, span_hi. simpl. lia.
  - intros Hin. apply T' in Hin.
    unfold in_rect, on_screen, span_lo, span_hi in Hin. simpl in Hin. lia.
Defined.

(** The claim C1 as stated fails when the extent is -32768: its negation
    wraps back to -32768, the rectangle is taken to lie left of the screen
    and nothing is painted, although the pixel (0, 10) belongs to the
    requested rectangle and to the 100 x 100 screen. *)
Lemma fillRect_extent_min_lost :
  ¬ (∀ i j v,
       In (i, j, v)
         (SPITFT.painted (SPITFT.fillRect 10 10 (-32768) 5 7
                            (SPITFT.new 100 100 (replicate 32 0))).1)
       ↔ v = 7 ∧ in_rect 10 10 (-32768) 5 i j ∧ on_screen 100 100 i j).
Proof.
  intros Hclaim.
  assert (Hempty : SPITFT.painted (SPITFT.fillRect 10 10 (-32768) 5 7
                     (SPITFT.new 100 100 (replicate 32 0))).1 = [])
    by (vm_compute; reflexivity).
  rewrite Hempty in Hclaim.
  apply (proj2 (Hclaim 0 10 7)).
  unfold in_rect, on_screen, span_lo, span_hi. simpl. lia.
Qed.

(** The tests of [fillRect] on one axis. *)
Lemma axis_tests W x w :
  0 < W <= 32767 → in16 x → in16 w → w ≠ 0 →
  let p := if w <? 0 then (wrap16 (x + w + 1), wrap16 (- w)) else (x, w) in
  (p.1 <? W) && (p.1 + p.2 - 1 >=? 0) = true
  ↔ wraps_onto W x w ∨ meets W x w.
Proof.
  intros HW Hx Hw H0. cbv zeta.
  unfold in16, meets, wraps_onto, span_lo, span_hi in *.
  destruct (w <? 0) eqn:E; zbool; cbn [fst snd].
  - destruct (decide (w = -32768)) as [->|Hm].
    + change (wrap16 (- -32768)) with (-32768).
      split; [|intros [?|?]; lia].
      intros H. apply andb_true_iff in H as [H1 H2]. zbool.
      unfold wrap16 in *. elia.
    + rewrite (wrap16_id (- w)) by (unfold in16; lia).
      destruct (decide (x + w + 1 < -32768)) as [Ho|Ho].
      * replace (wrap16 (x + w + 1)) with (x + w + 1 + 65536)
          by (unfold wrap16; elia).
        split.
        -- intros H. apply andb_true_iff in H as [H1 H2]. zbool. lia.
        -- intros [?|?]; [|lia]. apply andb_true_iff. split; zbool; lia.
      * rewrite (wrap16_id (x + w + 1)) by (unfold in16; lia).
        split.
        -- intros H. apply andb_true_iff in H as [H1 H2]. zbool. lia.
        -- intros [?|?]; [lia|]. apply andb_true_iff. split; zbool; lia.
  - split.
    + intros H. apply andb_true_iff in H as [H1 H2]. zbool. lia.
    + intros [?|?]; [lia|]. apply andb_true_iff. split; zbool; lia.
Qed.

(** [fillRect] puts something on the bus exactly when its tests pass on
    both axes. *)
Lemma fillRect_silent d x y w h color :
  let W := _width (SPITFT.base d) in
  let H := _height (SPITFT.base d) in
  0 < W <= 32767 → 0 < H <= 32767 →
  in16 x → in16 y → in16 w → in16 h →
  SPITFT.fillRect x y w h color d = ([], d)
  ↔ ¬ ((wraps_onto W x w ∨ meets W x w) ∧ (wraps_onto H y h ∨ meets H y h)).
Proof.
  intros W H HW HH Hx Hy Hw Hh.
  unfold SPITFT.fillRect. fold W H.
  destruct (w =? 0) eqn:Ew; zbool.
  { split; [|reflexivity]. intros _ [[?|?] _];
      unfold wraps_onto, meets in *; lia. }
  destruct (h =? 0) eqn:Eh; zbool.
  { split; [|reflexivity]. intros _ [_ [?|?]];
      unfold wraps_onto, meets in *; lia. }
  cbn [negb andb].
  pose proof (axis_tests W x w HW Hx Hw Ew) as Ax.
  pose proof (axis_tests H y h HH Hy Hh Eh) as Ay.
  cbv zeta in Ax, Ay.
  destruct (if w <? 0 then (wrap16 (x + w + 1), wrap16 (- w)) else (x, w))
    as [x' w'].
  destruct (if h <? 0 then (wrap16 (y + h + 1), wrap16 (- h)) else (y, h))
    as [y' h'].
  cbn [fst snd] in Ax, Ay.
  destruct (x' <? W); cbn [andb] in Ax;
    [|split; [intros _ [A _]; apply Ax in A; discriminate | reflexivity]].
  destruct (y' <? H); cbn [andb] in Ay;
    [|split; [intros _ [_ A]; apply Ay in A; discriminate | reflexivity]].
  cbv zeta.
  destruct (x' + w' - 1 >=? 0);
    [|split; [intros _ [A _]; apply Ax in A; discriminate | reflexivity]].
  destruct (y' + h' - 1 >=? 0);
    [|split; [intros _ [_ A]; apply Ay in A; discriminate | reflexivity]].
  split.
  - intros E. exfalso. revert E.
    repeat match goal with
           | |- context [let '(_, _) := ?p in _] => destruct p
           end.
    discriminate.
  - intros N. contradiction N. split; [apply Ax|apply Ay]; reflexivity.
Qed.

(** C2 (amended).  On an [Adafruit_SPITFT] display with positive
    dimensions, a [fillRect] call whose rectangle has no pixel in
    [0, width) x [0, height) puts nothing on the bus (no pixel, no
    [startWrite], no [endWrite]) and leaves the object unchanged, except
    exactly when the normalisation of a negative extent overflows
    [int16_t] and wraps the rectangle onto the screen. *)
Theorem fillRect_outside_no_transaction d x y w h color :
  let W := _width (SPITFT.base d) in
  let H := _height (SPITFT.base d) in
  0 < W <= 32767 → 0 < H <= 32767 →
  in16 x → in16 y → in16 w → in16 h →
  (∀ i j, in_rect x y w h i j → ¬ on_screen W H i j) →
  SPITFT.fillRect x y w h color d = ([], d)
  ↔ ¬ wrapped_onto_screen W H x y w h.
Proof.
  intros W H HW HH Hx Hy Hw Hh Hout.
  rewrite (fillRect_silent d x y w h color HW HH Hx Hy Hw Hh). fold W H.
  unfold wrapped_onto_screen.
  split; [tauto|]. intros N [Ex Ey]. apply N. split; [|tauto].
  destruct Ex as [?|Mx]; [tauto|]. destruct Ey as [?|My]; [tauto|].
  exfalso. unfold meets in Mx, My.
  destruct Mx as (Hw0 & _ & Hlx & Hhx). destruct My as (Hh0 & _ & Hly & Hhy).
  pose proof (span_ordered x w Hw0). pose proof (span_ordered y h Hh0).
  apply (Hout (Z.max 0 (span_lo x w)) (Z.max 0 (span_lo y h)));
    unfold in_rect, on_screen; lia.
Qed.

Lemma fillRect_outside_no_transaction_witness :
  SPITFT.fillRect 150 10 (-20) 5 7 (SPITFT.new 100 100 (replicate 32 0))
  = ([], SPITFT.new 100 100 (replicate 32 0)).
Proof.
  apply (fillRect_outside_no_transaction
           (SPITFT.new 100 100 (replicate 32 0)) 150 10 (-20) 5 7);
    [ change (0 < 100 <= 32767); lia | change (0 < 100 <= 32767); lia
    | unfold in16; lia | unfold in16; lia | unfold in16; lia
    | unfold in16; lia | | ].
  - intros i j. change (_width _) with 100. change (_height _) with 100.
    unfold in_rect, on_screen, span_lo, span_hi. simpl. lia.
  - change (_width _) with 100. change (_height _) with 100.
    unfold wrapped_onto_screen, wraps_onto, meets, span_lo, span_hi.
    simpl. lia.
Defined.

(** The claim C2 as stated fails in two ways.  The generic
    [Adafruit_GFX::fillRect], for a rectangle with no pixel on a 100 x 100
    screen, still calls [startWrite] (twice, nested) and [endWrite], and
    hands every pixel of the rectangle to [drawPixel].  And
    [Adafruit_SPITFT::fillRect(-32768, 0, -32767, 5)], whose rectangle
    spans the columns -65534 to -32768, shifts its origin to column
    -65534, which wraps around to column 2: it opens a transaction and
    paints the 490 pixels of columns 2 to 99 of rows 0 to 4. *)
Lemma fillRect_outside_opens_transaction :
  ((∀ i j, in_rect 200 200 1 2 i j → ¬ on_screen 100 100 i j)
   ∧ Inherited.fillRect 8 200 200 1 2 9 []
     = Some [Inherited.StartWrite; Inherited.StartWrite;
             Inherited.DrawPixel 200 200 9; Inherited.DrawPixel 200 201 9;
             Inherited.EndWrite; Inherited.EndWrite])
  ∧ ((∀ i j, in_rect (-32768) 0 (-32767) 5 i j → ¬ on_screen 100 100 i j)
     ∧ take 3 (SPITFT.fillRect (-32768) 0 (-32767) 5 7
                 (SPITFT.new 100 100 (replicate 32 0))).1
       = SPITFT.startWrite ++ [SPITFT.SetAddrWindow 2 0 98 5]
     ∧ length (SPITFT.painted
                 (SPITFT.fillRect (-32768) 0 (-32767) 5 7
                    (SPITFT.new 100 100 (replicate 32 0))).1) = 490%nat).
Proof.
  split; split.
  - intros i j. unfold in_rect, on_screen, span_lo, span_hi. simpl. lia.
  - vm_compute. reflexivity.
  - intros i j. unfold in_rect, on_screen, span_lo, span_hi. simpl. lia.
  - split; vm_compute; reflexivity.
Qed.

(** ** The 8-bit canvas: horizontal spans against single pixels *)

Lemma row_fill_step buf base x hi v :
  0 <= base → 0 <= x < hi → base + hi <= Z.of_nat (length buf) →
  row_fill (<[Z.to_nat (base + x) := v]> buf) base (x + 1) hi v
  = row_fill buf base x hi v.
Proof.
  intros Hb Hx Hlen. unfold row_fill.
  destruct (x <? hi) eqn:E1; [|zbool; lia].
  assert (Hlt : (Z.to_nat (base + x) < length buf)%nat) by lia.
  destruct (x + 1 <? hi) eqn:E2; zbool.
  - replace (Z.to_nat (base + (x + 1))) with (S (Z.to_nat (base + x))) by lia.
    rewrite (take_S_r _ _ v) by (apply list_lookup_insert_eq; exact Hlt).
    rewrite take_insert_ge by lia. rewrite drop_insert_lt by lia.
    replace (Z.to_nat (hi - x)) with (S (Z.to_nat (hi - (x + 1)))) by lia.
    rewrite <- app_assoc. reflexivity.
  - assert (hi = x + 1) as -> by lia.
    replace (Z.to_nat (x + 1 - x)) with 1%nat by lia.
    replace (Z.to_nat (base + (x + 1))) with (S (Z.to_nat (base + x))) by lia.
    apply insert_take_drop. exact Hlt.
Qed.

(** A span of no-op pixels is a no-op. *)
Lemma hline_noop n : ∀ x y color c,
  (∀ x', Canvas8.drawPixel x' y color c = Some c) →
  hline_per_pixel n x y color c = Some c.
Proof.
  induction n as [|n IH]; intros x y color c Hno; [reflexivity|].
  simpl. rewrite Hno. simpl. apply IH. exact Hno.
Qed.

Section Unrotated.

Variables (g : Adafruit_GFX) (y color : Z).

Hypothesis rotation_0 : rotation g = 0.
Hypothesis width_raw : _width g = WIDTH g.
Hypothesis height_raw : _height g = HEIGHT g.
Hypothesis y_on : 0 <= y < HEIGHT g.

Lemma hline_rot0 n : ∀ x buf,
  Z.of_nat (length buf) = WIDTH g * HEIGHT g →
  hline_per_pixel n x y color {| gfx := g; buffer := Some buf |}
  = Some {| gfx := g;
            buffer := Some (row_fill buf (y * WIDTH g) (Z.max 0 x)
                              (Z.min (WIDTH g) (x + Z.of_nat n))
                              (u8 color)) |}.
Proof.
  induction n as [|n IH]; intros x buf Hlen.
  - simpl. unfold row_fill.
    match goal with
    | |- context [if ?c then _ else _] => destruct c eqn:E
    end; [zbool; lia | reflexivity].
  - cbn [hline_per_pixel]. unfold Canvas8.drawPixel. cbn [buffer gfx].
    destruct (off_canvas g x y) eqn:Eoff.
    + simpl. rewrite IH by exact Hlen. do 3 f_equal.
      unfold off_canvas in Eoff. rewrite width_raw, height_raw in Eoff.
      destruct (x <? 0) eqn:E1.
      * zbool.
        replace (Z.max 0 (x + 1)) with (Z.max 0 x) by lia.
        replace (x + 1 + Z.of_nat n) with (x + Z.of_nat (S n)) by lia.
        reflexivity.
      * destruct (y <? 0) eqn:E2; [zbool; lia|].
        destruct (x >=? WIDTH g) eqn:E3;
          [|destruct (y >=? HEIGHT g) eqn:E4; [zbool; lia|discriminate]].
        zbool. unfold row_fill.
        repeat match goal with
               | |- context [if ?c then _ else _] =>
                   let E := fresh "E" in destruct c eqn:E; [zbool; lia|]
               end.
        reflexivity.
    + unfold off_canvas in Eoff. rewrite width_raw, height_raw in Eoff.
      destruct (x <? 0) eqn:E1; [discriminate|].
      destruct (y <? 0) eqn:E2; [discriminate|].
      destruct (x >=? WIDTH g) eqn:E3; [discriminate|].
      destruct (y >=? HEIGHT g) eqn:E4; [discriminate|]. zbool.
      unfold rotate_xy. rewrite rotation_0. cbv beta iota.
      unfold poke.
      destruct (0 <=? x + y * WIDTH g) eqn:P1; [|zbool; nia].
      destruct (x + y * WIDTH g <? Z.of_nat (length buf)) eqn:P2;
        [|zbool; nia].
      zbool. simpl.
      rewrite IH by (rewrite length_insert; exact Hlen).
      do 3 f_equal.
      replace (Z.max 0 (x + 1)) with (x + 1) by lia.
      replace (Z.max 0 x) with x by lia.
      replace (x + 1 + Z.of_nat n) with (x + Z.of_nat (S n)) by lia.
      replace (x + y * WIDTH g) with (y * WIDTH g + x) by lia.
      apply row_fill_step; nia.
Qed.

Lemma writeFastHLine_rot0 x w buf :
  WIDTH g <= 32767 → in16 x → 0 <= w → in16 (x + w - 1) →
  Z.of_nat (length buf) = WIDTH g * HEIGHT g →
  Canvas8.writeFastHLine x y w color {| gfx := g; buffer := Some buf |}
  = Some {| gfx := g;
            buffer := Some (row_fill buf (y * WIDTH g) (Z.max 0 x)
                              (Z.min (WIDTH g) (x + w)) (u8 color)) |}.
Proof.
  intros HW Hx Hw Hx2 Hlen. unfold in16 in Hx, Hx2.
  assert (HW0 : 0 <= WIDTH g) by nia.
  unfold Canvas8.writeFastHLine. cbn [buffer gfx].
  rewrite width_raw, height_raw.
  rewrite (wrap16_id (x + w - 1)) by exact Hx2.
  destruct (y <? 0) eqn:E2; [zbool; lia|].
  destruct (y >=? HEIGHT g) eqn:E4; [zbool; lia|].
  destruct (x >=? WIDTH g) eqn:E3; cbn [orb].
  { zbool. unfold row_fill.
    destruct (Z.max 0 x <? Z.min (WIDTH g) (x + w)) eqn:E;
      [zbool; lia|reflexivity]. }
  destruct (x + w - 1 <? 0) eqn:E5.
  { zbool. unfold row_fill.
    destruct (Z.max 0 x <? Z.min (WIDTH g) (x + w)) eqn:E;
      [zbool; lia|reflexivity]. }
  zbool.
  assert (Hmem : ∀ x' w',
    x' = Z.max 0 x → w' = Z.min (WIDTH g) (x + w) - x' →
    memset buf (y * WIDTH g + x') color (u32 w')
    = Some (row_fill buf (y * WIDTH g) (Z.max 0 x)
              (Z.min (WIDTH g) (x + w)) (u8 color))).
  { intros x' w' -> ->.
    rewrite u32_id by (unfold is_u32; lia).
    unfold memset, row_fill.
    destruct (0 <=? y * WIDTH g + Z.max 0 x) eqn:M1; [|zbool; nia].
    destruct (0 <=? Z.min (WIDTH g) (x + w) - Z.max 0 x) eqn:M2;
      [|zbool; lia].
    destruct (y * WIDTH g + Z.max 0 x
                + (Z.min (WIDTH g) (x + w) - Z.max 0 x)
              <=? Z.of_nat (length buf)) eqn:M3; [|zbool; nia].
    cbn [andb]. f_equal.
    replace (y * WIDTH g + Z.max 0 x
               + (Z.min (WIDTH g) (x + w) - Z.max 0 x))
      with (y * WIDTH g + Z.min (WIDTH g) (x + w)) by lia.
    destruct (Z.max 0 x <? Z.min (WIDTH g) (x + w)) eqn:M4;
      [reflexivity|].
    zbool.
    replace (Z.min (WIDTH g) (x + w)) with (Z.max 0 x) by lia.
    rewrite Z.sub_diag. simpl. apply take_drop. }
  destruct (x <? 0) eqn:A, (x + w - 1 >=? WIDTH g) eqn:B;
    cbv beta iota; zbool;
    rewrite ?wrap16_id by (unfold in16; lia);
    unfold rotate_xy; rewrite rotation_0; cbv beta iota;
    rewrite (Hmem _ _) by lia; reflexivity.
Qed.

End Unrotated.

(** X9.  At rotation 0 the fast path of [GFXcanvas8::writeFastHLine] does
    what the per-pixel loop does, for every span of non-negative width
    whose last column is an [int16_t]: clipping included, and a canvas
    without buffer is left alone by both. *)
Lemma writeFastHLine8_unrotated c x y w color :
  rotation (gfx c) = 0 →
  _width (gfx c) = WIDTH (gfx c) → _height (gfx c) = HEIGHT (gfx c) →
  WIDTH (gfx c) <= 32767 →
  (∀ buf, buffer c = Some buf →
          Z.of_nat (length buf) = WIDTH (gfx c) * HEIGHT (gfx c)) →
  in16 x → 0 <= w → in16 (x + w - 1) →
  Canvas8.writeFastHLine x y w color c
  = hline_per_pixel (Z.to_nat w) x y color c.
Proof.
  intros Hrot Hwd Hht HW Hlen Hx Hw Hx2.
  destruct c as [g [buf|]]; cbn [gfx buffer] in *.
  - destruct (decide (0 <= y < HEIGHT g)) as [Hy|Hy].
    + rewrite (writeFastHLine_rot0 g y color Hrot Hwd Hht Hy)
        by (auto using Hlen).
      rewrite (hline_rot0 g y color Hrot Hwd Hht Hy) by (auto using Hlen).
      rewrite Z2Nat.id by exact Hw. reflexivity.
    + rewrite hline_noop.
      * unfold Canvas8.writeFastHLine. cbn [buffer gfx]. rewrite Hht.
        destruct (x >=? _width g); [reflexivity|].
        destruct (y <? 0) eqn:E1; [reflexivity|].
        destruct (y >=? HEIGHT g) eqn:E2; [reflexivity|]. zbool. lia.
      * intros x'. unfold Canvas8.drawPixel. cbn [buffer gfx].
        assert (off_canvas g x' y = true) as ->; [|reflexivity].
        unfold off_canvas. rewrite Hht.
        destruct (x' <? 0); [reflexivity|].
        destruct (y <? 0) eqn:E1; [reflexivity|].
        destruct (x' >=? _width g); [reflexivity|].
        destruct (y >=? HEIGHT g) eqn:E2; [reflexivity|]. zbool. lia.
  - rewrite hline_noop; reflexivity.
Qed.

Lemma writeFastHLine8_unrotated_witness :
  Canvas8.writeFastHLine (-1) 1 3 9 (Canvas8.new 4 4 true)
  = hline_per_pixel (Z.to_nat 3) (-1) 1 9 (Canvas8.new 4 4 true).
Proof.
  apply (writeFastHLine8_unrotated (Canvas8.new 4 4 true) (-1) 1 3 9);
    [ reflexivity | reflexivity | reflexivity | change (4 <= 32767); lia
    | intros buf [= <-]; reflexivity
    | unfold in16; lia | lia | unfold in16; lia ].
Defined.

(** C3, the code at the failing inputs.  On a fresh 4 x 4 8-bit canvas:
    at rotation 1 the span [(0, 0)..(1, 0)] is a column of the raw buffer
    (elements 3 and 7) but [writeFastHLine] fills elements 3 and 4; at
    rotation 3 likewise (elements 12 and 8 against 12 and 13); at rotation
    2 the span [(0, 1)..(1, 1)] is elements 11 and 10 but elements 11 and
    12 are filled, and the span [(0, 0)..(1, 0)] makes [memset] run past
    the end of the buffer. *)
Lemma writeFastHLine8_rotated_differs :
  let at_rotation r := Offscreen.setRotation r (Canvas8.new 4 4 true) in
  (buffer <$> Canvas8.writeFastHLine 0 0 2 1 (at_rotation 1)
   = Some (Some [0; 0; 0; 1; 1; 0; 0; 0; 0; 0; 0; 0; 0; 0; 0; 0])
   ∧ buffer <$> hline_per_pixel 2 0 0 1 (at_rotation 1)
     = Some (Some [0; 0; 0; 1; 0; 0; 0; 1; 0; 0; 0; 0; 0; 0; 0; 0]))
  ∧ (buffer <$> Canvas8.writeFastHLine 0 0 2 1 (at_rotation 3)
     = Some (Some [0; 0; 0; 0; 0; 0; 0; 0; 0; 0; 0; 0; 1; 1; 0; 0])
     ∧ buffer <$> hline_per_pixel 2 0 0 1 (at_rotation 3)
       = Some (Some [0; 0; 0; 0; 0; 0; 0; 0; 1; 0; 0; 0; 1; 0; 0; 0]))
  ∧ (buffer <$> Canvas8.writeFastHLine 0 1 2 1 (at_rotation 2)
     = Some (Some [0; 0; 0; 0; 0; 0; 0; 0; 0; 0; 0; 1; 1; 0; 0; 0])
     ∧ buffer <$> hline_per_pixel 2 0 1 1 (at_rotation 2)
       = Some (Some [0; 0; 0; 0; 0; 0; 0; 0; 0; 0; 1; 1; 0; 0; 0; 0]))
  ∧ (Canvas8.writeFastHLine 0 0 2 1 (at_rotation 2) = None
     ∧ buffer <$> hline_per_pixel 2 0 0 1 (at_rotation 2)
       = Some (Some [0; 0; 0; 0; 0; 0; 0; 0; 0; 0; 0; 0; 0; 0; 1; 1])).
Proof. vm_compute. repeat split; reflexivity. Qed.

(** * Further properties of the code *)

(** ** The hardware sink: self-contained against transaction-free members *)

(** Case analysis on every test of the goal, keeping the equations. *)
Ltac split_tests :=
  repeat (match goal with
          | |- context [if ?c then _ else _] =>
              let E := fresh "E" in destruct c eqn:E
          end; cbv beta iota).

Lemma preclipped_nonempty x y w h color d :
  ∃ e t d', SPITFT.writeFillRectPreclipped x y w h color d = (e :: t, d').
Proof.
  unfold SPITFT.writeFillRectPreclipped.
  destruct (SPITFT.writeColor _ _ _) as [t d']. eauto.
Qed.

Lemma in_transaction_preclipped x y w h color d :
  in_transaction (SPITFT.writeFillRectPreclipped x y w h color d)
  = (let '(t, d') := SPITFT.writeFillRectPreclipped x y w h color d in
     (SPITFT.startWrite ++ t ++ SPITFT.endWrite, d')).
Proof.
  destruct (preclipped_nonempty x y w h color d) as (e & t & d' & ->).
  reflexivity.
Qed.

Lemma bracketed_members x y w h color d :
  SPITFT.fillRect x y w h color d
  = in_transaction (SPITFT.writeFillRect x y w h color d)
  ∧ SPITFT.drawFastHLine x y w color d
    = in_transaction (SPITFT.writeFastHLine x y w color d)
  ∧ SPITFT.drawFastVLine x y h color d
    = in_transaction (SPITFT.writeFastVLine x y h color d).
Proof.
  split; [|split].
  - unfold SPITFT.fillRect, SPITFT.writeFillRect.
    split_tests; rewrite ?in_transaction_preclipped; reflexivity.
  - unfold SPITFT.drawFastHLine, SPITFT.writeFastHLine.
    split_tests; rewrite ?in_transaction_preclipped; reflexivity.
  - unfold SPITFT.drawFastVLine, SPITFT.writeFastVLine.
    split_tests; rewrite ?in_transaction_preclipped; reflexivity.
Qed.

(** X1.  On an [Adafruit_SPITFT] display, for all arguments, [fillRect],
    [drawFastHLine] and [drawFastVLine] emit exactly what [writeFillRect],
    [writeFastHLine] and [writeFastVLine] emit, with [startWrite] before and
    [endWrite] after, and emit nothing at all (no transaction) when the
    transaction-free member emits nothing. *)
Theorem draw_is_write_in_transaction x y w h color d :
  SPITFT.fillRect x y w h color d
  = in_transaction (SPITFT.writeFillRect x y w h color d)
  ∧ SPITFT.drawFastHLine x y w color d
    = in_transaction (SPITFT.writeFastHLine x y w color d)
  ∧ SPITFT.drawFastVLine x y h color d
    = in_transaction (SPITFT.writeFastVLine x y h color d).
Proof. apply bracketed_members. Qed.

(** X2.  On an [Adafruit_SPITFT] display, for all arguments, a horizontal
    line is the rectangle of height 1 and a vertical line the rectangle of
    width 1: [writeFastHLine(x, y, w)] emits what [writeFillRect(x, y, w, 1)]
    emits and [writeFastVLine(x, y, h)] what [writeFillRect(x, y, 1, h)]
    emits, and likewise [drawFastHLine], [drawFastVLine] against
    [fillRect]. *)
Theorem lines_are_unit_rectangles x y w h color d :
  SPITFT.writeFastHLine x y w color d = SPITFT.writeFillRect x y w 1 color d
  ∧ SPITFT.writeFastVLine x y h color d
    = SPITFT.writeFillRect x y 1 h color d
  ∧ SPITFT.drawFastHLine x y w color d = SPITFT.fillRect x y w 1 color d
  ∧ SPITFT.drawFastVLine x y h color d = SPITFT.fillRect x y 1 h color d.
Proof.
  assert (HH : SPITFT.writeFastHLine x y w color d
               = SPITFT.writeFillRect x y w 1 color d).
  { unfold SPITFT.writeFastHLine, SPITFT.writeFillRect.
    change (1 =? 0) with false. change (1 <? 0) with false.
    replace (y + 1 - 1) with y by lia.
    split_tests; zbool; try reflexivity; try lia; try discriminate. }
  assert (HV : SPITFT.writeFastVLine x y h color d
               = SPITFT.writeFillRect x y 1 h color d).
  { unfold SPITFT.writeFastVLine, SPITFT.writeFillRect.
    change (1 =? 0) with false. change (1 <? 0) with false.
    replace (x + 1 - 1) with x by lia.
    split_tests; zbool; try reflexivity; try lia; try discriminate. }
  destruct (bracketed_members x y w 1 color d) as (F1 & L1 & _).
  destruct (bracketed_members x y 1 h color d) as (F2 & _ & L2).
  repeat split; try assumption; congruence.
Qed.

(** X3.  On an [Adafruit_SPITFT] display, for all arguments, a pixel is the
    rectangle of width and height 1: [drawPixel(x, y, color)] emits what
    [fillRect(x, y, 1, 1, color)] emits, [writePixel(x, y, color)] what
    [writeFillRect(x, y, 1, 1, color)] emits, and neither rectangle call
    touches the block buffer. *)
Theorem pixel_is_unit_rectangle x y color d :
  SPITFT.fillRect x y 1 1 color d = (SPITFT.drawPixel x y color d, d)
  ∧ SPITFT.writeFillRect x y 1 1 color d = (SPITFT.writePixel x y color d, d).
Proof.
  split.
  - unfold SPITFT.fillRect, SPITFT.drawPixel,
      SPITFT.writeFillRectPreclipped.
    change (1 =? 0) with false. change (1 <? 0) with false.
    replace (x + 1 - 1) with x by lia. replace (y + 1 - 1) with y by lia.
    split_tests; zbool; try reflexivity; try lia; try discriminate.
  - unfold SPITFT.writeFillRect, SPITFT.writePixel,
      SPITFT.writeFillRectPreclipped.
    change (1 =? 0) with false. change (1 <? 0) with false.
    replace (x + 1 - 1) with x by lia. replace (y + 1 - 1) with y by lia.
    split_tests; zbool; try reflexivity; try lia; try discriminate.
Qed.

(** ** The hardware sink: 16-bit bitmaps *)

Lemma wire16_transfers (l : list Z) :
  flat_map SPITFT.wire16 (SPITFT.Transfer16 <$> l) = l.
Proof. induction l as [|v l IH]; [reflexivity|]. simpl. f_equal. exact IH. Qed.

Lemma transfers_no_window (l : list Z) :
  Forall no_window (SPITFT.Transfer16 <$> l).
Proof. induction l; constructor; [exact I|assumption]. Qed.

(** The row loop sends the rows, when every row lies inside the array. *)
Lemma push_rows_spec colors cw w fuel : ∀ h off,
  0 <= cw < 4294967296 → 0 <= w → 0 <= off → 0 <= h <= 32767 →
  h < Z.of_nat fuel →
  (0 < h → off + (h - 1) * w + cw <= Z.of_nat (length colors)) →
  ∃ t, SPITFT.push_rows fuel colors off cw h w = Some t
       ∧ Forall no_window t
       ∧ flat_map SPITFT.wire16 t = rows_values colors cw w (Z.to_nat h) off.
Proof.
  induction fuel as [|fuel IH]; intros h off Hcw Hw Hoff Hh Hfuel Hfit;
    [lia|].
  cbn [SPITFT.push_rows].
  destruct (h =? 0) eqn:E; zbool.
  - subst h. exists []. repeat split; constructor.
  - rewrite (u32_id cw) by (unfold is_u32; lia).
    unfold SPITFT.writePixels.
    destruct (0 <=? off) eqn:E1; [|zbool; lia].
    destruct (off + cw <=? Z.of_nat (length colors)) eqn:E2; [|zbool; nia].
    cbn [andb]. simpl.
    rewrite (wrap16_id (h - 1)) by (unfold in16; lia).
    destruct (IH (h - 1) (off + w)) as (t' & -> & Hnw & Hwire);
      try lia; try nia.
    simpl. eexists. split; [reflexivity|]. split.
    + apply Forall_app. split; [apply transfers_no_window|exact Hnw].
    + rewrite flat_map_app, wire16_transfers, Hwire.
      replace (Z.to_nat h) with (S (Z.to_nat (h - 1))) by lia. reflexivity.
Qed.

(** One row painted at the start of row [r0] of a window. *)
Lemma paint_row cx cy cw ch r0 (row : list Z) i j v :
  0 < cw → 0 <= r0 → Z.of_nat (length row) = cw →
  In (i, j, v) (SPITFT.paint_values (cx, cy, cw, ch) (r0 * cw) row)
  ↔ j = cy + r0 ∧ cx <= i < cx + cw ∧ row !! Z.to_nat (i - cx) = Some v.
Proof.
  intros Hcw Hr0 Hlen.
  assert (Hgen : ∀ (l : list Z) c,
    0 <= c → c + Z.of_nat (length l) <= cw →
    In (i, j, v) (SPITFT.paint_values (cx, cy, cw, ch) (r0 * cw + c) l)
    ↔ j = cy + r0 ∧ cx + c <= i < cx + c + Z.of_nat (length l)
      ∧ l !! Z.to_nat (i - cx - c) = Some v).
  { induction l as [|u l IHl]; intros c Hc Hfit.
    - simpl. split; [contradiction|]. lia.
    - cbn [SPITFT.paint_values In length]. cbn [length] in Hfit.
      replace (r0 * cw + c + 1) with (r0 * cw + (c + 1)) by lia.
      rewrite IHl by lia. unfold SPITFT.cell.
      rewrite (Z.add_comm (r0 * cw) c), Z.mod_add, Z.div_add by lia.
      rewrite Z.mod_small, Z.div_small by lia.
      split.
      + intros [[= <- <- <-] | (-> & Hi & Hl)].
        * split; [lia|]. split; [lia|].
          replace (cx + c - cx - c) with 0 by lia. reflexivity.
        * split; [reflexivity|]. split; [lia|].
          replace (Z.to_nat (i - cx - c))
            with (S (Z.to_nat (i - cx - (c + 1)))) by lia.
          exact Hl.
      + intros (-> & Hi & Hl).
        destruct (decide (i = cx + c)) as [->|Hne].
        * left. replace (cx + c - cx - c) with 0 in Hl by lia.
          simpl in Hl. injection Hl as ->. reflexivity.
        * right. split; [reflexivity|]. split; [lia|].
          replace (Z.to_nat (i - cx - c))
            with (S (Z.to_nat (i - cx - (c + 1)))) in Hl by lia.
          exact Hl. }
  specialize (Hgen row 0). rewrite Z.add_0_r in Hgen.
  rewrite Hgen by lia.
  replace (i - cx - 0) with (i - cx) by lia.
  split; intros (? & ? & ?); repeat split; try assumption; lia.
Qed.

(** The rows painted into a window of width [cw], from row [r0] on. *)
Lemma paint_rows colors cx cy cw ch w i j v : ∀ n r0 off,
  0 < cw → 0 <= w → 0 <= r0 → 0 <= off →
  (0 < Z.of_nat n →
   off + (Z.of_nat n - 1) * w + cw <= Z.of_nat (length colors)) →
  In (i, j, v)
    (SPITFT.paint_values (cx, cy, cw, ch) (r0 * cw)
       (rows_values colors cw w n off))
  ↔ cy + r0 <= j < cy + r0 + Z.of_nat n ∧ cx <= i < cx + cw
    ∧ colors !! Z.to_nat (off + (j - cy - r0) * w + (i - cx)) = Some v.
Proof.
  induction n as [|n IH]; intros r0 off Hcw Hw Hr0 Hoff Hfit.
  - simpl. split; [contradiction|]. lia.
  - cbn [rows_values]. rewrite paint_values_app, in_app_iff.
    assert (Hrow : Z.of_nat (length (take (Z.to_nat cw)
                                      (drop (Z.to_nat off) colors))) = cw).
    { rewrite length_take, length_drop. nia. }
    rewrite Hrow.
    replace (r0 * cw + cw) with ((r0 + 1) * cw) by lia.
    rewrite paint_row by (assumption || lia).
    rewrite IH by (try assumption; try lia; nia).
    split.
    + intros [(-> & Hi & Hl) | (Hj & Hi & Hl)].
      * rewrite lookup_take_lt, lookup_drop in Hl by lia.
        split; [lia|]. split; [lia|].
        replace (cy + r0 - cy - r0) with 0 by lia.
        replace (Z.to_nat (off + 0 * w + (i - cx)))
          with (Z.to_nat off + Z.to_nat (i - cx))%nat by lia.
        exact Hl.
      * split; [lia|]. split; [lia|].
        replace (off + (j - cy - r0) * w + (i - cx))
          with (off + w + (j - cy - (r0 + 1)) * w + (i - cx)) by lia.
        exact Hl.
    + intros (Hj & Hi & Hl).
      destruct (decide (j = cy + r0)) as [->|Hne].
      * left. split; [reflexivity|]. split; [lia|].
        rewrite lookup_take_lt, lookup_drop by lia.
        replace (cy + r0 - cy - r0) with 0 in Hl by lia.
        replace (Z.to_nat (off + 0 * w + (i - cx)))
          with (Z.to_nat off + Z.to_nat (i - cx))%nat in Hl by lia.
        exact Hl.
      * right. split; [lia|]. split; [lia|].
        replace (off + (j - cy - r0) * w + (i - cx))
          with (off + w + (j - cy - (r0 + 1)) * w + (i - cx)) in Hl by lia.
        exact Hl.
Qed.

(** A clipped window [(cx, cy, cw, ch)] fed from element [(bx1, by1)] of
    the bitmap on. *)
Lemma rgb_window colors w h cx cy cw ch bx1 by1 fuel :
  0 <= cx <= 32767 → 0 <= cy <= 32767 → 0 < cw <= 32767 → 0 < ch <= 32767 →
  0 <= bx1 → 0 <= by1 → bx1 + cw <= w → by1 + ch <= h →
  Z.of_nat (length colors) = w * h → 32767 < Z.of_nat fuel →
  ∃ t,
    (t0 ← SPITFT.push_rows fuel colors (by1 * w + bx1) cw ch w;
     Some (SPITFT.startWrite
             ++ SPITFT.SetAddrWindow (u16 cx) (u16 cy) (u16 cw) (u16 ch) :: t0
             ++ SPITFT.endWrite)) = Some t
    ∧ ∀ i j v,
        In (i, j, v) (SPITFT.painted t)
        ↔ cy <= j < cy + ch ∧ cx <= i < cx + cw
          ∧ colors !! Z.to_nat ((by1 + (j - cy)) * w + bx1 + (i - cx))
            = Some v.
Proof.
  intros Hcx Hcy Hcw Hch Hbx Hby Hfx Hfy Hlen Hfuel.
  destruct (push_rows_spec colors cw w fuel ch (by1 * w + bx1))
    as (t0 & -> & Hnw & Hwire); try lia; try nia.
  exists (SPITFT.startWrite
            ++ SPITFT.SetAddrWindow (u16 cx) (u16 cy) (u16 cw) (u16 ch) :: t0
            ++ SPITFT.endWrite).
  split; [reflexivity|].
  intros i j v.
  rewrite !u16_id by (unfold is_u16; lia).
  rewrite painted_transaction by exact Hnw. rewrite Hwire.
  change 0 with (0 * cw) at 1.
  rewrite paint_rows by (try lia; nia).
  replace (by1 * w + bx1 + (j - cy - 0) * w + (i - cx))
    with ((by1 + (j - cy)) * w + bx1 + (i - cx)) by lia.
  rewrite Z2Nat.id by lia. rewrite !Z.add_0_r. reflexivity.
Qed.

(** X4.  [Adafruit_SPITFT::drawRGBBitmap] of a [w] by [h] bitmap ([w],
    [h] positive, the far corner an [int16_t], neither coordinate of the
    near corner -32768) at [(x, y)] returns without
    reading outside the [w * h] array and paints exactly the pixels of the
    bitmap's rectangle that are on the screen, pixel [(i, j)] with the
    array element [(j - y) * w + (i - x)]; a bitmap fully off the screen
    puts nothing on the bus. *)
Theorem drawRGBBitmap_paints d x y pcolors w h fuel :
  let W := _width (SPITFT.base d) in
  let H := _height (SPITFT.base d) in
  0 < W <= 32767 → 0 < H <= 32767 →
  -32768 < x <= 32767 → -32768 < y <= 32767 →
  0 < w <= 32767 → 0 < h <= 32767 →
  in16 (x + w - 1) → in16 (y + h - 1) →
  Z.of_nat (length pcolors) = w * h → 32767 < Z.of_nat fuel →
  ∃ t, SPITFT.drawRGBBitmap fuel x y pcolors w h d = Some t
       ∧ (¬ (∃ i j, (x <= i < x + w ∧ y <= j < y + h) ∧ on_screen W H i j)
          → t = [])
       ∧ ∀ i j v,
           In (i, j, v) (SPITFT.painted t)
           ↔ (x <= i < x + w ∧ y <= j < y + h) ∧ on_screen W H i j
             ∧ pcolors !! Z.to_nat ((j - y) * w + (i - x)) = Some v.
Proof.
  intros W H HW HH Hx Hy Hw Hh Hx2 Hy2 Hlen Hfuel.
  unfold in16 in Hx2, Hy2. unfold on_screen.
  unfold SPITFT.drawRGBBitmap. fold W H.
  rewrite (wrap16_id (x + w - 1)), (wrap16_id (y + h - 1))
    by (unfold in16; lia).
  destruct ((x >=? W) || (y >=? H) || (x + w - 1 <? 0) || (y + h - 1 <? 0))
    eqn:Erej.
  - exists []. split; [reflexivity|]. split; [reflexivity|].
    intros i j v. simpl. split; [contradiction|].
    intros (Hr & Hs & _).
    destruct (x >=? W) eqn:E1, (y >=? H) eqn:E2, (x + w - 1 <? 0) eqn:E3,
      (y + h - 1 <? 0) eqn:E4; try discriminate; zbool; lia.
  - destruct (x >=? W) eqn:E1, (y >=? H) eqn:E2, (x + w - 1 <? 0) eqn:E3,
      (y + h - 1 <? 0) eqn:E4; try discriminate. zbool. clear Erej.
    destruct (x <? 0) eqn:A, (y <? 0) eqn:B, (x + w - 1 >=? W) eqn:C,
      (y + h - 1 >=? H) eqn:D; cbv beta iota; zbool;
      rewrite ?wrap16_id by (unfold in16; lia);
      match goal with
      | |- context [SPITFT.push_rows fuel pcolors (?by1 * w + ?bx1) ?cw ?ch w]
        => match goal with
           | |- context [SPITFT.SetAddrWindow (u16 ?cx) (u16 ?cy) _ _] =>
               destruct (rgb_window pcolors w h cx cy cw ch bx1 by1 fuel)
                 as (t & -> & Hpaint); try lia
           end
      end;
      (exists t; split; [reflexivity|]; split;
       [ intros Hno; exfalso; apply Hno;
         exists (Z.max 0 x), (Z.max 0 y); lia
       | intros i j v; rewrite Hpaint;
         match goal with
         | |- context [pcolors !! Z.to_nat ?e] =>
             replace e with ((j - y) * w + (i - x)) by lia
         end;
         split; intros (? & ? & ?); repeat split; try assumption; lia ]).
Qed.

Lemma drawRGBBitmap_paints_witness :
  ∃ t, SPITFT.drawRGBBitmap (Z.to_nat 32768) (-1) 1 [1; 2; 3; 4; 5; 6] 3 2
         (SPITFT.new 4 2 []) = Some t
       ∧ In (0, 1, 2) (SPITFT.painted t)
       ∧ ¬ In (-1, 1, 1) (SPITFT.painted t).
Proof.
  destruct (drawRGBBitmap_paints (SPITFT.new 4 2 []) (-1) 1
              [1; 2; 3; 4; 5; 6] 3 2 (Z.to_nat 32768))
    as (t & Ht & _ & Hp);
    [ change (0 < 4 <= 32767); lia | change (0 < 2 <= 32767); lia
    | lia | lia | lia | lia | unfold in16; lia | unfold in16; lia
    | reflexivity | lia | ].
  exists t. split; [exact Ht|]. split.
  - apply Hp. unfold on_screen.
    change (_width (SPITFT.base (SPITFT.new 4 2 []))) with 4.
    change (_height (SPITFT.base (SPITFT.new 4 2 []))) with 2.
    split; [lia|]. split; [lia|]. reflexivity.
  - intros Hin. apply Hp in Hin. unfold on_screen in Hin. lia.
Defined.

(** ** The hardware sink: nothing is painted off the screen *)






(** ** The canvases: where a pixel is stored *)

Lemma rotation_cases W H g :
  geometry_ok W H g →
  (rotation g = 0 ∧ _width g = W ∧ _height g = H)
  ∨ (rotation g = 1 ∧ _width g = H ∧ _height g = W)
  ∨ (rotation g = 2 ∧ _width g = W ∧ _height g = H)
  ∨ (rotation g = 3 ∧ _width g = H ∧ _height g = W).
Proof.
  intros (_ & _ & Hr & Hwh).
  assert (Hc : rotation g = 0 ∨ rotation g = 1 ∨ rotation g = 2
               ∨ rotation g = 3) by lia.
  destruct Hc as [E|[E|[E|E]]]; rewrite E in Hwh; simpl in Hwh;
    injection Hwh as Hw Hh; auto 10.
Qed.

(** The raw position of a logical position of the screen. *)
Lemma rotate_xy_value W H g x y :
  geometry_ok W H g → 0 <= W <= 32767 → 0 <= H <= 32767 →
  on_screen (_width g) (_height g) x y →
  rotate_xy g x y
  = (if rotation g =? 1 then W - 1 - y
     else if rotation g =? 2 then W - 1 - x
     else if rotation g =? 3 then y else x,
     if rotation g =? 1 then x
     else if rotation g =? 2 then H - 1 - y
     else if rotation g =? 3 then H - 1 - x else y)
  ∧ on_screen W H (rotate_xy g x y).1 (rotate_xy g x y).2.
Proof.
  intros Hg HW HH. pose proof Hg as (EW & EH & _).
  unfold on_screen, rotate_xy. rewrite EW, EH.
  destruct (rotation_cases W H g Hg)
    as [(-> & -> & ->)|[(-> & -> & ->)|[(-> & -> & ->)|(-> & -> & ->)]]];
    intros Hxy; cbv beta iota; simpl;
    rewrite ?wrap16_id by (unfold in16; lia); simpl; (split; [reflexivity|lia]).
Qed.

Lemma rotate_xy_injective W H g x y x' y' :
  geometry_ok W H g → 0 <= W <= 32767 → 0 <= H <= 32767 →
  on_screen (_width g) (_height g) x y →
  on_screen (_width g) (_height g) x' y' →
  rotate_xy g x y = rotate_xy g x' y' → x = x' ∧ y = y'.
Proof.
  intros Hg HW HH Hxy Hxy'.
  rewrite (proj1 (rotate_xy_value W H g x y Hg HW HH Hxy)).
  rewrite (proj1 (rotate_xy_value W H g x' y' Hg HW HH Hxy')).
  destruct (rotation_cases W H g Hg)
    as [(-> & _)|[(-> & _)|[(-> & _)|(-> & _)]]]; simpl;
    intros [= ? ?]; lia.
Qed.

Lemma rotate_xy_surjective W H g rx ry :
  geometry_ok W H g → 0 <= W <= 32767 → 0 <= H <= 32767 →
  on_screen W H rx ry →
  ∃ x y, on_screen (_width g) (_height g) x y ∧ rotate_xy g x y = (rx, ry).
Proof.
  intros Hg HW HH Hr. unfold on_screen in Hr.
  assert (Hex : ∃ x y, on_screen (_width g) (_height g) x y
    ∧ (if rotation g =? 1 then W - 1 - y
       else if rotation g =? 2 then W - 1 - x
       else if rotation g =? 3 then y else x,
       if rotation g =? 1 then x
       else if rotation g =? 2 then H - 1 - y
       else if rotation g =? 3 then H - 1 - x else y) = (rx, ry)).
  { unfold on_screen.
    destruct (rotation_cases W H g Hg)
      as [(-> & -> & ->)|[(-> & -> & ->)|[(-> & -> & ->)|(-> & -> & ->)]]];
      simpl.
    - exists rx, ry. split; [lia|reflexivity].
    - exists ry, (W - 1 - rx). split; [lia|]. f_equal; lia.
    - exists (W - 1 - rx), (H - 1 - ry). split; [lia|]. f_equal; lia.
    - exists (H - 1 - ry), rx. split; [lia|]. f_equal; lia. }
  destruct Hex as (x & y & Hxy & E). exists x, y. split; [exact Hxy|].
  rewrite (proj1 (rotate_xy_value W H g x y Hg HW HH Hxy)). exact E.
Qed.

(** X6.  The rotation switch of the canvases' [drawPixel] maps the logical
    screen one-to-one onto the raw buffer area [0, WIDTH) x [0, HEIGHT), at
    each of the four rotations. *)
Theorem rotate_xy_bijection W H g :
  geometry_ok W H g → 0 <= W <= 32767 → 0 <= H <= 32767 →
  (∀ x y, on_screen (_width g) (_height g) x y →
          on_screen W H (rotate_xy g x y).1 (rotate_xy g x y).2)
  ∧ (∀ x y x' y',
       on_screen (_width g) (_height g) x y →
       on_screen (_width g) (_height g) x' y' →
       rotate_xy g x y = rotate_xy g x' y' → x = x' ∧ y = y')
  ∧ (∀ rx ry, on_screen W H rx ry →
       ∃ x y, on_screen (_width g) (_height g) x y
              ∧ rotate_xy g x y = (rx, ry)).
Proof.
  intros Hg HW HH. split; [|split].
  - intros x y Hxy. apply (rotate_xy_value W H g x y Hg HW HH Hxy).
  - intros x y x' y'. apply (rotate_xy_injective W H); assumption.
  - intros rx ry. apply rotate_xy_surjective; assumption.
Qed.

Lemma rotate_xy_bijection_witness :
  on_screen 4 3 (rotate_xy (setRotation 1 (new_GFX 4 3)) 2 3).1
                (rotate_xy (setRotation 1 (new_GFX 4 3)) 2 3).2.
Proof.
  destruct (rotate_xy_bijection 4 3 (setRotation 1 (new_GFX 4 3)))
    as (Hin & _); [ | lia | lia | ].
  - apply (setRotation_ok 4 3 1 (new_GFX 4 3)). apply (new_GFX_ok 4 3).
  - apply Hin. change (on_screen 3 4 2 3). unfold on_screen. lia.
Defined.

(** ** The canvases: [drawPixel] changes one pixel *)

Lemma poke_frame buf k v buf' i :
  poke buf k v = Some buf' → 0 <= i →
  length buf' = length buf
  ∧ peek buf' i = if decide (i = k) then Some v else peek buf i.
Proof.
  unfold poke, peek. intros Hp Hi.
  destruct (0 <=? k) eqn:E1; [|discriminate].
  destruct (k <? Z.of_nat (length buf)) eqn:E2; [|discriminate].
  zbool. injection Hp as <-. split; [apply length_insert|].
  destruct (0 <=? i) eqn:E3; [|zbool; lia].
  destruct (decide (i = k)) as [->|Hne].
  - apply list_lookup_insert_eq. lia.
  - apply list_lookup_insert_ne. lia.
Qed.

Lemma poke_in_range buf k v :
  0 <= k < Z.of_nat (length buf) → is_Some (poke buf k v).
Proof.
  intros Hk. unfold poke.
  destruct (0 <=? k) eqn:E1; [|zbool; lia].
  destruct (k <? Z.of_nat (length buf)) eqn:E2; [|zbool; lia]. eauto.
Qed.

Lemma on_screen_on_canvas g x y :
  on_screen (_width g) (_height g) x y → off_canvas g x y = false.
Proof.
  unfold on_screen, off_canvas. intros Hxy.
  destruct (x <? 0) eqn:E1, (y <? 0) eqn:E2, (x >=? _width g) eqn:E3,
    (y >=? _height g) eqn:E4; try reflexivity; zbool; lia.
Qed.

(** Cells of a row-major buffer of width [W]. *)
Lemma cell_index W rx ry rx' ry' :
  0 <= rx < W → 0 <= rx' < W →
  rx + ry * W = rx' + ry' * W → rx = rx' ∧ ry = ry'.
Proof. intros. assert (ry = ry') by nia. subst. lia. Qed.

(** The mask [0x80 >> (x & 7)] is bit [7 - x mod 8]. *)
Lemma pixel_mask x : Z.shiftr 0x80 (Z.land x 7) = 2 ^ (7 - x mod 8).
Proof.
  change 7 with (Z.ones 3) at 1. rewrite Z.land_ones by lia.
  change (2 ^ 3) with 8.
  assert (Hk : 0 <= x mod 8 < 8) by elia.
  apply (range_check
           (λ k, Z.shiftr 0x80 k =? 2 ^ (7 - k)) 8) in Hk;
    [apply Z.eqb_eq; exact Hk | vm_compute; reflexivity].
Qed.

Lemma land_pow2 z j :
  0 <= j → (Z.land z (2 ^ j) =? 0) = negb (Z.testbit z j).
Proof.
  intros Hj.
  assert (E : Z.land z (2 ^ j) = if Z.testbit z j then 2 ^ j else 0).
  { apply Z.bits_inj'. intros n Hn. rewrite Z.land_spec, Z.pow2_bits_eqb by lia.
    destruct (Z.eqb_spec j n) as [->|Hne].
    - destruct (Z.testbit z n); [|rewrite Z.bits_0; reflexivity].
      rewrite Z.pow2_bits_true by lia. reflexivity.
    - rewrite andb_false_r.
      destruct (Z.testbit z j); [|rewrite Z.bits_0; reflexivity].
      rewrite Z.pow2_bits_false by lia. reflexivity. }
  rewrite E. destruct (Z.testbit z j); [|reflexivity].
  apply Z.eqb_neq. lia.
Qed.

(** Setting or clearing the bit of column [x] in a byte, read at the bit
    of column [x']. *)
Lemma bit_update old x x' color :
  let new := if color =? 0
             then u8 (Z.land old (Z.lnot (Z.shiftr 0x80 (Z.land x 7))))
             else u8 (Z.lor old (Z.shiftr 0x80 (Z.land x 7))) in
  negb (Z.land new (Z.shiftr 0x80 (Z.land x' 7)) =? 0)
  = if x mod 8 =? x' mod 8 then negb (color =? 0)
    else negb (Z.land old (Z.shiftr 0x80 (Z.land x' 7)) =? 0).
Proof.
  cbv zeta. rewrite !pixel_mask.
  assert (Hk : 0 <= x mod 8 < 8) by elia.
  assert (Hk' : 0 <= x' mod 8 < 8) by elia.
  rewrite !land_pow2, !negb_involutive by lia.
  unfold u8. change 256 with (2 ^ 8).
  destruct (color =? 0); rewrite Z.mod_pow2_bits_low by lia.
  - rewrite Z.land_spec, Z.lnot_spec, Z.pow2_bits_eqb by lia.
    destruct (Z.eqb_spec (x mod 8) (x' mod 8)) as [E|E].
    + rewrite (proj2 (Z.eqb_eq _ _)) by lia. apply andb_false_r.
    + rewrite (proj2 (Z.eqb_neq _ _)) by lia. apply andb_true_r.
  - rewrite Z.lor_spec, Z.pow2_bits_eqb by lia.
    destruct (Z.eqb_spec (x mod 8) (x' mod 8)) as [E|E].
    + rewrite (proj2 (Z.eqb_eq _ _)) by lia. apply orb_true_r.
    + rewrite (proj2 (Z.eqb_neq _ _)) by lia. apply orb_false_r.
Qed.

(** Bytes of a 1-bit buffer of raw width [W]. *)
Lemma byte_index W rx ry rx' ry' :
  0 <= rx < W → 0 <= rx' < W →
  rx ÷ 8 + ry * Canvas1.stride W = rx' ÷ 8 + ry' * Canvas1.stride W →
  rx mod 8 = rx' mod 8 → rx = rx' ∧ ry = ry'.
Proof.
  unfold Canvas1.stride. intros Hx Hx' E Em.
  assert (0 <= rx ÷ 8 < (W + 7) ÷ 8) by elia.
  assert (0 <= rx' ÷ 8 < (W + 7) ÷ 8) by elia.
  assert (ry = ry') by nia. subst ry'.
  assert (rx ÷ 8 = rx' ÷ 8) by lia.
  split; [elia|reflexivity].
Qed.

Lemma byte_in_buffer W H rx ry :
  0 <= rx < W → 0 <= ry < H →
  0 <= rx ÷ 8 + ry * Canvas1.stride W < Canvas1.stride W * H.
Proof.
  unfold Canvas1.stride. intros Hx Hy.
  assert (0 <= rx ÷ 8 < (W + 7) ÷ 8) by elia. nia.
Qed.

(** X7.  On a canvas of any depth and at any rotation, [drawPixel] at a
    position of the logical screen returns, keeps the buffer's size, makes
    the raw pixel at the rotated position read as the colour the canvas
    stores (the bit "not zero", the low 8 bits, or all 16 bits) and leaves
    every other raw pixel as it was. *)
Theorem drawPixel_writes_one_pixel d W H g buf x y color :
  geometry_ok W H g → 0 <= W <= 32767 → 0 <= H <= 32767 →
  Z.of_nat (length buf) = buffer_cells d W H →
  on_screen (_width g) (_height g) x y →
  ∃ buf',
    Offscreen.drawPixel d x y color {| gfx := g; buffer := Some buf |}
    = Some {| gfx := g; buffer := Some buf' |}
    ∧ length buf' = length buf
    ∧ raw_at d {| gfx := g; buffer := Some buf' |}
        (rotate_xy g x y).1 (rotate_xy g x y).2 = Some (stored d color)
    ∧ ∀ rx ry,
        on_screen W H rx ry → (rx, ry) ≠ rotate_xy g x y →
        raw_at d {| gfx := g; buffer := Some buf' |} rx ry
        = raw_at d {| gfx := g; buffer := Some buf |} rx ry.
Proof.
  intros Hg HW HH Hlen Hxy. pose proof Hg as (EW & _).
  pose proof (proj2 (rotate_xy_value W H g x y Hg HW HH Hxy)) as Hon.
  pose proof (on_screen_on_canvas g x y Hxy) as Hoff.
  destruct (rotate_xy g x y) as [px py] eqn:Ep. cbn [fst snd] in Hon |- *.
  unfold on_screen in Hon.
  destruct d; cbn [Offscreen.drawPixel raw_at stored buffer_cells] in *.
  - (* 1 bit per pixel *)
    unfold Canvas1.drawPixel, Canvas1.raw. cbn [buffer gfx mbind option_bind].
    rewrite Hoff, Ep, EW.
    pose proof (byte_in_buffer W H px py (proj1 Hon) (proj2 Hon)) as Hptr.
    set (ptr := px ÷ 8 + py * Canvas1.stride W) in *.
    assert (is_Some (peek buf ptr)) as [old Eold].
    { unfold peek. destruct (0 <=? ptr) eqn:E; [|zbool; lia].
      apply lookup_lt_is_Some. lia. }
    rewrite Eold. cbn [mbind option_bind].
    match goal with
    | |- context [poke buf ptr ?v] =>
        set (new := v);
        destruct (poke_in_range buf ptr new) as [buf' Epoke]; [lia|]
    end.
    rewrite Epoke. exists buf'. cbn [mbind option_bind].
    split; [reflexivity|].
    split; [apply (poke_frame buf ptr new buf' 0 Epoke); lia|].
    split.
    + destruct (poke_frame buf ptr new buf' ptr Epoke) as [_ ->]; [lia|].
      rewrite decide_True by reflexivity. cbn [mbind option_bind fmap option_fmap option_map].
      unfold new. rewrite bit_update, Z.eqb_refl.
      destruct (color =? 0); reflexivity.
    + intros rx ry Hr Hne. unfold on_screen in Hr.
      pose proof (byte_in_buffer W H rx ry (proj1 Hr) (proj2 Hr)) as Hq.
      destruct (poke_frame buf ptr new buf' (rx ÷ 8 + ry * Canvas1.stride W)
                  Epoke) as [_ ->]; [lia|].
      destruct (decide (rx ÷ 8 + ry * Canvas1.stride W = ptr)) as [E|E];
        [|reflexivity].
      rewrite E, Eold. cbn [mbind option_bind fmap option_fmap option_map].
      unfold new. rewrite bit_update.
      destruct (Z.eqb_spec (px mod 8) (rx mod 8)) as [Em|Em]; [|reflexivity].
      exfalso. apply Hne.
      destruct (byte_index W rx ry px py) as [-> ->];
        [lia | lia | exact E | lia | reflexivity].
  - (* 8 bits per pixel *)
    unfold Canvas8.drawPixel, Canvas8.raw. cbn [buffer gfx mbind option_bind].
    rewrite Hoff, Ep, EW.
    destruct (poke_in_range buf (px + py * W) (u8 color)) as [buf' Epoke];
      [nia|].
    rewrite Epoke. exists buf'. cbn [mbind option_bind].
    split; [reflexivity|].
    split; [apply (poke_frame buf _ _ buf' 0 Epoke); lia|].
    split.
    + destruct (poke_frame buf _ _ buf' (px + py * W) Epoke) as [_ ->];
        [nia|].
      apply decide_True. reflexivity.
    + intros rx ry Hr Hne. unfold on_screen in Hr.
      destruct (poke_frame buf _ _ buf' (rx + ry * W) Epoke) as [_ ->];
        [nia|].
      apply decide_False. intros E. apply Hne.
      destruct (cell_index W rx ry px py) as [-> ->];
        [lia | lia | exact E | reflexivity].
  - (* 16 bits per pixel *)
    unfold Canvas16.drawPixel, Canvas16.raw. cbn [buffer gfx mbind option_bind].
    rewrite Hoff, Ep, EW.
    destruct (poke_in_range buf (px + py * W) (u16 color)) as [buf' Epoke];
      [nia|].
    rewrite Epoke. exists buf'. cbn [mbind option_bind].
    split; [reflexivity|].
    split; [apply (poke_frame buf _ _ buf' 0 Epoke); lia|].
    split.
    + destruct (poke_frame buf _ _ buf' (px + py * W) Epoke) as [_ ->];
        [nia|].
      apply decide_True. reflexivity.
    + intros rx ry Hr Hne. unfold on_screen in Hr.
      destruct (poke_frame buf _ _ buf' (rx + ry * W) Epoke) as [_ ->];
        [nia|].
      apply decide_False. intros E. apply Hne.
      destruct (cell_index W rx ry px py) as [-> ->];
        [lia | lia | exact E | reflexivity].
Qed.

(** ** The canvases: [fillScreen] *)

Lemma memset_all buf v n :
  Z.of_nat (length buf) = n →
  memset buf 0 v n = Some (replicate (length buf) (u8 v)).
Proof.
  intros Hn. unfold memset.
  destruct (0 <=? n) eqn:E1; [|zbool; lia].
  destruct (0 + n <=? Z.of_nat (length buf)) eqn:E2; [|zbool; lia].
  cbn [Z.leb andb Z.to_nat take app]. simpl.
  rewrite drop_ge by lia. rewrite app_nil_r. do 2 f_equal. lia.
Qed.

Lemma store_all_spec v : ∀ idx buf,
  (∀ i, i ∈ idx → 0 <= i < Z.of_nat (length buf)) →
  ∃ buf', Canvas16.store_all buf idx v = Some buf'
    ∧ length buf' = length buf
    ∧ ∀ k, 0 <= k →
        peek buf' k = if decide (k ∈ idx) then Some v else peek buf k.
Proof.
  induction idx as [|i idx IH]; intros buf Hin.
  - exists buf. split; [reflexivity|]. split; [reflexivity|].
    intros k Hk. rewrite decide_False; [reflexivity|]. apply not_elem_of_nil.
  - cbn [Canvas16.store_all].
    destruct (poke_in_range buf i v) as [buf1 E1]; [apply Hin; left|].
    rewrite E1. cbn [mbind option_bind].
    pose proof (poke_frame buf i v buf1 0 E1 ltac:(lia)) as [Hl1 _].
    destruct (IH buf1) as (buf' & E & Hl & Hread).
    { intros j Hj. rewrite Hl1. apply Hin. right. exact Hj. }
    exists buf'. split; [exact E|]. split; [congruence|].
    intros k Hk. rewrite (Hread k Hk).
    destruct (poke_frame buf i v buf1 k E1 Hk) as [_ ->].
    destruct (decide (k ∈ idx)) as [Hk'|Hk'].
    + rewrite decide_True by (right; exact Hk'). reflexivity.
    + destruct (decide (k = i)) as [->|Hne].
      * rewrite decide_True by left. reflexivity.
      * rewrite decide_False; [reflexivity|].
        intros Hc. apply elem_of_cons in Hc as [?|?]; contradiction.
Qed.

(** A byte [b] repeated twice is the word both of whose bytes are [b]. *)
Lemma equal_bytes color :
  is_u16 color →
  u8 (Z.shiftr color 8) = u8 (Z.land color 0xff) →
  Z.lor (Z.shiftl (u8 (Z.land color 0xff)) 8) (u8 (Z.land color 0xff)) = color.
Proof.
  unfold is_u16, u8. intros Hc.
  change 0xff with (Z.ones 8). rewrite Z.land_ones by lia.
  rewrite Z.shiftr_div_pow2 by lia.
  change (2 ^ 8) with 256. intros E.
  rewrite Z.mod_mod in * by lia.
  rewrite (Z.mod_small (color / 256)) in E by elia.
  rewrite lor_shifted; change (2 ^ 8) with 256; elia.
Qed.

(** X8.  [fillScreen] of a canvas of any depth returns, keeps the buffer's
    size and makes every raw pixel read as the stored colour; for the
    16-bit canvas this holds on the byte-fill path (both bytes of the
    colour equal) and on the word loop alike. *)
Theorem fillScreen_fills_buffer d W H g buf color :
  geometry_ok W H g → 0 <= W <= 32767 → 0 <= H <= 32767 →
  Z.of_nat (length buf) = buffer_cells d W H → is_u16 color →
  ∃ buf',
    Offscreen.fillScreen d color {| gfx := g; buffer := Some buf |}
    = Some {| gfx := g; buffer := Some buf' |}
    ∧ length buf' = length buf
    ∧ ∀ rx ry,
        on_screen W H rx ry →
        raw_at d {| gfx := g; buffer := Some buf' |} rx ry
        = Some (stored d color).
Proof.
  intros Hg HW HH Hlen Hc. pose proof Hg as (EW & EH & _).
  destruct d; cbn [Offscreen.fillScreen raw_at stored buffer_cells] in *.
  - unfold Canvas1.fillScreen, Canvas1.raw. cbn [buffer gfx]. rewrite EW, EH.
    assert (Hs : 0 <= Canvas1.stride W <= 4096) by (unfold Canvas1.stride; elia).
    rewrite u32_id by (unfold is_u32; nia).
    rewrite memset_all by exact Hlen. cbn [mbind option_bind].
    eexists. split; [reflexivity|]. split; [apply length_replicate|].
    intros rx ry [Hx Hy].
    pose proof (byte_in_buffer W H rx ry Hx Hy) as Hptr.
    rewrite peek_replicate by lia. cbn [mbind option_bind fmap option_fmap option_map].
    rewrite pixel_mask, land_pow2 by elia.
    assert (Hk : 0 <= rx mod 8 < 8) by elia.
    destruct (color =? 0); cbn [u8].
    + rewrite Z.bits_0. reflexivity.
    + change (u8 255) with (Z.ones 8). rewrite Z.ones_spec_low by lia.
      reflexivity.
  - unfold Canvas8.fillScreen, Canvas8.raw. cbn [buffer gfx]. rewrite EW, EH.
    rewrite u32_id by (unfold is_u32; nia).
    rewrite memset_all by exact Hlen. cbn [mbind option_bind].
    eexists. split; [reflexivity|]. split; [apply length_replicate|].
    intros rx ry [Hx Hy]. apply peek_replicate. nia.
  - unfold Canvas16.fillScreen, Canvas16.raw. cbn [buffer gfx]. rewrite EW, EH.
    cbv zeta. rewrite !(u16_id color) by exact Hc.
    destruct (u8 (Z.shiftr color 8) =? u8 (Z.land color 255)) eqn:Eq.
    + zbool. rewrite u32_id by (unfold is_u32; nia).
      destruct (W * H * 2 <=? 2 * Z.of_nat (length buf)) eqn:El;
        [|zbool; lia].
      rewrite equal_bytes by assumption.
      replace (W * H * 2 ÷ 2) with (W * H) by elia.
      rewrite drop_ge by lia. rewrite app_nil_r.
      eexists. split; [reflexivity|].
      split; [rewrite length_replicate; lia|].
      intros rx ry [Hx Hy]. cbn [mbind option_bind].
      apply peek_replicate. nia.
    + rewrite u32_id by (unfold is_u32; nia).
      destruct (store_all_spec color (seqZ 0 (W * H)) buf)
        as (buf' & -> & Hl & Hread).
      { intros i Hi. apply elem_of_seqZ in Hi. lia. }
      cbn [mbind option_bind].
      exists buf'. split; [reflexivity|]. split; [exact Hl|].
      intros rx ry [Hx Hy]. rewrite Hread by nia.
      apply decide_True. apply elem_of_seqZ. nia.
Qed.

Lemma drawPixel_writes_one_pixel_witness :
  ∃ buf',
    Offscreen.drawPixel Bpp1 1 2 1
      {| gfx := setRotation 3 (new_GFX 10 3);
         buffer := Some (replicate 6 0) |}
    = Some {| gfx := setRotation 3 (new_GFX 10 3); buffer := Some buf' |}
    ∧ raw_at Bpp1
        {| gfx := setRotation 3 (new_GFX 10 3); buffer := Some buf' |} 2 1
      = Some 1.
Proof.
  destruct (drawPixel_writes_one_pixel Bpp1 10 3
              (setRotation 3 (new_GFX 10 3)) (replicate 6 0) 1 2 1)
    as (buf' & E & _ & Hset & _);
    [ apply (setRotation_ok 10 3 3 (new_GFX 10 3)), (new_GFX_ok 10 3)
    | lia | lia | reflexivity
    | change (on_screen 3 10 1 2); unfold on_screen; lia | ].
  exists buf'. split; [exact E|]. exact Hset.
Defined.

Lemma fillScreen_fills_buffer_witness :
  ∃ buf',
    Offscreen.fillScreen Bpp16 0x1234
      {| gfx := new_GFX 3 2; buffer := Some (replicate 6 0) |}
    = Some {| gfx := new_GFX 3 2; buffer := Some buf' |}
    ∧ raw_at Bpp16 {| gfx := new_GFX 3 2; buffer := Some buf' |} 2 1
      = Some 0x1234.
Proof.
  destruct (fillScreen_fills_buffer Bpp16 3 2 (new_GFX 3 2) (replicate 6 0)
              0x1234)
    as (buf' & E & _ & Hread);
    [ apply (new_GFX_ok 3 2) | lia | lia | reflexivity
    | unfold is_u16; lia | ].
  exists buf'. split; [exact E|].
  apply Hread. unfold on_screen. lia.
Defined.

(** ** Bresenham's line on the inherited members *)

Lemma bres_loop steep X0 Y0 X1 Y1 color :
  let dx := X1 - X0 in
  let dy := Z.abs (Y1 - Y0) in
  let ystep := if Y0 <? Y1 then 1 else -1 in
  0 <= dx <= 32767 → dy <= dx → in16 X0 → in16 Y0 → in16 Y1 → X1 < 32767 →
  ∀ fuel x y err t,
    X0 <= x <= X1 →
    err = dx ÷ 2 + ystep * (y - Y0) * dx - (x - X0) * dy →
    0 <= err → err < dx ∨ dx = 0 →
    0 <= ystep * (y - Y0) <= dy →
    X1 - x + 1 < Z.of_nat fuel →
    ∃ l,
      GFX.writeLine_loop Inherited.writePixel fuel steep x X1 y err dx dy
        ystep color t
      = Some (t ++ (emit_point steep color <$> l))
      ∧ l.*1 = seqZ x (X1 - x + 1)
      ∧ Forall (near_line X0 Y0 X1 Y1) l.
Proof.
  intros dx dy ystep Hdx Hdy HX0 HY0 HY1 HX1.
  unfold in16 in HX0, HY0, HY1.
  assert (Hstep : ystep * dy = Y1 - Y0 ∧ (ystep = 1 ∨ ystep = -1)).
  { unfold ystep, dy. destruct (Y0 <? Y1) eqn:E; zbool; lia. }
  destruct Hstep as [Hsd Hs].
  induction fuel as [|fuel IH]; intros x y err t Hx Herr He0 He1 Hm Hfuel;
    [lia|].
  cbn [GFX.writeLine_loop].
  destruct (x <=? X1) eqn:E; [|zbool; lia].
  assert (Hy : Z.min Y0 Y1 <= y <= Z.max Y0 Y1) by nia.
  assert (Hele : err <= dx).
  { destruct He1 as [He1|He1]; [lia|].
    assert (Hq : dx ÷ 2 = 0) by (rewrite He1; reflexivity).
    rewrite Herr, Hq, He1. assert (dy = 0) by lia. nia. }
  assert (Hnear : near_line X0 Y0 X1 Y1 (x, y)).
  { unfold near_line. cbn [fst snd]. split; [lia|]. split; [lia|].
    assert (HD : ystep * ((y - Y0) * (X1 - X0) - (x - X0) * (Y1 - Y0))
                 = err - dx ÷ 2) by (rewrite <- Hsd; fold dx; nia).
    assert (Hmax : Z.max (Z.abs (X1 - X0)) (Z.abs (Y1 - Y0)) = dx)
      by (fold dx dy; lia).
    rewrite Hmax.
    assert (Habs : Z.abs ((y - Y0) * (X1 - X0) - (x - X0) * (Y1 - Y0))
                   = Z.abs (err - dx ÷ 2))
      by (destruct Hs as [Hs|Hs]; rewrite Hs in HD;
          revert HD;
          generalize ((y - Y0) * (X1 - X0) - (x - X0) * (Y1 - Y0));
          generalize (err - dx ÷ 2); intros; lia).
    rewrite Habs. destruct He1 as [He1|He1].
    - elia.
    - assert (Hq : dx ÷ 2 = 0) by (rewrite He1; reflexivity).
      rewrite Hq. lia. }
  assert (Hemit : (if steep then Inherited.writePixel y x color t
                   else Inherited.writePixel x y color t)
                  = Some (t ++ [emit_point steep color (x, y)])).
  { destruct steep; reflexivity. }
  rewrite Hemit. cbn [mbind option_bind].
  rewrite (wrap16_id (x + 1)) by (unfold in16; lia).
  rewrite (wrap16_id (err - dy)) by (unfold in16; lia).
  destruct (decide (x = X1)) as [->|Hne].
  - (* the last point *)
    exists [(X1, y)]. split.
    + destruct fuel as [|fuel]; [lia|].
      destruct (err - dy <? 0); cbn [GFX.writeLine_loop];
        (destruct (X1 + 1 <=? X1) eqn:E2; [zbool; lia|]); reflexivity.
    + split; [|constructor; [exact Hnear|constructor]].
      replace (X1 - X1 + 1) with 1 by lia. reflexivity.
  - destruct (err - dy <? 0) eqn:Eneg; zbool.
    + (* step along the minor axis *)
      assert (Hdx0 : 0 < dx) by lia.
      assert (Hm' : ystep * (y + ystep - Y0) = ystep * (y - Y0) + 1)
        by (destruct Hs as [-> | ->]; lia).
      assert (Hle : ystep * (y - Y0) + 1 <= dy).
      { assert ((ystep * (y - Y0) + 1) * dx < (dy + 1) * dx); [|nia].
        assert (0 <= dx ÷ 2 < dx) by elia. nia. }
      rewrite (wrap16_id (y + ystep)) by (unfold in16; nia).
      rewrite (wrap16_id (err - dy + dx)) by (unfold in16; lia).
      destruct (IH (x + 1) (y + ystep) (err - dy + dx)
                  (t ++ [emit_point steep color (x, y)]))
        as (l & -> & Hfst & Hall); try lia; try (rewrite Herr; nia).
      exists ((x, y) :: l). split; [rewrite <- app_assoc; reflexivity|].
      split; [|constructor; assumption].
      cbn [fmap list_fmap fst]. rewrite (seqZ_cons x) by lia.
      f_equal. rewrite Hfst. f_equal; lia.
    + destruct (IH (x + 1) y (err - dy)
                  (t ++ [emit_point steep color (x, y)]))
        as (l & -> & Hfst & Hall); try lia; try (rewrite Herr; nia).
      exists ((x, y) :: l). split; [rewrite <- app_assoc; reflexivity|].
      split; [|constructor; assumption].
      cbn [fmap list_fmap fst]. rewrite (seqZ_cons x) by lia.
      f_equal. rewrite Hfst. f_equal; lia.
Qed.

Lemma near_line_sym x0 y0 x1 y1 p :
  near_line x0 y0 x1 y1 p → near_line x1 y1 x0 y0 p.
Proof.
  unfold near_line. intros (Hx & Hy & Hd).
  split; [lia|]. split; [lia|].
  replace ((p.2 - y1) * (x0 - x1) - (p.1 - x1) * (y0 - y1))
    with (- ((p.2 - y0) * (x1 - x0) - (p.1 - x0) * (y1 - y0))) by ring.
  rewrite Z.abs_opp. lia.
Qed.

Lemma near_line_swap x0 y0 x1 y1 p :
  near_line y0 x0 y1 x1 p → near_line x0 y0 x1 y1 (p.2, p.1).
Proof.
  unfold near_line. cbn [fst snd]. intros (Hx & Hy & Hd).
  split; [lia|]. split; [lia|].
  replace ((p.1 - y0) * (x1 - x0) - (p.2 - x0) * (y1 - y0))
    with (- ((p.2 - x0) * (y1 - y0) - (p.1 - y0) * (x1 - x0))) by ring.
  rewrite Z.abs_opp. lia.
Qed.

(** On the major axis the half-pixel bound pins the end points. *)
Lemma near_line_ends X0 Y0 X1 Y1 (l : list (Z * Z)) :
  X0 <= X1 → Z.abs (Y1 - Y0) <= X1 - X0 →
  l.*1 = seqZ X0 (X1 - X0 + 1) → Forall (near_line X0 Y0 X1 Y1) l →
  (X0, Y0) ∈ l ∧ (X1, Y1) ∈ l.
Proof.
  intros Hle Hdy Hfst Hall. rewrite list.Forall_forall in Hall.
  assert (Hcol : ∀ X, X0 <= X <= X1 → ∃ Y, (X, Y) ∈ l).
  { intros X HX. assert (Hin : X ∈ l.*1).
    { rewrite Hfst. apply elem_of_seqZ. lia. }
    apply list_elem_of_fmap in Hin as ([a b] & -> & Hin). eauto. }
  split.
  - destruct (Hcol X0) as (Y & HY); [lia|].
    pose proof (Hall _ HY) as (_ & Hy & Hd). cbn [fst snd] in Hy, Hd.
    assert (Y = Y0) as ->; [|exact HY].
    destruct (decide (X1 = X0)) as [E|E]; [lia|].
    replace ((Y - Y0) * (X1 - X0) - (X0 - X0) * (Y1 - Y0))
      with ((Y - Y0) * (X1 - X0)) in Hd by ring.
    nia.
  - destruct (Hcol X1) as (Y & HY); [lia|].
    pose proof (Hall _ HY) as (_ & Hy & Hd). cbn [fst snd] in Hy, Hd.
    assert (Y = Y1) as ->; [|exact HY].
    destruct (decide (X1 = X0)) as [E|E]; [lia|].
    replace ((Y - Y0) * (X1 - X0) - (X1 - X0) * (Y1 - Y0))
      with ((Y - Y1) * (X1 - X0)) in Hd by ring.
    nia.
Qed.

(** The normalised line: [X0 <= X1] along the major axis. *)
Lemma bres_line steep X0 Y0 X1 Y1 color fuel t :
  in16 X0 → in16 Y0 → in16 Y1 → X1 < 32767 →
  X0 <= X1 → X1 - X0 <= 32767 → Z.abs (Y1 - Y0) <= X1 - X0 →
  32768 < Z.of_nat fuel →
  ∃ l,
    GFX.writeLine_loop Inherited.writePixel fuel steep X0 X1 Y0
      (wrap16 (wrap16 (X1 - X0) ÷ 2)) (wrap16 (X1 - X0))
      (wrap16 (Z.abs (Y1 - Y0))) (if Y0 <? Y1 then 1 else -1) color t
    = Some (t ++ (emit_point steep color <$> l))
    ∧ l.*1 = seqZ X0 (X1 - X0 + 1)
    ∧ Forall (near_line X0 Y0 X1 Y1) l
    ∧ (X0, Y0) ∈ l ∧ (X1, Y1) ∈ l.
Proof.
  intros HX0 HY0 HY1 HX1 Hle Hdx Hdy Hfuel.
  rewrite (wrap16_id (X1 - X0)), (wrap16_id (Z.abs (Y1 - Y0)))
    by (unfold in16; lia).
  rewrite (wrap16_id ((X1 - X0) ÷ 2)) by (unfold in16; elia).
  destruct (bres_loop steep X0 Y0 X1 Y1 color) with
    (fuel := fuel) (x := X0) (y := Y0) (err := (X1 - X0) ÷ 2) (t := t)
    as (l & E & Hfst & Hall); try assumption; try lia.
  - elia.
  - elia.
  - exists l. split; [exact E|]. split; [exact Hfst|].
    split; [exact Hall|]. apply near_line_ends; assumption.
Qed.

(** X10.  [Adafruit_GFX::writeLine] between two points whose coordinates
    are below 32767 and at most 32767 apart returns after drawing
    [max(|x1 - x0|, |y1 - y0|) + 1] pixels: one for every step of the
    major axis, in increasing order; each lies in the bounding box of the
    segment and within half a pixel of the ideal line along the minor
    axis; both end points are drawn. *)
Theorem writeLine_is_bresenham fuel x0 y0 x1 y1 color t :
  in16 x0 → in16 y0 → in16 x1 → in16 y1 →
  x0 < 32767 → y0 < 32767 → x1 < 32767 → y1 < 32767 →
  Z.abs (x1 - x0) <= 32767 → Z.abs (y1 - y0) <= 32767 →
  32768 < Z.of_nat fuel →
  let n := Z.max (Z.abs (x1 - x0)) (Z.abs (y1 - y0)) in
  ∃ l,
    Inherited.writeLine fuel x0 y0 x1 y1 color t
    = Some (t ++ ((λ p, Inherited.DrawPixel p.1 p.2 color) <$> l))
    ∧ Z.of_nat (length l) = n + 1
    ∧ (if Z.abs (y1 - y0) >? Z.abs (x1 - x0)
       then l.*2 = seqZ (Z.min y0 y1) (n + 1)
       else l.*1 = seqZ (Z.min x0 x1) (n + 1))
    ∧ Forall (near_line x0 y0 x1 y1) l
    ∧ (x0, y0) ∈ l ∧ (x1, y1) ∈ l.
Proof.
  intros Hx0 Hy0 Hx1 Hy1 Mx0 My0 Mx1 My1 Hdx Hdy Hfuel n.
  unfold Inherited.writeLine, GFX.writeLine.
  assert (Hlen : ∀ (l : list (Z * Z)) a, l.*1 = seqZ a (n + 1) →
                 Z.of_nat (length l) = n + 1).
  { intros l a E. rewrite <- (length_fmap fst l), E, length_seqZ. lia. }
  destruct (Z.abs (y1 - y0) >? Z.abs (x1 - x0)) eqn:Es; zbool.
  - (* steep *)
    assert (Hsw : ∀ l : list (Z * Z),
      emit_point true color <$> l
      = (λ p, Inherited.DrawPixel p.1 p.2 color) <$> ((λ p, (p.2, p.1)) <$> l)).
    { intros l. rewrite <- list_fmap_compose. reflexivity. }
    assert (Hfs : ∀ l : list (Z * Z), ((λ p, (p.2, p.1)) <$> l).*2 = l.*1).
    { intros l. rewrite <- list_fmap_compose. reflexivity. }
    destruct (y0 >? y1) eqn:E; zbool.
    + destruct (bres_line true y1 x1 y0 x0 color fuel t)
        as (l & -> & Hfst & Hall & Ha & Hb); try assumption; try lia.
      exists ((λ p, (p.2, p.1)) <$> l). rewrite Hsw, Hfs.
      assert (Hn : y0 - y1 = n) by (unfold n; lia).
      assert (Hmin : Z.min y0 y1 = y1) by lia.
      rewrite Hn in Hfst. rewrite Hmin.
      split; [reflexivity|].
      split; [rewrite length_fmap; apply (Hlen l y1 Hfst)|].
      split; [exact Hfst|]. split; [|split].
      * apply Forall_fmap. eapply Forall_impl; [|exact Hall].
        intros p Hp. apply near_line_swap, near_line_sym. exact Hp.
      * apply (list_elem_of_fmap_2 (λ p, (p.2, p.1)) l (y0, x0)). exact Hb.
      * apply (list_elem_of_fmap_2 (λ p, (p.2, p.1)) l (y1, x1)). exact Ha.
    + destruct (bres_line true y0 x0 y1 x1 color fuel t)
        as (l & -> & Hfst & Hall & Ha & Hb); try assumption; try lia.
      exists ((λ p, (p.2, p.1)) <$> l). rewrite Hsw, Hfs.
      assert (Hn : y1 - y0 = n) by (unfold n; lia).
      assert (Hmin : Z.min y0 y1 = y0) by lia.
      rewrite Hn in Hfst. rewrite Hmin.
      split; [reflexivity|].
      split; [rewrite length_fmap; apply (Hlen l y0 Hfst)|].
      split; [exact Hfst|]. split; [|split].
      * apply Forall_fmap. eapply Forall_impl; [|exact Hall].
        intros p Hp. apply near_line_swap. exact Hp.
      * apply (list_elem_of_fmap_2 (λ p, (p.2, p.1)) l (y0, x0)). exact Ha.
      * apply (list_elem_of_fmap_2 (λ p, (p.2, p.1)) l (y1, x1)). exact Hb.
  - assert (Hsw : ∀ l : list (Z * Z),
      emit_point false color <$> l
      = (λ p, Inherited.DrawPixel p.1 p.2 color) <$> l) by reflexivity.
    destruct (x0 >? x1) eqn:E; zbool.
    + destruct (bres_line false x1 y1 x0 y0 color fuel t)
        as (l & -> & Hfst & Hall & Ha & Hb); try assumption; try lia.
      exists l. rewrite Hsw.
      assert (Hn : x0 - x1 = n) by (unfold n; lia).
      assert (Hmin : Z.min x0 x1 = x1) by lia.
      rewrite Hn in Hfst. rewrite Hmin.
      split; [reflexivity|]. split; [apply (Hlen l x1 Hfst)|].
      split; [exact Hfst|]. split; [|split; assumption].
      eapply Forall_impl; [|exact Hall].
      intros p Hp. apply near_line_sym. exact Hp.
    + destruct (bres_line false x0 y0 x1 y1 color fuel t)
        as (l & -> & Hfst & Hall & Ha & Hb); try assumption; try lia.
      exists l. rewrite Hsw.
      assert (Hn : x1 - x0 = n) by (unfold n; lia).
      assert (Hmin : Z.min x0 x1 = x0) by lia.
      rewrite Hn in Hfst. rewrite Hmin.
      split; [reflexivity|]. split; [apply (Hlen l x0 Hfst)|].
      split; [exact Hfst|]. split; [exact Hall|split; assumption].
Qed.

Lemma writeLine_is_bresenham_witness :
  ∃ l,
    Inherited.writeLine (Z.to_nat 32769) 3 1 0 0 9 []
    = Some ((λ p, Inherited.DrawPixel p.1 p.2 9) <$> l)
    ∧ Z.of_nat (length l) = 4 ∧ (3, 1) ∈ l ∧ (0, 0) ∈ l.
Proof.
  destruct (writeLine_is_bresenham (Z.to_nat 32769) 3 1 0 0 9 [])
    as (l & E & Hlen & _ & _ & Ha & Hb);
    [ unfold in16; lia | unfold in16; lia | unfold in16; lia
    | unfold in16; lia | lia | lia | lia | lia | lia | lia | lia | ].
  exists l. split; [exact E|]. split; [exact Hlen|]. split; assumption.
Defined.

(** ** Straight runs on the inherited members *)

Lemma constant_minor (l : list (Z * Z)) (L : list Z) c :
  l.*1 = L → Forall (λ p, p.2 = c) l → l = (λ j, (j, c)) <$> L.
Proof.
  intros <- Hall. induction Hall as [|[a b] l Hb _ IH]; [reflexivity|].
  cbn [fmap list_fmap fst snd] in *. subst b. f_equal. exact IH.
Qed.

(** A run along the major axis: [dy = 0]. *)
Lemma flat_run steep X0 X1 Y color fuel t :
  in16 X0 → in16 Y → X1 < 32767 → X0 <= X1 → X1 - X0 <= 32767 →
  32768 < Z.of_nat fuel →
  GFX.writeLine_loop Inherited.writePixel fuel steep X0 X1 Y
    (wrap16 (wrap16 (X1 - X0) ÷ 2)) (wrap16 (X1 - X0))
    (wrap16 (Z.abs (Y - Y))) (if Y <? Y then 1 else -1) color t
  = Some (t ++ (emit_point steep color
                  <$> ((λ j, (j, Y)) <$> seqZ X0 (X1 - X0 + 1)))).
Proof.
  intros HX0 HY HX1 Hle Hdx Hfuel.
  destruct (bres_line steep X0 Y X1 Y color fuel t)
    as (l & -> & Hfst & Hall & _); try assumption; try lia.
  do 3 f_equal. apply constant_minor; [exact Hfst|].
  eapply Forall_impl; [|exact Hall].
  intros p (_ & Hy & _). lia.
Qed.

Lemma inherited_drawFastVLine_run fuel x y h color t :
  in16 x → in16 y → x < 32767 → y < 32767 → -32766 <= h <= 32767 →
  in16 (y + h - 1) → y + h - 1 < 32767 → 32768 < Z.of_nat fuel →
  Inherited.drawFastVLine fuel x y h color t
  = Some (t ++ [Inherited.StartWrite]
            ++ ((λ j, Inherited.DrawPixel x j color)
                  <$> seqZ (Z.min y (y + h - 1)) (Z.abs (h - 1) + 1))
            ++ [Inherited.EndWrite]).
Proof.
  intros Hx Hy Mx My Hh Hy2 My2 Hfuel.
  unfold Inherited.drawFastVLine, GFX.drawFastVLine,
    Inherited.writeLine, GFX.writeLine.
  unfold Inherited.startWrite at 1, Inherited.call at 1.
  cbn [mbind option_bind].
  rewrite (wrap16_id (y + h - 1)) by exact Hy2.
  assert (Hout : ∀ l : list Inherited.prim,
    Some ((t ++ [Inherited.StartWrite]) ++ l) ≫= Inherited.endWrite
    = Some (t ++ [Inherited.StartWrite] ++ l ++ [Inherited.EndWrite])).
  { intros l. cbn [mbind option_bind]. unfold Inherited.endWrite,
      Inherited.call. rewrite <- !app_assoc. reflexivity. }
  rewrite Z.sub_diag. change (Z.abs 0) with 0.
  destruct (Z.abs (y + h - 1 - y) >? 0) eqn:Es; zbool.
  - (* steep: the major axis is y *)
    assert (Hmap : ∀ L : list Z,
      emit_point true color <$> ((λ j, (j, x)) <$> L)
      = (λ j, Inherited.DrawPixel x j color) <$> L).
    { intros L. rewrite <- list_fmap_compose. reflexivity. }
    destruct (y >? y + h - 1) eqn:E; zbool.
    + rewrite flat_run by (assumption || lia).
      rewrite Hmap, Hout.
      replace (y - (y + h - 1) + 1) with (Z.abs (h - 1) + 1) by lia.
      replace (Z.min y (y + h - 1)) with (y + h - 1) by lia. reflexivity.
    + rewrite flat_run by (assumption || lia).
      rewrite Hmap, Hout.
      replace (y + h - 1 - y + 1) with (Z.abs (h - 1) + 1) by lia.
      replace (Z.min y (y + h - 1)) with y by lia. reflexivity.
  - assert (h = 1) as -> by lia.
    destruct (x >? x) eqn:E; [zbool; lia|].
    replace (y + 1 - 1) with y by lia.
    rewrite flat_run by (assumption || lia).
    rewrite Hout. rewrite Z.sub_diag. simpl.
    replace (Z.min y y) with y by lia. reflexivity.
Qed.

Lemma inherited_drawFastHLine_run fuel x y w color t :
  in16 x → in16 y → x < 32767 → -32766 <= w <= 32767 →
  in16 (x + w - 1) → x + w - 1 < 32767 → 32768 < Z.of_nat fuel →
  Inherited.drawFastHLine fuel x y w color t
  = Some (t ++ [Inherited.StartWrite]
            ++ ((λ i, Inherited.DrawPixel i y color)
                  <$> seqZ (Z.min x (x + w - 1)) (Z.abs (w - 1) + 1))
            ++ [Inherited.EndWrite]).
Proof.
  intros Hx Hy Mx Hw Hx2 Mx2 Hfuel.
  unfold Inherited.drawFastHLine, GFX.drawFastHLine,
    Inherited.writeLine, GFX.writeLine.
  unfold Inherited.startWrite at 1, Inherited.call at 1.
  cbn [mbind option_bind].
  rewrite (wrap16_id (x + w - 1)) by exact Hx2.
  assert (Hout : ∀ l : list Inherited.prim,
    Some ((t ++ [Inherited.StartWrite]) ++ l) ≫= Inherited.endWrite
    = Some (t ++ [Inherited.StartWrite] ++ l ++ [Inherited.EndWrite])).
  { intros l. cbn [mbind option_bind]. unfold Inherited.endWrite,
      Inherited.call. rewrite <- !app_assoc. reflexivity. }
  rewrite Z.sub_diag. change (Z.abs 0) with 0.
  destruct (0 >? Z.abs (x + w - 1 - x)) eqn:Es; [zbool; lia|].
  assert (Hmap : ∀ L : list Z,
    emit_point false color <$> ((λ j, (j, y)) <$> L)
    = (λ j, Inherited.DrawPixel j y color) <$> L).
  { intros L. rewrite <- list_fmap_compose. reflexivity. }
  destruct (x >? x + w - 1) eqn:E; zbool.
  - rewrite flat_run by (assumption || lia).
    rewrite Hmap, Hout.
    replace (x - (x + w - 1) + 1) with (Z.abs (w - 1) + 1) by lia.
    replace (Z.min x (x + w - 1)) with (x + w - 1) by lia. reflexivity.
  - rewrite flat_run by (assumption || lia).
    rewrite Hmap, Hout.
    replace (x + w - 1 - x + 1) with (Z.abs (w - 1) + 1) by lia.
    replace (Z.min x (x + w - 1)) with x by lia. reflexivity.
Qed.

(** X11.  For [x] and [y] in [-32768, 32766], a length [n] in
    [-32766, 32767] and a far end [y + n - 1] (or [x + n - 1]) in
    [-32768, 32766], the base-class [drawFastVLine(x, y, n)] (or
    [drawFastHLine(x, y, n)]) returns, given more than 32768 turns of
    fuel: it opens the transaction, draws the run of pixels between the
    two end points it hands to [writeLine], in increasing order, and
    closes the transaction.  For a positive length these are the [n]
    pixels from [(x, y)] on; for a length [n <= 0] they are the [2 - n]
    pixels from [y + n - 1] to [y] (or [x + n - 1] to [x]): a line of
    length 0 draws two pixels.  Coordinates that reach 32767 are not
    covered: the loop counter of [writeLine] runs one past the far end. *)
Theorem inherited_lines_draw_runs fuel x y n color t :
  in16 x → in16 y → x < 32767 → y < 32767 → -32766 <= n <= 32767 →
  32768 < Z.of_nat fuel →
  (in16 (y + n - 1) → y + n - 1 < 32767 →
   Inherited.drawFastVLine fuel x y n color t
   = Some (t ++ [Inherited.StartWrite]
             ++ ((λ j, Inherited.DrawPixel x j color)
                   <$> seqZ (Z.min y (y + n - 1)) (Z.abs (n - 1) + 1))
             ++ [Inherited.EndWrite]))
  ∧ (in16 (x + n - 1) → x + n - 1 < 32767 →
     Inherited.drawFastHLine fuel x y n color t
     = Some (t ++ [Inherited.StartWrite]
               ++ ((λ i, Inherited.DrawPixel i y color)
                     <$> seqZ (Z.min x (x + n - 1)) (Z.abs (n - 1) + 1))
               ++ [Inherited.EndWrite])).
Proof.
  intros. split; intros.
  - apply inherited_drawFastVLine_run; assumption.
  - apply inherited_drawFastHLine_run; assumption.
Qed.

Lemma inherited_lines_draw_runs_witness :
  Inherited.drawFastVLine (Z.to_nat 32769) 5 5 0 9 []
  = Some [Inherited.StartWrite; Inherited.DrawPixel 5 4 9;
          Inherited.DrawPixel 5 5 9; Inherited.EndWrite].
Proof.
  destruct (inherited_lines_draw_runs (Z.to_nat 32769) 5 5 0 9 [])
    as [HV _];
    [ unfold in16; lia | unfold in16; lia | lia | lia | lia | lia | ].
  rewrite HV; [reflexivity | unfold in16; lia | lia].
Defined.

(** ** Rectangles on the inherited members *)

Lemma drawn_app a b : drawn (a ++ b) = drawn a ++ drawn b.
Proof. apply flat_map_app. Qed.

Lemma drawn_column x color (L : list Z) :
  drawn ((λ j, Inherited.DrawPixel x j color) <$> L)
  = (λ j, (x, j, color)) <$> L.
Proof. induction L as [|j L IH]; [reflexivity|]. simpl. f_equal. exact IH. Qed.

Lemma drawn_row y color (L : list Z) :
  drawn ((λ i, Inherited.DrawPixel i y color) <$> L)
  = (λ i, (i, y, color)) <$> L.
Proof. induction L as [|j L IH]; [reflexivity|]. simpl. f_equal. exact IH. Qed.

(** The columns of the loop of [fillRect], each a self-contained vertical
    line. *)
Lemma inherited_fillRect_loop fuelL x y w h color :
  in16 y → y < 32767 → -32766 <= h <= 32767 →
  in16 (y + h - 1) → y + h - 1 < 32767 → 32768 < Z.of_nat fuelL →
  x + w <= 32767 →
  ∀ fuel i t,
    in16 i → x <= i → Z.max 0 (x + w - i) < Z.of_nat fuel →
    ∃ t',
      GFX.fillRect_loop (Inherited.writeFastVLine fuelL) fuel i x y w h
        color t = Some (t ++ t')
      ∧ drawn t'
        = flat_map (λ i, (λ j, (i, j, color))
                           <$> seqZ (Z.min y (y + h - 1)) (Z.abs (h - 1) + 1))
            (seqZ i (x + w - i)).
Proof.
  intros Hy My Hh Hy2 My2 HfuelL Hxw.
  induction fuel as [|fuel IH]; intros i t Hi Hxi Hfuel.
  - lia.
  - cbn [GFX.fillRect_loop].
    destruct (i <? x + w) eqn:E; zbool.
    + change (Inherited.writeFastVLine fuelL i y h color t)
        with (Inherited.drawFastVLine fuelL i y h color t).
      unfold in16 in Hi.
      rewrite inherited_drawFastVLine_run
        by (assumption || unfold in16; lia).
      cbn [mbind option_bind].
      rewrite (wrap16_id (i + 1)) by (unfold in16; lia).
      match goal with
      | |- context [GFX.fillRect_loop _ fuel (i + 1) x y w h color ?t1] =>
          destruct (IH (i + 1) t1) as (t' & -> & Hd);
            [unfold in16; lia | lia | lia |]
      end.
      eexists. split; [rewrite <- app_assoc; reflexivity|].
      rewrite !drawn_app, drawn_column, Hd. cbn [drawn flat_map app].
      rewrite app_nil_r.
      rewrite (seqZ_cons i) by lia. cbn [flat_map].
      replace (Z.succ i) with (i + 1) by lia.
      replace (Z.pred (x + w - i)) with (x + w - (i + 1)) by lia.
      reflexivity.
    + exists []. rewrite (seqZ_nil i) by lia. rewrite app_nil_r.
      split; reflexivity.
Qed.

Lemma inherited_fillRect_drawn fuel x y w h color :
  in16 x → in16 y → y < 32767 → -32766 <= h <= 32767 →
  in16 (y + h - 1) → y + h - 1 < 32767 → x + w <= 32767 →
  32768 < Z.of_nat fuel → w < Z.of_nat fuel →
  ∃ t,
    Inherited.fillRect fuel x y w h color [] = Some t
    ∧ drawn t
      = flat_map (λ i, (λ j, (i, j, color))
                         <$> seqZ (Z.min y (y + h - 1)) (Z.abs (h - 1) + 1))
          (seqZ x w).
Proof.
  intros Hx Hy My Hh Hy2 My2 Hxw Hfuel Hfw.
  unfold Inherited.fillRect, GFX.fillRect.
  unfold Inherited.startWrite at 1, Inherited.call at 1.
  cbn [mbind option_bind app].
  destruct (inherited_fillRect_loop fuel x y w h color Hy My Hh Hy2 My2
              Hfuel Hxw fuel x [Inherited.StartWrite])
    as (t' & -> & Hd); [exact Hx | lia | lia |].
  cbn [mbind option_bind]. unfold Inherited.endWrite, Inherited.call.
  eexists. split; [reflexivity|].
  rewrite !drawn_app, Hd. cbn [drawn flat_map app].
  rewrite app_nil_r. do 2 f_equal. lia.
Qed.

(** The cells of a rectangle, column by column. *)
Lemma in_columns (x y w h color i j c : Z) :
  In (i, j, c)
    (flat_map (λ i, (λ j, (i, j, color)) <$> seqZ y h) (seqZ x w))
  ↔ c = color ∧ x <= i < x + w ∧ y <= j < y + h.
Proof.
  rewrite in_flat_map. split.
  - intros (i' & Hi & Hin).
    apply list_elem_of_In, elem_of_seqZ in Hi.
    apply list_elem_of_In, list_elem_of_fmap in Hin as (j' & [= -> -> ->] & Hj).
    apply elem_of_seqZ in Hj. lia.
  - intros (-> & Hi & Hj). exists i. split.
    + apply list_elem_of_In, elem_of_seqZ. lia.
    + apply list_elem_of_In, list_elem_of_fmap. exists j.
      split; [reflexivity|]. apply elem_of_seqZ. lia.
Qed.

Lemma length_columns (x y w h color : Z) :
  0 <= w → 0 <= h →
  Z.of_nat (length (flat_map (λ i, (λ j, (i, j, color)) <$> seqZ y h)
                      (seqZ x w))) = w * h.
Proof.
  intros Hw Hh.
  rewrite (flat_map_constant_length (c := Z.to_nat h)).
  - rewrite length_seqZ. nia.
  - intros i _. rewrite length_fmap, length_seqZ. reflexivity.
Qed.

(** X12.  The base-class [fillRect(x, y, w, h)] of a rectangle that ends
    below coordinate 32767 returns after handing each pixel of the
    rectangle to [drawPixel] exactly once, column by column and in the
    given colour (nothing when [w <= 0]). *)
Theorem inherited_fillRect_covers fuel x y w h color :
  in16 x → in16 y → w <= 32767 → 0 < h <= 32767 →
  x + w <= 32767 → y + h <= 32767 → 32768 < Z.of_nat fuel →
  ∃ t,
    Inherited.fillRect fuel x y w h color [] = Some t
    ∧ drawn t
      = flat_map (λ i, (λ j, (i, j, color)) <$> seqZ y h) (seqZ x w)
    ∧ Z.of_nat (length (drawn t)) = Z.max 0 w * h
    ∧ ∀ i j c, In (i, j, c) (drawn t)
               ↔ c = color ∧ x <= i < x + w ∧ y <= j < y + h.
Proof.
  intros Hx Hy Hw Hh Hxw Hyh Hfuel. unfold in16 in Hx, Hy.
  destruct (inherited_fillRect_drawn fuel x y w h color)
    as (t & E & Hd); try (unfold in16; lia).
  replace (Z.min y (y + h - 1)) with y in Hd by lia.
  replace (Z.abs (h - 1) + 1) with h in Hd by lia.
  exists t. split; [exact E|]. split; [exact Hd|]. rewrite Hd. split.
  - destruct (decide (0 <= w)) as [H0|H0].
    + rewrite length_columns by lia. f_equal. lia.
    + rewrite (seqZ_nil x) by lia. simpl. lia.
  - intros i j c. apply in_columns.
Qed.

Lemma inherited_fillRect_covers_witness :
  ∃ t,
    Inherited.fillRect (Z.to_nat 32769) 200 200 1 2 9 [] = Some t
    ∧ drawn t = [(200, 200, 9); (200, 201, 9)].
Proof.
  destruct (inherited_fillRect_covers (Z.to_nat 32769) 200 200 1 2 9)
    as (t & E & Hd & _);
    [ unfold in16; lia | unfold in16; lia | lia | lia | lia | lia | lia | ].
  exists t. split; [exact E|]. rewrite Hd. reflexivity.
Defined.

(** X13.  The inherited [fillScreen] hands every pixel of the logical
    screen to [drawPixel] exactly once, in the given colour, and no
    other. *)
Theorem inherited_fillScreen_covers fuel g color :
  0 < _width g <= 32767 → 0 < _height g <= 32767 →
  32768 < Z.of_nat fuel →
  ∃ t,
    Inherited.fillScreen fuel g color [] = Some t
    ∧ Z.of_nat (length (drawn t)) = _width g * _height g
    ∧ ∀ i j c, In (i, j, c) (drawn t)
               ↔ c = color ∧ on_screen (_width g) (_height g) i j.
Proof.
  intros HW HH Hfuel. unfold Inherited.fillScreen, GFX.fillScreen.
  destruct (inherited_fillRect_drawn fuel 0 0 (_width g) (_height g) color)
    as (t & E & Hd); try (unfold in16; lia).
  replace (Z.min 0 (0 + _height g - 1)) with 0 in Hd by lia.
  replace (Z.abs (_height g - 1) + 1) with (_height g) in Hd by lia.
  exists t. split; [exact E|]. rewrite Hd. split.
  - apply length_columns; lia.
  - intros i j c. rewrite in_columns. unfold on_screen. lia.
Qed.

Lemma inherited_fillScreen_covers_witness :
  ∃ t,
    Inherited.fillScreen (Z.to_nat 32769) (setRotation 1 (new_GFX 3 2)) 9 []
    = Some t
    ∧ Z.of_nat (length (drawn t)) = 6.
Proof.
  destruct (inherited_fillScreen_covers (Z.to_nat 32769)
              (setRotation 1 (new_GFX 3 2)) 9)
    as (t & E & Hl & _);
    [ change (0 < 2 <= 32767); lia | change (0 < 3 <= 32767); lia | lia | ].
  exists t. split; [exact E|]. exact Hl.
Defined.

(** ** Outlines *)

(** X14.  For [x] and [y] in [int16_t] and positive extents with
    [x + w <= 32767] and [y + h <= 32767], the inherited
    [drawRect(x, y, w, h)] returns, given more than 32768 turns of fuel,
    and the pixels it hands to [drawPixel] are the pixels of the
    rectangle that lie on its border, in the given colour.  Rectangles
    that reach column or row 32767 are not covered. *)
Theorem inherited_drawRect_border fuel x y w h color :
  in16 x → in16 y → 0 < w <= 32767 → 0 < h <= 32767 →
  x + w <= 32767 → y + h <= 32767 → 32768 < Z.of_nat fuel →
  ∃ t,
    Inherited.drawRect fuel x y w h color [] = Some t
    ∧ ∀ i j c,
        In (i, j, c) (drawn t)
        ↔ c = color ∧ (x <= i < x + w ∧ y <= j < y + h)
          ∧ (i = x ∨ i = x + w - 1 ∨ j = y ∨ j = y + h - 1).
Proof.
  intros Hx Hy Hw Hh Hxw Hyh Hfuel. unfold in16 in Hx, Hy.
  unfold Inherited.drawRect, GFX.drawRect.
  unfold Inherited.startWrite at 1, Inherited.call at 1.
  cbn [mbind option_bind app].
  rewrite (wrap16_id (y + h - 1)), (wrap16_id (x + w - 1))
    by (unfold in16; lia).
  unfold Inherited.writeFastHLine, Inherited.writeFastVLine.
  rewrite inherited_drawFastHLine_run by (unfold in16; lia).
  cbn [mbind option_bind].
  rewrite inherited_drawFastHLine_run by (unfold in16; lia).
  cbn [mbind option_bind].
  rewrite inherited_drawFastVLine_run by (unfold in16; lia).
  cbn [mbind option_bind].
  rewrite inherited_drawFastVLine_run by (unfold in16; lia).
  cbn [mbind option_bind]. unfold Inherited.endWrite, Inherited.call.
  eexists. split; [reflexivity|].
  intros i j c.
  replace (Z.min x (x + w - 1)) with x by lia.
  replace (Z.min y (y + h - 1)) with y by lia.
  replace (Z.abs (w - 1) + 1) with w by lia.
  replace (Z.abs (h - 1) + 1) with h by lia.
  rewrite !drawn_app, !drawn_row, !drawn_column.
  cbn [drawn flat_map app]. rewrite !app_nil_r.
  rewrite !in_app_iff.
  assert (Hrow : ∀ r, In (i, j, c) ((λ i, (i, r, color)) <$> seqZ x w)
                      ↔ c = color ∧ j = r ∧ x <= i < x + w).
  { intros r. rewrite <- list_elem_of_In, list_elem_of_fmap. split.
    - intros (i' & [= -> -> ->] & Hi). apply elem_of_seqZ in Hi. lia.
    - intros (-> & -> & Hi). exists i. split; [reflexivity|].
      apply elem_of_seqZ. lia. }
  assert (Hcol : ∀ r, In (i, j, c) ((λ j, (r, j, color)) <$> seqZ y h)
                      ↔ c = color ∧ i = r ∧ y <= j < y + h).
  { intros r. rewrite <- list_elem_of_In, list_elem_of_fmap. split.
    - intros (j' & [= -> -> ->] & Hj). apply elem_of_seqZ in Hj. lia.
    - intros (-> & -> & Hj). exists j. split; [reflexivity|].
      apply elem_of_seqZ. lia. }
  rewrite !Hrow, !Hcol. simpl. lia.
Qed.

Lemma inherited_drawRect_border_witness :
  ∃ t,
    Inherited.drawRect (Z.to_nat 32769) 1 1 3 3 9 [] = Some t
    ∧ In (1, 2, 9) (drawn t) ∧ ¬ In (2, 2, 9) (drawn t).
Proof.
  destruct (inherited_drawRect_border (Z.to_nat 32769) 1 1 3 3 9)
    as (t & E & Hin);
    [ unfold in16; lia | unfold in16; lia | lia | lia | lia | lia | lia | ].
  exists t. split; [exact E|]. split.
  - apply Hin. lia.
  - intros Hc. apply Hin in Hc. lia.
Defined.

(** ** The midpoint circle *)










(** ** Bitmaps *)

Lemma drawn_flat_map {A} (f : A → list Inherited.prim) (L : list A) :
  drawn (flat_map f L) = flat_map (λ a, drawn (f a)) L.
Proof.
  induction L as [|a L IH]; [reflexivity|].
  cbn [flat_map]. rewrite drawn_app, IH. reflexivity.
Qed.

Lemma flat_map_ext_in {A B} (f g : A → list B) (L : list A) :
  (∀ a, In a L → f a = g a) → flat_map f L = flat_map g L.
Proof.
  induction L as [|a L IH]; intros H; [reflexivity|].
  cbn [flat_map]. rewrite (H a) by (left; reflexivity).
  rewrite IH; [reflexivity|]. intros b Hb. apply H. right. exact Hb.
Qed.

Lemma flat_map_single {A B} (f : A → B) (L : list A) :
  flat_map (λ a, [f a]) L = f <$> L.
Proof.
  induction L as [|a L IH]; [reflexivity|].
  cbn [flat_map fmap list_fmap app]. congruence.
Qed.

Lemma in_seqZ (a n k : Z) : In k (seqZ a n) ↔ a <= k < a + n.
Proof. rewrite <- list_elem_of_In. apply elem_of_seqZ. Qed.

(** A counted loop whose body appends [out i] to the trace. *)
Lemma for_loop_out {A} (body : Z → list Inherited.prim * A
                              → option (list Inherited.prim * A))
    (out : Z → list Inherited.prim) lo hi :
  (∀ i t a, lo <= i < hi → ∃ a', body i (t, a) = Some (t ++ out i, a')) →
  ∀ n i t a,
    lo <= i → i + Z.of_nat n <= hi →
    ∃ a', for_loop n i body (t, a)
          = Some (t ++ flat_map out (seqZ i (Z.of_nat n)), a').
Proof.
  intros Hbody. induction n as [|n IH]; intros i t a Hi Hn.
  - exists a. simpl. rewrite app_nil_r. reflexivity.
  - cbn [for_loop]. destruct (Hbody i t a) as (a1 & ->); [lia|].
    cbn [mbind option_bind].
    destruct (IH (i + 1) (t ++ out i) a1) as (a' & ->); [lia | lia |].
    exists a'. rewrite (seqZ_cons i) by lia. cbn [flat_map].
    rewrite <- app_assoc.
    replace (Z.succ i) with (i + 1) by lia.
    replace (Z.pred (Z.of_nat (S n))) with (Z.of_nat n) by lia.
    reflexivity.
Qed.

(** The rows of a bitmap member: row [j] is drawn at [y + j]. *)
Lemma bitmap_rows_spec
    (bit : Z → Z → Z → list Inherited.prim * Z
           → option (list Inherited.prim * Z))
    (rowout : Z → list Inherited.prim) y w h :
  in16 y → y + h <= 32768 →
  (∀ j t byte, 0 <= j < h →
     ∃ byte', for_loop (Z.to_nat w) 0 (bit (y + j) j) (t, byte)
              = Some (t ++ rowout j, byte')) →
  ∀ t, GFX.bitmap_rows bit y w h t
       = Some (t ++ flat_map rowout (seqZ 0 h)).
Proof.
  intros Hy Hyh Hrow t. unfold GFX.bitmap_rows. unfold in16 in Hy.
  assert (Hgen : ∀ n j ycur t byte,
    0 <= j → j + Z.of_nat n = Z.max j h →
    (0 < Z.of_nat n → ycur = y + j) →
    ∃ byte' y',
      for_loop n j
        (λ j (st : list Inherited.prim * Z * Z),
           st' ← for_loop (Z.to_nat w) 0 (bit st.2 j) st.1;
           Some (st', wrap16 (st.2 + 1)))
        (t, byte, ycur)
      = Some (t ++ flat_map rowout (seqZ j (Z.of_nat n)), byte', y')).
  { induction n as [|n IH]; intros j ycur t0 byte Hj Hn Hcur.
    - exists byte, ycur. simpl. rewrite app_nil_r. reflexivity.
    - cbn [for_loop fst snd]. rewrite Hcur by lia.
      destruct (Hrow j t0 byte) as (byte1 & ->); [lia|].
      cbn [mbind option_bind].
      destruct (IH (j + 1) (wrap16 (y + j + 1)) (t0 ++ rowout j) byte1)
        as (byte' & y' & ->); [lia | lia | |].
      { intros Hpos. rewrite wrap16_id by (unfold in16; lia). lia. }
      exists byte', y'. rewrite (seqZ_cons j) by lia. cbn [flat_map].
      rewrite <- app_assoc.
      replace (Z.succ j) with (j + 1) by lia.
      replace (Z.pred (Z.of_nat (S n))) with (Z.of_nat n) by lia.
      reflexivity. }
  destruct (Hgen (Z.to_nat h) 0 y t 0) as (byte' & y' & ->); try lia.
  cbn [mbind option_bind fst].
  destruct (decide (0 <= h)) as [H0|H0].
  - rewrite Z2Nat.id by lia. reflexivity.
  - replace (Z.of_nat (Z.to_nat h)) with 0 by lia.
    rewrite (seqZ_nil 0 h) by lia. reflexivity.
Qed.

(** The byte variable through the inner loop. *)
Lemma byte_at_fetch msb b : byte_at msb b 0 b.
Proof.
  destruct msb; intros n Hn.
  - rewrite Z.mul_1_r. reflexivity.
  - intros _. rewrite Z.add_0_r. reflexivity.
Qed.

Lemma byte_at_shift msb b k byte :
  0 <= k → byte_at msb b k byte →
  byte_at msb b (k + 1)
    (u8 (if msb then Z.shiftl byte 1 else Z.shiftr byte 1)).
Proof.
  intros Hk Hat. unfold u8. change 256 with (2 ^ 8).
  destruct msb; cbn [byte_at] in *.
  - intros n Hn. rewrite Z.mod_pow2_bits_low by lia.
    rewrite Z.shiftl_spec by lia.
    rewrite (Z.mul_pow2_bits b (k + 1)) by lia.
    destruct (decide (n = 0)) as [->|Hn0].
    + rewrite !Z.testbit_neg_r by lia. reflexivity.
    + rewrite Hat by lia. rewrite Z.mul_pow2_bits by lia. f_equal. lia.
  - intros n Hn Hnk. rewrite Z.mod_pow2_bits_low by lia.
    rewrite Z.shiftr_spec by lia. rewrite Hat by lia. f_equal. lia.
Qed.

Lemma byte_at_test msb b k byte :
  0 <= k < 8 → byte_at msb b k byte →
  negb (Z.land byte (if msb then 0x80 else 0x01) =? 0)
  = Z.testbit b (if msb then 7 - k else k).
Proof.
  intros Hk Hat. destruct msb; cbn [byte_at] in *.
  - change 0x80 with (2 ^ 7). rewrite land_pow2 by lia.
    rewrite negb_involutive, Hat by lia.
    rewrite Z.mul_pow2_bits by lia. reflexivity.
  - change 0x01 with (2 ^ 0). rewrite land_pow2 by lia.
    rewrite negb_involutive, Hat by lia. reflexivity.
Qed.

(** One row of a 1-bit bitmap, for any way [paint] of handling a set or
    cleared bit that appends [out] to the trace. *)
Lemma bitmap_row_spec msb
    (paint : bool → Z → list Inherited.prim → option (list Inherited.prim))
    (out : bool → Z → list Inherited.prim)
    bitmap j w h :
  (∀ set i t, 0 <= i < w → paint set i t = Some (t ++ out set i)) →
  0 <= w → 0 <= j < h →
  (w + 7) / 8 * h <= Z.of_nat (length bitmap) →
  ∀ t byte,
    ∃ byte',
      for_loop (Z.to_nat w) 0
        (GFX.bitmap_bit msb paint bitmap j ((w + 7) / 8)) (t, byte)
      = Some (t ++ flat_map
                     (λ i, out (bitmap_bit_set msb bitmap w i j) i)
                     (seqZ 0 w),
              byte').
Proof.
  intros Hpaint Hw Hj Hlen t byte.
  assert (Hbw : 0 <= (w + 7) / 8) by elia.
  assert (Hgen : ∀ n i t byte,
    0 <= i → i + Z.of_nat n = w →
    (i mod 8 ≠ 0 →
     ∃ b, bitmap !! Z.to_nat (j * ((w + 7) / 8) + i / 8) = Some b
          ∧ byte_at msb b (i mod 8 - 1) byte) →
    ∃ byte',
      for_loop n i (GFX.bitmap_bit msb paint bitmap j ((w + 7) / 8))
        (t, byte)
      = Some (t ++ flat_map
                     (λ i, out (bitmap_bit_set msb bitmap w i j) i)
                     (seqZ i (Z.of_nat n)),
              byte')).
  { induction n as [|n IH]; intros i t0 byte0 Hi Hn Hbyte.
    - exists byte0. simpl. rewrite app_nil_r. reflexivity.
    - cbn [for_loop].
      change (GFX.bitmap_bit msb paint bitmap j ((w + 7) / 8) i (t0, byte0))
        with (byte ← (if negb (Z.land i (Z.ones 3) =? 0)
                      then Some (u8 (if msb then Z.shiftl byte0 1
                                     else Z.shiftr byte0 1))
                      else peek bitmap (j * ((w + 7) / 8) + i ÷ 8));
              s ← paint (negb (Z.land byte (if msb then 0x80 else 0x01)
                               =? 0)) i t0;
              Some (s, byte)).
      rewrite Z.land_ones by lia. change (2 ^ 3) with 8.
      assert (Hk : 0 <= i mod 8 < 8) by elia.
      assert (Hidx : 0 <= j * ((w + 7) / 8) + i / 8
                     < Z.of_nat (length bitmap)).
      { assert (0 <= i / 8 < (w + 7) / 8) by elia. nia. }
      assert (Hb : ∃ b byte1,
        bitmap !! Z.to_nat (j * ((w + 7) / 8) + i / 8) = Some b
        ∧ (if negb (i mod 8 =? 0)
           then Some (u8 (if msb then Z.shiftl byte0 1
                          else Z.shiftr byte0 1))
           else peek bitmap (j * ((w + 7) / 8) + i ÷ 8)) = Some byte1
        ∧ byte_at msb b (i mod 8) byte1).
      { destruct (i mod 8 =? 0) eqn:E0; zbool; cbn [negb].
        - destruct (lookup_lt_is_Some_2 bitmap
                      (Z.to_nat (j * ((w + 7) / 8) + i / 8)))
            as [b Eb]; [lia|].
          exists b, b. split; [exact Eb|].
          unfold peek. replace (i ÷ 8) with (i / 8) by elia.
          destruct (0 <=? j * ((w + 7) / 8) + i / 8) eqn:E1; [|zbool; lia].
          split; [exact Eb|]. rewrite E0. apply byte_at_fetch.
        - destruct (Hbyte E0) as (b & Eb & Hat).
          exists b, (u8 (if msb then Z.shiftl byte0 1
                         else Z.shiftr byte0 1)).
          split; [exact Eb|]. split; [reflexivity|].
          replace (i mod 8) with (i mod 8 - 1 + 1) at 1 by lia.
          apply byte_at_shift; [lia|exact Hat]. }
      destruct Hb as (b & byte1 & Eb & -> & Hat).
      cbn [mbind option_bind].
      rewrite (byte_at_test msb b (i mod 8) byte1) by assumption.
      rewrite Hpaint by lia. cbn [mbind option_bind].
      destruct (IH (i + 1)
                  (t0 ++ out (Z.testbit b (if msb then 7 - i mod 8
                                           else i mod 8)) i) byte1)
        as (byte' & ->); [lia | lia | |].
      { intros Hne. exists b.
        assert (Hsame : (i + 1) / 8 = i / 8 ∧ (i + 1) mod 8 = i mod 8 + 1)
          by elia.
        destruct Hsame as [-> ->]. split; [exact Eb|].
        replace (i mod 8 + 1 - 1) with (i mod 8) by lia. exact Hat. }
      exists byte'. rewrite (seqZ_cons i) by lia. cbn [flat_map].
      rewrite <- app_assoc.
      replace (Z.succ i) with (i + 1) by lia.
      replace (Z.pred (Z.of_nat (S n))) with (Z.of_nat n) by lia.
      unfold bitmap_bit_set at 2. rewrite Eb. reflexivity. }
  destruct (Hgen (Z.to_nat w) 0 t byte) as (byte' & E); [lia | lia | |].
  { intros Hne. exfalso. apply Hne. reflexivity. }
  exists byte'. rewrite E. rewrite Z2Nat.id by lia. reflexivity.
Qed.

(** The trace of a 1-bit bitmap member whose inner loop handles the bit of
    column [i] of row [j], drawn at [y + j], by [paint (y + j) j], which
    appends [out j] to the trace. *)
Lemma bitmap_member msb
    (paint : Z → Z → bool → Z → list Inherited.prim
             → option (list Inherited.prim))
    (out : Z → bool → Z → list Inherited.prim)
    bitmap y w h :
  (∀ j set i t, 0 <= j < h → 0 <= i < w →
     paint (y + j) j set i t = Some (t ++ out j set i)) →
  in16 y → 0 <= w <= 32767 → y + h <= 32768 →
  (w + 7) / 8 * h <= Z.of_nat (length bitmap) →
  (s ← Inherited.startWrite [];
   s ← GFX.bitmap_rows
         (λ y j, GFX.bitmap_bit msb (paint y j) bitmap j
                   (wrap16 ((w + 7) ÷ 8)))
         y w h s;
   Inherited.endWrite s)
  = Some ([Inherited.StartWrite]
            ++ flat_map
                 (λ j, flat_map
                         (λ i, out j (bitmap_bit_set msb bitmap w i j) i)
                         (seqZ 0 w))
                 (seqZ 0 h)
            ++ [Inherited.EndWrite]).
Proof.
  intros Hpaint Hy Hw Hyh Hlen.
  unfold Inherited.startWrite, Inherited.call. cbn [mbind option_bind app].
  replace ((w + 7) ÷ 8) with ((w + 7) / 8) by elia.
  rewrite (wrap16_id ((w + 7) / 8)) by (unfold in16; elia).
  rewrite (bitmap_rows_spec _
             (λ j, flat_map
                     (λ i, out j (bitmap_bit_set msb bitmap w i j) i)
                     (seqZ 0 w))); [ | exact Hy | exact Hyh | ].
  - cbn [mbind option_bind]. unfold Inherited.endWrite, Inherited.call.
    rewrite <- app_assoc. reflexivity.
  - intros j t byte Hj.
    apply (bitmap_row_spec msb (paint (y + j) j) (out j) bitmap j w h);
      try (assumption || lia).
    intros set i t0 Hi. apply Hpaint; assumption.
Qed.

(** The members that draw set bits only, in one colour. *)
Lemma inherited_mono_bitmap msb x y bitmap w h color :
  in16 x → in16 y → 0 <= w <= 32767 → x + w <= 32768 → y + h <= 32768 →
  (w + 7) / 8 * h <= Z.of_nat (length bitmap) →
  ∃ t,
    (s ← Inherited.startWrite [];
     s ← GFX.bitmap_rows
           (λ y j, GFX.bitmap_bit msb
                     (λ set i s,
                        if set
                        then Inherited.writePixel (wrap16 (x + i)) y color s
                        else Some s)
                     bitmap j (wrap16 ((w + 7) ÷ 8)))
           y w h s;
     Inherited.endWrite s) = Some t
    ∧ drawn t
      = flat_map
          (λ j, flat_map
                  (λ i, if bitmap_bit_set msb bitmap w i j
                        then [(x + i, y + j, color)] else [])
                  (seqZ 0 w))
          (seqZ 0 h)
    ∧ ∀ i j c,
        In (i, j, c) (drawn t)
        ↔ c = color ∧ (x <= i < x + w ∧ y <= j < y + h)
          ∧ bitmap_bit_set msb bitmap w (i - x) (j - y) = true.
Proof.
  intros Hx Hy Hw Hxw Hyh Hlen. unfold in16 in Hx.
  pose proof (bitmap_member msb
    (λ y j set i s,
       if set then Inherited.writePixel (wrap16 (x + i)) y color s
       else Some s)
    (λ j (set : bool) i,
       if set then [Inherited.DrawPixel (x + i) (y + j) color] else [])
    bitmap y w h) as Hm.
  cbv beta in Hm. rewrite Hm; try assumption.
  2:{ intros j [] i t Hj Hi.
      - rewrite wrap16_id by (unfold in16; lia). reflexivity.
      - rewrite app_nil_r. reflexivity. }
  clear Hm. eexists. split; [reflexivity|].
  assert (Hd : drawn
    ([Inherited.StartWrite]
       ++ flat_map
            (λ j, flat_map
                    (λ i, if bitmap_bit_set msb bitmap w i j
                          then [Inherited.DrawPixel (x + i) (y + j) color]
                          else [])
                    (seqZ 0 w))
            (seqZ 0 h)
       ++ [Inherited.EndWrite])
    = flat_map
        (λ j, flat_map
                (λ i, if bitmap_bit_set msb bitmap w i j
                      then [(x + i, y + j, color)] else [])
                (seqZ 0 w))
        (seqZ 0 h)).
  { rewrite !drawn_app. cbn [drawn flat_map app]. rewrite app_nil_r.
    rewrite drawn_flat_map. apply flat_map_ext_in. intros j _.
    rewrite drawn_flat_map. apply flat_map_ext_in. intros i _.
    destruct (bitmap_bit_set msb bitmap w i j); reflexivity. }
  rewrite Hd. split; [reflexivity|].
  intros i j c. rewrite in_flat_map. split.
  - intros (j' & Hj & Hin). apply in_flat_map in Hin as (i' & Hi & Hin).
    apply in_seqZ in Hj, Hi.
    destruct (bitmap_bit_set msb bitmap w i' j') eqn:Eb; [|contradiction].
    destruct Hin as [[= <- <- <-]|[]].
    split; [reflexivity|]. split; [lia|].
    replace (x + i' - x) with i' by lia.
    replace (y + j' - y) with j' by lia. exact Eb.
  - intros (-> & (Hi & Hj) & Eb). exists (j - y). split.
    + apply in_seqZ. lia.
    + apply in_flat_map. exists (i - x). split.
      * apply in_seqZ. lia.
      * rewrite Eb. left. f_equal. f_equal; lia.
Qed.

(** X15.  For [x] and [y] in [int16_t], [0 <= w <= 32767],
    [x + w <= 32768] and [y + h <= 32768] (no coordinate [x + i], [y + j]
    leaves [int16_t]) and an array of at least [(w + 7) / 8 * h] bytes,
    [drawBitmap(x, y, bitmap, w, h, color)] returns; it reads the bitmap
    most significant bit first, rows padded to whole bytes, without
    leaving the array, and draws, row by row and in [color], exactly the
    pixels [(x + i, y + j)] whose bit is set, each once, and nothing for
    a cleared bit. *)
Theorem drawBitmap_decodes x y bitmap w h color :
  in16 x → in16 y → 0 <= w <= 32767 → x + w <= 32768 → y + h <= 32768 →
  (w + 7) / 8 * h <= Z.of_nat (length bitmap) →
  ∃ t,
    Inherited.drawBitmap x y bitmap w h color [] = Some t
    ∧ drawn t
      = flat_map
          (λ j, flat_map
                  (λ i, if bitmap_bit_set true bitmap w i j
                        then [(x + i, y + j, color)] else [])
                  (seqZ 0 w))
          (seqZ 0 h)
    ∧ ∀ i j c,
        In (i, j, c) (drawn t)
        ↔ c = color ∧ (x <= i < x + w ∧ y <= j < y + h)
          ∧ bitmap_bit_set true bitmap w (i - x) (j - y) = true.
Proof. apply (inherited_mono_bitmap true). Qed.

Lemma drawBitmap_decodes_witness :
  ∃ t,
    Inherited.drawBitmap 5 5 [0xA0; 0x80; 0xFF; 0x00] 10 2 9 [] = Some t
    ∧ In (7, 5, 9) (drawn t) ∧ ¬ In (6, 5, 9) (drawn t).
Proof.
  destruct (drawBitmap_decodes 5 5 [0xA0; 0x80; 0xFF; 0x00] 10 2 9)
    as (t & E & _ & Hin);
    [ unfold in16; lia | unfold in16; lia | lia | lia | lia
    | vm_compute; discriminate | ].
  exists t. split; [exact E|]. split.
  - apply Hin. split; [reflexivity|]. split; [lia|]. reflexivity.
  - intros Hc. apply Hin in Hc as (_ & _ & Hb). discriminate Hb.
Defined.

(** X16.  Under the same conditions ([x] and [y] in [int16_t],
    [0 <= w <= 32767], [x + w <= 32768], [y + h <= 32768], an array of
    at least [(w + 7) / 8 * h] bytes), [drawXBitmap] returns and reads
    the same layout least significant bit first: it draws exactly the
    pixels [(x + i, y + j)] for which bit [i mod 8] of byte [i / 8] of
    row [j] is set. *)
Theorem drawXBitmap_decodes x y bitmap w h color :
  in16 x → in16 y → 0 <= w <= 32767 → x + w <= 32768 → y + h <= 32768 →
  (w + 7) / 8 * h <= Z.of_nat (length bitmap) →
  ∃ t,
    Inherited.drawXBitmap x y bitmap w h color [] = Some t
    ∧ drawn t
      = flat_map
          (λ j, flat_map
                  (λ i, if bitmap_bit_set false bitmap w i j
                        then [(x + i, y + j, color)] else [])
                  (seqZ 0 w))
          (seqZ 0 h)
    ∧ ∀ i j c,
        In (i, j, c) (drawn t)
        ↔ c = color ∧ (x <= i < x + w ∧ y <= j < y + h)
          ∧ bitmap_bit_set false bitmap w (i - x) (j - y) = true.
Proof. apply (inherited_mono_bitmap false). Qed.

Lemma drawXBitmap_decodes_witness :
  ∃ t,
    Inherited.drawXBitmap 5 5 [0xA0; 0x80; 0xFF; 0x00] 10 2 9 [] = Some t
    ∧ In (10, 5, 9) (drawn t) ∧ ¬ In (5, 5, 9) (drawn t).
Proof.
  destruct (drawXBitmap_decodes 5 5 [0xA0; 0x80; 0xFF; 0x00] 10 2 9)
    as (t & E & _ & Hin);
    [ unfold in16; lia | unfold in16; lia | lia | lia | lia
    | vm_compute; discriminate | ].
  exists t. split; [exact E|]. split.
  - apply Hin. split; [reflexivity|]. split; [lia|]. reflexivity.
  - intros Hc. apply Hin in Hc as (_ & _ & Hb). discriminate Hb.
Defined.

(** X17.  For [x] and [y] in [int16_t], [0 <= w <= 32767], [0 <= h],
    [x + w <= 32768], [y + h <= 32768] and an array of at least
    [(w + 7) / 8 * h] bytes, [drawBitmap(x, y, bitmap, w, h, color, bg)]
    returns and draws every pixel of the [w] by [h] rectangle at
    [(x, y)] exactly once, row by row: in [color] where the bit is set
    and in [bg] where it is cleared. *)
Theorem drawBitmap_bg_paints_all x y bitmap w h color bg :
  in16 x → in16 y → 0 <= w <= 32767 → 0 <= h →
  x + w <= 32768 → y + h <= 32768 →
  (w + 7) / 8 * h <= Z.of_nat (length bitmap) →
  ∃ t,
    Inherited.drawBitmap_bg x y bitmap w h color bg [] = Some t
    ∧ drawn t
      = flat_map
          (λ j, (λ i, (x + i, y + j,
                       if bitmap_bit_set true bitmap w i j
                       then color else bg))
                  <$> seqZ 0 w)
          (seqZ 0 h)
    ∧ Z.of_nat (length (drawn t)) = w * h.
Proof.
  intros Hx Hy Hw Hh Hxw Hyh Hlen. unfold in16 in Hx.
  unfold Inherited.drawBitmap_bg, GFX.drawBitmap_bg. cbv zeta.
  pose proof (bitmap_member true
    (λ y j set i s,
       Inherited.writePixel (wrap16 (x + i)) y (if set then color else bg) s)
    (λ j (set : bool) i,
       [Inherited.DrawPixel (x + i) (y + j) (if set then color else bg)])
    bitmap y w h) as Hm.
  cbv beta in Hm. rewrite Hm; try assumption.
  2:{ intros j set i t Hj Hi.
      rewrite wrap16_id by (unfold in16; lia). reflexivity. }
  clear Hm. eexists. split; [reflexivity|].
  assert (Hd : drawn
    ([Inherited.StartWrite]
       ++ flat_map
            (λ j, flat_map
                    (λ i, [Inherited.DrawPixel (x + i) (y + j)
                             (if bitmap_bit_set true bitmap w i j
                              then color else bg)])
                    (seqZ 0 w))
            (seqZ 0 h)
       ++ [Inherited.EndWrite])
    = flat_map
        (λ j, (λ i, (x + i, y + j,
                     if bitmap_bit_set true bitmap w i j then color else bg))
                <$> seqZ 0 w)
        (seqZ 0 h)).
  { rewrite !drawn_app. cbn [drawn flat_map app]. rewrite app_nil_r.
    rewrite drawn_flat_map. apply flat_map_ext_in. intros j _.
    rewrite drawn_flat_map. apply flat_map_single. }
  rewrite Hd. split; [reflexivity|].
  rewrite (flat_map_constant_length (c := Z.to_nat w)).
  - rewrite length_seqZ. nia.
  - intros j _. rewrite length_fmap, length_seqZ. reflexivity.
Qed.

Lemma drawBitmap_bg_paints_all_witness :
  ∃ t,
    Inherited.drawBitmap_bg 0 0 [0x40] 2 1 7 3 [] = Some t
    ∧ drawn t = [(0, 0, 3); (1, 0, 7)].
Proof.
  destruct (drawBitmap_bg_paints_all 0 0 [0x40] 2 1 7 3)
    as (t & E & Hd & _);
    [ unfold in16; lia | unfold in16; lia | lia | lia | lia | lia
    | vm_compute; discriminate | ].
  exists t. split; [exact E|]. rewrite Hd. reflexivity.
Defined.

(** ** A 1-bit canvas as a bitmap *)

Lemma raw1_is_bit g buf W H i j :
  WIDTH g = W → 0 <= W → on_screen W H i j →
  Z.of_nat (length buf) = Canvas1.stride W * H →
  Canvas1.raw {| gfx := g; buffer := Some buf |} i j
  = Some (bitmap_bit_set true buf W i j).
Proof.
  intros EW HW [Hi Hj] Hlen. unfold Canvas1.raw, bitmap_bit_set.
  cbn [buffer gfx mbind option_bind]. rewrite EW.
  pose proof (byte_in_buffer W H i j Hi Hj) as Hptr.
  unfold Canvas1.stride in *.
  replace ((W + 7) ÷ 8) with ((W + 7) / 8) in * by elia.
  replace (i ÷ 8) with (i / 8) in * by elia.
  replace (i / 8 + j * ((W + 7) / 8)) with (j * ((W + 7) / 8) + i / 8)
    in * by lia.
  unfold peek.
  destruct (0 <=? j * ((W + 7) / 8) + i / 8) eqn:E; [|zbool; lia].
  destruct (lookup_lt_is_Some_2 buf (Z.to_nat (j * ((W + 7) / 8) + i / 8)))
    as [b Eb]; [lia|].
  rewrite Eb. cbn [mbind option_bind].
  rewrite pixel_mask, land_pow2 by elia. rewrite negb_involutive.
  reflexivity.
Qed.

(** X18.  Handing the buffer of a [GFXcanvas1] of raw size [W] by [H]
    (both at most 32767, the buffer of [(W + 7) / 8 * H] bytes) to
    [drawBitmap] with that size, at an offset [(x, y)] in [int16_t] with
    [x + W <= 32768] and [y + H <= 32768], draws exactly the pixels that
    are set in the canvas, each moved by the offset: the canvas stores
    pixels the way [drawBitmap] reads them. *)
Theorem drawBitmap_shows_canvas1 g buf W H x y color :
  geometry_ok W H g → 0 <= W <= 32767 → 0 <= H <= 32767 →
  Z.of_nat (length buf) = buffer_cells Bpp1 W H →
  in16 x → in16 y → x + W <= 32768 → y + H <= 32768 →
  ∃ t,
    Inherited.drawBitmap x y buf W H color [] = Some t
    ∧ ∀ i j c,
        In (i, j, c) (drawn t)
        ↔ c = color ∧ on_screen W H (i - x) (j - y)
          ∧ Canvas1.raw {| gfx := g; buffer := Some buf |} (i - x) (j - y)
            = Some true.
Proof.
  intros Hg HW HH Hlen Hx Hy Hxw Hyh. pose proof Hg as (EW & _).
  cbn [buffer_cells] in Hlen.
  destruct (inherited_mono_bitmap true x y buf W H color)
    as (t & E & _ & Hin); try assumption.
  { rewrite Hlen. unfold Canvas1.stride.
    replace ((W + 7) ÷ 8) with ((W + 7) / 8) by elia. lia. }
  exists t. split; [exact E|]. intros i j c. rewrite Hin.
  unfold on_screen. split.
  - intros (-> & Hr & Hb). split; [reflexivity|]. split; [lia|].
    rewrite (raw1_is_bit g buf W H) by (unfold on_screen; lia || assumption).
    rewrite Hb. reflexivity.
  - intros (-> & Hr & Hraw). split; [reflexivity|]. split; [lia|].
    rewrite (raw1_is_bit g buf W H) in Hraw
      by (unfold on_screen; lia || assumption).
    injection Hraw as ->. reflexivity.
Qed.

Lemma drawBitmap_shows_canvas1_witness :
  ∃ t,
    Inherited.drawBitmap 0 0 [0x40; 0x00] 3 2 9 [] = Some t
    ∧ In (1, 0, 9) (drawn t).
Proof.
  destruct (drawBitmap_shows_canvas1 (new_GFX 3 2) [0x40; 0x00] 3 2 0 0 9)
    as (t & E & Hin);
    [ apply (new_GFX_ok 3 2) | lia | lia | reflexivity
    | unfold in16; lia | unfold in16; lia | lia | lia | ].
  exists t. split; [exact E|]. apply Hin.
  split; [reflexivity|]. split; [unfold on_screen; lia|]. reflexivity.
Defined.

(** ** Pixel maps *)

(** The trace of the base-class [drawRGBBitmap]. *)
Lemma inherited_drawRGBBitmap_trace x y bitmap w h :
  in16 x → in16 y → 0 <= w <= 32767 → 0 <= h →
  x + w <= 32768 → y + h <= 32768 →
  w * h <= Z.of_nat (length bitmap) →
  ∃ t,
    Inherited.drawRGBBitmap x y bitmap w h [] = Some t
    ∧ drawn t
      = flat_map
          (λ j, flat_map
                  (λ i, match bitmap !! Z.to_nat (j * w + i) with
                        | Some c => [(x + i, y + j, c)]
                        | None => []
                        end)
                  (seqZ 0 w))
          (seqZ 0 h)
    ∧ ∀ i j c,
        In (i, j, c) (drawn t)
        ↔ (x <= i < x + w ∧ y <= j < y + h)
          ∧ bitmap !! Z.to_nat ((j - y) * w + (i - x)) = Some c.
Proof.
  intros Hx Hy Hw Hh Hxw Hyh Hlen. unfold in16 in Hx.
  unfold Inherited.drawRGBBitmap, GFX.drawRGBBitmap.
  unfold Inherited.startWrite at 1, Inherited.call at 1.
  cbn [mbind option_bind app].
  rewrite (bitmap_rows_spec _
             (λ j, flat_map
                     (λ i, match bitmap !! Z.to_nat (j * w + i) with
                           | Some c =>
                               [Inherited.DrawPixel (x + i) (y + j) c]
                           | None => []
                           end)
                     (seqZ 0 w))); [ | exact Hy | exact Hyh | ].
  2:{ intros j t byte Hj.
      destruct (for_loop_out
                  (λ i (st : list Inherited.prim * Z),
                     c ← peek bitmap (j * w + i);
                     s ← Inherited.writePixel (wrap16 (x + i)) (y + j) c st.1;
                     Some (s, st.2))
                  (λ i, match bitmap !! Z.to_nat (j * w + i) with
                        | Some c => [Inherited.DrawPixel (x + i) (y + j) c]
                        | None => []
                        end) 0 w) with (n := Z.to_nat w) (i := 0) (t := t)
        (a := byte) as (a' & E); [ | lia | lia | ].
      - intros i t0 a Hi. exists a. cbn [fst snd]. unfold peek.
        destruct (0 <=? j * w + i) eqn:E0; [|zbool; nia].
        destruct (lookup_lt_is_Some_2 bitmap (Z.to_nat (j * w + i)))
          as [c Ec]; [nia|].
        rewrite Ec. cbn [mbind option_bind].
        rewrite wrap16_id by (unfold in16; lia). reflexivity.
      - exists a'. rewrite E. rewrite Z2Nat.id by lia. reflexivity. }
  cbn [mbind option_bind]. unfold Inherited.endWrite, Inherited.call.
  eexists. split; [reflexivity|].
  assert (Hd : drawn
    (([Inherited.StartWrite]
       ++ flat_map
            (λ j, flat_map
                    (λ i, match bitmap !! Z.to_nat (j * w + i) with
                          | Some c => [Inherited.DrawPixel (x + i) (y + j) c]
                          | None => []
                          end)
                    (seqZ 0 w))
            (seqZ 0 h))
       ++ [Inherited.EndWrite])
    = flat_map
        (λ j, flat_map
                (λ i, match bitmap !! Z.to_nat (j * w + i) with
                      | Some c => [(x + i, y + j, c)]
                      | None => []
                      end)
                (seqZ 0 w))
        (seqZ 0 h)).
  { rewrite !drawn_app. cbn [drawn flat_map app]. rewrite app_nil_r.
    rewrite drawn_flat_map. apply flat_map_ext_in. intros j _.
    rewrite drawn_flat_map. apply flat_map_ext_in. intros i _.
    destruct (bitmap !! Z.to_nat (j * w + i)); reflexivity. }
  rewrite Hd. split; [reflexivity|].
  intros i j c. rewrite in_flat_map. split.
  - intros (j' & Hj & Hin). apply in_flat_map in Hin as (i' & Hi & Hin).
    apply in_seqZ in Hj, Hi.
    destruct (bitmap !! Z.to_nat (j' * w + i')) as [c'|] eqn:Eb;
      [|contradiction].
    destruct Hin as [[= <- <- <-]|[]].
    split; [lia|].
    replace (x + i' - x) with i' by lia.
    replace (y + j' - y) with j' by lia. exact Eb.
  - intros ((Hi & Hj) & Eb). exists (j - y). split.
    + apply in_seqZ. lia.
    + apply in_flat_map. exists (i - x). split.
      * apply in_seqZ. lia.
      * rewrite Eb. left. f_equal. f_equal; lia.
Qed.

(** X19.  For [x] and [y] in [int16_t], [0 <= w <= 32767], [0 <= h],
    [x + w <= 32768], [y + h <= 32768] and an array of at least [w * h]
    elements, the base-class [drawRGBBitmap(x, y, bitmap, w, h)] (and
    [drawGrayscaleBitmap], the same body) returns; it reads the array
    row by row without leaving it and hands every pixel
    [(x + i, y + j)] of the rectangle to [drawPixel] once, with element
    [j * w + i] as its colour. *)
Theorem inherited_drawRGBBitmap_row_major x y bitmap w h :
  in16 x → in16 y → 0 <= w <= 32767 → 0 <= h →
  x + w <= 32768 → y + h <= 32768 →
  w * h <= Z.of_nat (length bitmap) →
  ∃ t,
    Inherited.drawRGBBitmap x y bitmap w h [] = Some t
    ∧ Z.of_nat (length (drawn t)) = w * h
    ∧ ∀ i j c,
        In (i, j, c) (drawn t)
        ↔ (x <= i < x + w ∧ y <= j < y + h)
          ∧ bitmap !! Z.to_nat ((j - y) * w + (i - x)) = Some c.
Proof.
  intros Hx Hy Hw Hh Hxw Hyh Hlen.
  destruct (inherited_drawRGBBitmap_trace x y bitmap w h)
    as (t & E & Hd & Hin); try assumption.
  exists t. split; [exact E|]. split; [|exact Hin].
  rewrite Hd.
  rewrite (flat_map_constant_length (c := Z.to_nat w)).
  - rewrite length_seqZ. nia.
  - intros j Hj. apply in_seqZ in Hj.
    rewrite (flat_map_constant_length (c := 1%nat)).
    + rewrite length_seqZ. lia.
    + intros i Hi. apply in_seqZ in Hi.
      destruct (lookup_lt_is_Some_2 bitmap (Z.to_nat (j * w + i)))
        as [c ->]; [nia|]. reflexivity.
Qed.

Lemma inherited_drawRGBBitmap_row_major_witness :
  ∃ t,
    Inherited.drawRGBBitmap 5 5 [1; 2; 3; 4; 5; 6] 3 2 [] = Some t
    ∧ In (6, 6, 5) (drawn t).
Proof.
  destruct (inherited_drawRGBBitmap_row_major 5 5 [1; 2; 3; 4; 5; 6] 3 2)
    as (t & E & _ & Hin);
    [ unfold in16; lia | unfold in16; lia | lia | lia | lia | lia
    | vm_compute; discriminate | ].
  exists t. split; [exact E|]. apply Hin. split; [lia|]. reflexivity.
Defined.

(** X20.  For [x] and [y] in [int16_t], [0 <= w <= 32767], [0 <= h],
    [x + w <= 32768], [y + h <= 32768], a colour array of at least
    [w * h] elements and a mask of at least [(w + 7) / 8 * h] bytes, the
    masked [drawRGBBitmap(x, y, bitmap, mask, w, h)] (and the masked
    [drawGrayscaleBitmap], the same body) returns and draws exactly the
    pixels of the rectangle whose bit in the 1-bit mask is set, each
    with its element of the colour array, and reads neither array out of
    bounds. *)
Theorem drawRGBBitmap_mask_selects x y bitmap mask w h :
  in16 x → in16 y → 0 <= w <= 32767 → 0 <= h →
  x + w <= 32768 → y + h <= 32768 →
  w * h <= Z.of_nat (length bitmap) →
  (w + 7) / 8 * h <= Z.of_nat (length mask) →
  ∃ t,
    Inherited.drawRGBBitmap_mask x y bitmap mask w h [] = Some t
    ∧ ∀ i j c,
        In (i, j, c) (drawn t)
        ↔ (x <= i < x + w ∧ y <= j < y + h)
          ∧ bitmap_bit_set true mask w (i - x) (j - y) = true
          ∧ bitmap !! Z.to_nat ((j - y) * w + (i - x)) = Some c.
Proof.
  intros Hx Hy Hw Hh Hxw Hyh Hlen Hmask. unfold in16 in Hx.
  unfold Inherited.drawRGBBitmap_mask, GFX.drawRGBBitmap_mask. cbv zeta.
  pose proof (bitmap_member true
    (λ y j set i s,
       if set
       then c ← peek bitmap (j * w + i);
            Inherited.writePixel (wrap16 (x + i)) y c s
       else Some s)
    (λ j (set : bool) i,
       if set
       then match bitmap !! Z.to_nat (j * w + i) with
            | Some c => [Inherited.DrawPixel (x + i) (y + j) c]
            | None => []
            end
       else [])
    mask y w h) as Hm.
  cbv beta in Hm. rewrite Hm; try assumption.
  2:{ intros j [] i t Hj Hi.
      - unfold peek.
        destruct (0 <=? j * w + i) eqn:E0; [|zbool; nia].
        destruct (lookup_lt_is_Some_2 bitmap (Z.to_nat (j * w + i)))
          as [c Ec]; [nia|].
        rewrite Ec. cbn [mbind option_bind].
        rewrite wrap16_id by (unfold in16; lia). reflexivity.
      - rewrite app_nil_r. reflexivity. }
  clear Hm. eexists. split; [reflexivity|].
  intros i j c.
  rewrite !drawn_app. cbn [drawn flat_map app]. rewrite app_nil_r.
  rewrite drawn_flat_map, in_flat_map. split.
  - intros (j' & Hj & Hin). rewrite drawn_flat_map in Hin.
    apply in_flat_map in Hin as (i' & Hi & Hin).
    apply in_seqZ in Hj, Hi.
    destruct (bitmap_bit_set true mask w i' j') eqn:Eb; [|contradiction].
    destruct (bitmap !! Z.to_nat (j' * w + i')) as [c'|] eqn:Ec;
      [|contradiction].
    destruct Hin as [[= <- <- <-]|[]].
    split; [lia|].
    replace (x + i' - x) with i' by lia.
    replace (y + j' - y) with j' by lia. split; assumption.
  - intros ((Hi & Hj) & Eb & Ec). exists (j - y). split.
    + apply in_seqZ. lia.
    + rewrite drawn_flat_map. apply in_flat_map. exists (i - x). split.
      * apply in_seqZ. lia.
      * rewrite Eb, Ec. left. f_equal. f_equal; lia.
Qed.

Lemma drawRGBBitmap_mask_selects_witness :
  ∃ t,
    Inherited.drawRGBBitmap_mask 0 0 [11; 12; 13] [0xA0] 3 1 [] = Some t
    ∧ In (2, 0, 13) (drawn t) ∧ ¬ In (1, 0, 12) (drawn t).
Proof.
  destruct (drawRGBBitmap_mask_selects 0 0 [11; 12; 13] [0xA0] 3 1)
    as (t & E & Hin);
    [ unfold in16; lia | unfold in16; lia | lia | lia | lia | lia
    | vm_compute; discriminate | vm_compute; discriminate | ].
  exists t. split; [exact E|]. split.
  - apply Hin. split; [lia|]. split; reflexivity.
  - intros Hc. apply Hin in Hc as (_ & Hb & _). discriminate Hb.
Defined.


(** ** The scanlines of a triangle *)

(** A crossing lies between the two ends of its edge. *)
Lemma crossing_between dx k d :
  0 < d → 0 <= k <= d →
  Z.min 0 dx <= dx * k ÷ d <= Z.max 0 dx.
Proof.
  intros Hd Hk. destruct (Z.le_gt_cases 0 dx) as [H0|H0].
  - rewrite Z.quot_div_nonneg by nia.
    assert (0 <= dx * k / d) by (apply Z.div_pos; nia).
    assert (dx * k / d <= dx) by (apply Z.div_le_upper_bound; nia).
    lia.
  - replace (dx * k) with (- (- dx * k)) by ring.
    rewrite Z.quot_opp_l by lia.
    rewrite Z.quot_div_nonneg by nia.
    assert (0 <= - dx * k / d) by (apply Z.div_pos; nia).
    assert (- dx * k / d <= - dx) by (apply Z.div_le_upper_bound; nia).
    lia.
Qed.

(** One of the two loops: rows [y .. ylast], edge [a] starting at
    [(xa, ya)] with extent [(dxa, dya)], edge 0-2 starting at [(x0, y0)]
    with extent [(dx02, dy02)]. *)
Lemma scanlines_rows xa ya dxa dya x0 y0 dx02 dy02 ylast color lo hi :
  in16 lo → in16 hi → hi - lo <= 32766 →
  lo <= xa <= hi → lo <= xa + dxa <= hi →
  lo <= x0 <= hi → lo <= x0 + dx02 <= hi →
  ylast < 32767 → ylast <= ya + dya → ylast <= y0 + dy02 →
  dya <= 32767 → dy02 <= 32767 →
  ∀ fuel y t,
    in16 y → ya <= y → y0 <= y →
    (y <= ylast → 0 < dya ∧ 0 < dy02) →
    Z.max 0 (ylast - y + 1) < Z.of_nat fuel →
    GFX.scanlines (λ x y w color, SpanLog.record
                                    (SpanLog.WriteFastHLine x y w color))
      fuel y ylast xa dxa dya x0 dx02 dy02
      (dxa * (y - ya)) (dx02 * (y - y0)) color t
    = Some (t ++ ((λ y,
                     let a := xa + dxa * (y - ya) ÷ dya in
                     let b := x0 + dx02 * (y - y0) ÷ dy02 in
                     SpanLog.WriteFastHLine (Z.min a b) y
                       (Z.abs (b - a) + 1) color)
                    <$> seqZ y (ylast - y + 1)),
            Z.max y (ylast + 1)).
Proof.
  intros Hlo Hhi Hspread Hxa Hxa' Hx0 Hx0' Hlast Hya Hy0 Hdya Hdy02.
  unfold in16 in Hlo, Hhi.
  induction fuel as [|fuel IH]; intros y t Hy Hyya Hyy0 Hpos Hfuel; [lia|].
  cbn [GFX.scanlines]. unfold in16 in Hy.
  destruct (y <=? ylast) eqn:E; zbool.
  2:{ rewrite seqZ_nil by lia. rewrite app_nil_r. do 2 f_equal. lia. }
  destruct (Hpos E) as [Hd1 Hd2].
  destruct (dya =? 0) eqn:E1; [zbool; lia|].
  destruct (dy02 =? 0) eqn:E2; [zbool; lia|]. cbn [orb].
  pose proof (crossing_between dxa (y - ya) dya Hd1 ltac:(lia)) as Ba.
  pose proof (crossing_between dx02 (y - y0) dy02 Hd2 ltac:(lia)) as Bb.
  set (qa := dxa * (y - ya) ÷ dya) in *.
  set (qb := dx02 * (y - y0) ÷ dy02) in *.
  rewrite (wrap16_id (xa + qa)), (wrap16_id (x0 + qb)) by (unfold in16; lia).
  assert (Hsa : GFX.wrap32 (dxa * (y - ya) + dxa) = dxa * (y + 1 - ya)).
  { unfold GFX.wrap32.
    replace (dxa * (y - ya) + dxa) with (dxa * (y + 1 - ya)) by ring.
    assert (- 2147483648 <= dxa * (y + 1 - ya) < 2147483648) by nia.
    elia. }
  assert (Hsb : GFX.wrap32 (dx02 * (y - y0) + dx02) = dx02 * (y + 1 - y0)).
  { unfold GFX.wrap32.
    replace (dx02 * (y - y0) + dx02) with (dx02 * (y + 1 - y0)) by ring.
    assert (- 2147483648 <= dx02 * (y + 1 - y0) < 2147483648) by nia.
    elia. }
  rewrite Hsa, Hsb.
  rewrite (wrap16_id (y + 1)) by (unfold in16; lia).
  assert (Hspan :
    (let '(a, b) := if xa + qa >? x0 + qb then (x0 + qb, xa + qa)
                    else (xa + qa, x0 + qb) in
     s ← SpanLog.record
           (SpanLog.WriteFastHLine a y (wrap16 (b - a + 1)) color) t;
     GFX.scanlines (λ x y w color, SpanLog.record
                                     (SpanLog.WriteFastHLine x y w color))
       fuel (y + 1) ylast xa dxa dya x0 dx02 dy02
       (dxa * (y + 1 - ya)) (dx02 * (y + 1 - y0)) color s)
    = GFX.scanlines (λ x y w color, SpanLog.record
                                      (SpanLog.WriteFastHLine x y w color))
        fuel (y + 1) ylast xa dxa dya x0 dx02 dy02
        (dxa * (y + 1 - ya)) (dx02 * (y + 1 - y0)) color
        (t ++ [SpanLog.WriteFastHLine (Z.min (xa + qa) (x0 + qb)) y
                 (Z.abs (x0 + qb - (xa + qa)) + 1) color])).
  { destruct (xa + qa >? x0 + qb) eqn:Eab; zbool;
      unfold SpanLog.record; cbn [mbind option_bind];
      rewrite wrap16_id by (unfold in16; lia);
      do 4 f_equal; lia. }
  rewrite Hspan. rewrite IH; try (unfold in16; lia).
  rewrite (seqZ_cons y) by lia. cbn [fmap list_fmap].
  rewrite <- app_assoc. cbn [app]. fold qa qb.
  replace (Z.succ y) with (y + 1) by lia.
  replace (Z.pred (ylast - y + 1)) with (ylast - (y + 1) + 1) by lia.
  do 2 f_equal. lia.
Qed.

Lemma fmap_seqZ_ext {B} (f g : Z → B) m n :
  (∀ k, m <= k < m + n → f k = g k) → f <$> seqZ m n = g <$> seqZ m n.
Proof. intros H. apply Forall_fmap_ext_1, Forall_seqZ. exact H. Qed.

Lemma wrap32_id z : -2147483648 <= z < 2147483648 → GFX.wrap32 z = z.
Proof. unfold GFX.wrap32. elia. Qed.

(** X22.  For a triangle that is not flat, with vertices already sorted
    by row ([y0 <= y1 <= y2], [y0 < y2]), rows with [-32768 < y0],
    [y2 < 32767] and [y2 - y0 <= 32767], and columns in [int16_t] whose
    extremes are at most 32766 apart, [fillTriangle] returns, given more
    than 32768 turns of fuel, and issues, inside one transaction, exactly
    one [writeFastHLine] per row from [y0] to [y2], in this order; the
    span of row [y] runs between the crossings of the two edges that the
    comments of the source give in longhand, so no division is by zero,
    and it lies within the columns of the three vertices.  A triangle
    that reaches row 32767 is not covered: the row counter runs one past
    [y2]. *)
Theorem fillTriangle_rows fuel x0 y0 x1 y1 x2 y2 color :
  let lo := Z.min x0 (Z.min x1 x2) in
  let hi := Z.max x0 (Z.max x1 x2) in
  y0 <= y1 <= y2 → y0 < y2 →
  in16 lo → in16 hi → hi - lo <= 32766 →
  -32768 < y0 → y2 < 32767 → y2 - y0 <= 32767 →
  32768 < Z.of_nat fuel →
  SpanLog.fillTriangle fuel x0 y0 x1 y1 x2 y2 color []
  = Some ([SpanLog.StartWrite]
            ++ (triangle_row x0 y0 x1 y1 x2 y2 color
                  <$> seqZ y0 (y2 - y0 + 1))
            ++ [SpanLog.EndWrite])
  ∧ ∀ y, y0 <= y <= y2 →
         ∃ a w, triangle_row x0 y0 x1 y1 x2 y2 color y
                = SpanLog.WriteFastHLine a y w color
                ∧ 0 < w ∧ lo <= a ∧ a + w - 1 <= hi.
Proof.
  intros lo hi Hsort Hne Hlo Hhi Hspread Hy0 Hy2 Hdy Hfuel.
  pose proof Hlo as Hlo'. pose proof Hhi as Hhi'.
  unfold in16 in Hlo', Hhi'.
  assert (Hx0 : lo <= x0 <= hi) by (unfold lo, hi; lia).
  assert (Hx1 : lo <= x1 <= hi) by (unfold lo, hi; lia).
  assert (Hx2 : lo <= x2 <= hi) by (unfold lo, hi; lia).
  clearbody lo hi.
  split.
  - unfold SpanLog.fillTriangle, GFX.fillTriangle.
    destruct (y0 >? y1) eqn:E1; [zbool; lia|]. cbv beta iota.
    destruct (y1 >? y2) eqn:E2; [zbool; lia|]. cbv beta iota.
    rewrite E1. cbv beta iota.
    destruct (y0 =? y2) eqn:E3; [zbool; lia|].
    change (SpanLog.record SpanLog.StartWrite [])
      with (Some [SpanLog.StartWrite]).
    cbn [mbind option_bind app].
    rewrite (wrap16_id (x1 - x0)), (wrap16_id (y1 - y0)),
      (wrap16_id (x2 - x0)), (wrap16_id (y2 - y0)),
      (wrap16_id (x2 - x1)), (wrap16_id (y2 - y1)) by (unfold in16; lia).
    pose proof (scanlines_rows x0 y0 (x1 - x0) (y1 - y0) x0 y0 (x2 - x0)
                  (y2 - y0)) as Hup.
    pose proof (scanlines_rows x1 y1 (x2 - x1) (y2 - y1) x0 y0 (x2 - x0)
                  (y2 - y0) y2 color lo hi) as Hdown.
    destruct (y1 =? y2) eqn:E4; zbool.
    + (* flat-bottomed: the first loop draws every row *)
      specialize (Hup y1 color lo hi).
      assert (Hup' := λ a b c d e f g h i j k l,
                Hup a b c d e f g h i j k l fuel y0 [SpanLog.StartWrite]).
      rewrite Z.sub_diag, !Z.mul_0_r in Hup'.
      rewrite Hup'; try assumption; try (unfold in16; lia).
      cbn [mbind option_bind].
      replace (Z.max y0 (y1 + 1)) with (y2 + 1) by lia.
      rewrite !wrap32_id by nia.
      rewrite Hdown; try assumption; try (unfold in16; lia).
      cbn [mbind option_bind]. rewrite (seqZ_nil (y2 + 1)) by lia.
      cbn [fmap list_fmap]. rewrite app_nil_r.
      unfold SpanLog.record. subst y1. cbn [app]. do 3 f_equal.
      apply fmap_seqZ_ext. intros k Hk. unfold triangle_row.
      rewrite Z.eqb_refl, orb_true_r. reflexivity.
    + specialize (Hup (y1 - 1) color lo hi).
      rewrite (wrap16_id (y1 - 1)) by (unfold in16; lia).
      assert (Hup' := λ a b c d e f g h i j k l,
                Hup a b c d e f g h i j k l fuel y0 [SpanLog.StartWrite]).
      rewrite Z.sub_diag, !Z.mul_0_r in Hup'.
      rewrite Hup'; try assumption; try (unfold in16; lia).
      cbn [mbind option_bind].
      replace (Z.max y0 (y1 - 1 + 1)) with y1 by lia.
      rewrite !wrap32_id by nia.
      rewrite Hdown; try assumption; try (unfold in16; lia).
      cbn [mbind option_bind].
      unfold SpanLog.record. rewrite <- !app_assoc. cbn [app].
      do 2 f_equal. rewrite app_assoc. f_equal.
      replace (y2 - y0 + 1) with ((y1 - y0) + (y2 - y1 + 1)) by lia.
      rewrite (seqZ_app y0 (y1 - y0) (y2 - y1 + 1)) by lia. rewrite fmap_app.
      replace (y0 + (y1 - y0)) with y1 by lia.
      replace (y1 - 1 - y0 + 1) with (y1 - y0) by lia.
      f_equal; apply fmap_seqZ_ext; intros k Hk; unfold triangle_row.
      * destruct (k <? y1) eqn:Ek; [|zbool; lia]. reflexivity.
      * destruct (k <? y1) eqn:Ek; [zbool; lia|].
        destruct (y1 =? y2) eqn:Ey; [zbool; lia|]. reflexivity.
  - intros y Hy. unfold triangle_row. eexists _, _. split; [reflexivity|].
    pose proof (crossing_between (x2 - x0) (y - y0) (y2 - y0)
                  ltac:(lia) ltac:(lia)) as Bb.
    destruct ((y <? y1) || (y1 =? y2)) eqn:Eup.
    + assert (Hd : 0 < y1 - y0 ∧ y - y0 <= y1 - y0).
      { destruct (y <? y1) eqn:Ea; zbool; [lia|].
        destruct (y1 =? y2) eqn:Eb; zbool; [lia|discriminate]. }
      pose proof (crossing_between (x1 - x0) (y - y0) (y1 - y0)
                    ltac:(lia) ltac:(lia)) as Ba.
      lia.
    + destruct (y <? y1) eqn:Ea; [discriminate|].
      destruct (y1 =? y2) eqn:Eb; [discriminate|]. zbool.
      pose proof (crossing_between (x2 - x1) (y - y1) (y2 - y1)
                    ltac:(lia) ltac:(lia)) as Ba.
      lia.
Qed.

Lemma fillTriangle_rows_witness :
  SpanLog.fillTriangle (Z.to_nat 32769) 0 0 4 2 0 4 9 []
  = Some ([SpanLog.StartWrite]
            ++ (triangle_row 0 0 4 2 0 4 9 <$> seqZ 0 (4 - 0 + 1))
            ++ [SpanLog.EndWrite]).
Proof.
  apply (fillTriangle_rows (Z.to_nat 32769) 0 0 4 2 0 4 9);
    unfold in16; simpl; lia.
Defined.

(** ** The canvases keep their buffer *)

Lemma poke_length buf i v buf' : poke buf i v = Some buf' → length buf' = length buf.
Proof.
  unfold poke. destruct (_ && _); [|discriminate].
  intros [= <-]. apply length_insert.
Qed.

Lemma memset_length buf off v n buf' :
  memset buf off v n = Some buf' → length buf' = length buf.
Proof.
  unfold memset.
  destruct (0 <=? off) eqn:E1; [|discriminate].
  destruct (0 <=? n) eqn:E2; [|discriminate].
  destruct (off + n <=? Z.of_nat (length buf)) eqn:E3; [|discriminate].
  zbool. intros [= <-].
  rewrite !length_app, length_take, length_replicate, length_drop. lia.
Qed.

Lemma store_all_length color : ∀ idx buf buf',
  Canvas16.store_all buf idx color = Some buf' → length buf' = length buf.
Proof.
  induction idx as [|i idx IH]; intros buf buf' H; simpl in H.
  - injection H as <-. reflexivity.
  - destruct (poke buf i color) as [b1|] eqn:E; [|discriminate].
    simpl in H. rewrite (IH _ _ H). apply (poke_length _ _ _ _ E).
Qed.

Lemma keeps_of_size c0 (f : canvas → option canvas) :
  (∀ c c', f c = Some c' → length <$> buffer c' = length <$> buffer c) →
  keeps (same_buffer_size c0) f.
Proof.
  intros Hf c c' H Hc. unfold same_buffer_size. rewrite (Hf _ _ H). exact Hc.
Qed.

Lemma drawPixel_size d x y color c c' :
  Offscreen.drawPixel d x y color c = Some c' →
  length <$> buffer c' = length <$> buffer c.
Proof.
  destruct d; cbn [Offscreen.drawPixel];
    unfold Canvas1.drawPixel, Canvas8.drawPixel, Canvas16.drawPixel;
    destruct (buffer c) as [buf|] eqn:Eb;
    try (intros [= <-]; rewrite Eb; reflexivity);
    destruct (off_canvas _ _ _);
    try (intros [= <-]; rewrite Eb; reflexivity);
    destruct (rotate_xy _ _ _) as [rx ry].
  - destruct (peek buf _) as [old|]; [|discriminate]. cbn [mbind option_bind].
    match goal with
    | |- context [poke buf ?i ?v] =>
        destruct (poke buf i v) as [b1|] eqn:E; [|discriminate]
    end.
    intros [= <-]. cbn [buffer fmap option_fmap option_map].
    f_equal. apply (poke_length _ _ _ _ E).
  - destruct (poke buf _ _) as [b1|] eqn:E; [|discriminate].
    intros [= <-]. cbn [buffer fmap option_fmap option_map].
    f_equal. apply (poke_length _ _ _ _ E).
  - destruct (poke buf _ _) as [b1|] eqn:E; [|discriminate].
    intros [= <-]. cbn [buffer fmap option_fmap option_map].
    f_equal. apply (poke_length _ _ _ _ E).
Qed.

Lemma fillScreen_size d color c c' :
  Offscreen.fillScreen d color c = Some c' →
  length <$> buffer c' = length <$> buffer c.
Proof.
  destruct d; cbn [Offscreen.fillScreen];
    unfold Canvas1.fillScreen, Canvas8.fillScreen, Canvas16.fillScreen;
    destruct (buffer c) as [buf|] eqn:Eb;
    try (intros [= <-]; rewrite Eb; reflexivity).
  - destruct (memset buf _ _ _) as [b1|] eqn:E; [|discriminate].
    intros [= <-]. cbn [buffer fmap option_fmap option_map].
    f_equal. apply (memset_length _ _ _ _ _ E).
  - destruct (memset buf _ _ _) as [b1|] eqn:E; [|discriminate].
    intros [= <-]. cbn [buffer fmap option_fmap option_map].
    f_equal. apply (memset_length _ _ _ _ _ E).
  - cbv zeta.
    destruct (u8 (Z.shiftr color 8) =? u8 (Z.land color 255)).
    + match goal with
      | |- context [if ?b then _ else _] => destruct b eqn:El
      end; [|discriminate].
      zbool. intros [= <-]. cbn [buffer fmap option_fmap option_map].
      f_equal. rewrite length_app, length_replicate, length_drop.
      assert (0 <= u32 (WIDTH (gfx c) * HEIGHT (gfx c) * 2))
        by (unfold u32; elia).
      assert (u32 (WIDTH (gfx c) * HEIGHT (gfx c) * 2) ÷ 2
              <= Z.of_nat (length buf)) by elia.
      assert (0 <= u32 (WIDTH (gfx c) * HEIGHT (gfx c) * 2) ÷ 2) by elia.
      lia.
    + destruct (Canvas16.store_all buf _ _) as [b1|] eqn:E; [|discriminate].
      intros [= <-]. cbn [buffer fmap option_fmap option_map].
      f_equal. apply (store_all_length _ _ _ _ E).
Qed.

Lemma writeFastHLine8_size x y w color c c' :
  Canvas8.writeFastHLine x y w color c = Some c' →
  length <$> buffer c' = length <$> buffer c.
Proof.
  unfold Canvas8.writeFastHLine.
  destruct (buffer c) as [buf|] eqn:Eb;
    [|intros [= <-]; rewrite Eb; reflexivity].
  intros H.
  repeat match type of H with
         | context [if ?b then _ else _] =>
             destruct b; try (injection H as <-; rewrite Eb; reflexivity)
         end;
    repeat match type of H with
           | context [let '(_, _) := ?p in _] => destruct p
           end;
    (destruct (memset buf _ _ _) as [b1|] eqn:E; [|discriminate]);
    injection H as <-; cbn [buffer fmap option_fmap option_map];
    f_equal; apply (memset_length _ _ _ _ _ E).
Qed.

Section BufferSize.

Variables (c0 : canvas) (d : depth) (fuel : nat).

Let P := same_buffer_size c0.

Lemma startWrite_size : keeps P Offscreen.startWrite.
Proof. apply keeps_of_size. intros c c' [= ->]. reflexivity. Qed.

Lemma endWrite_size : keeps P Offscreen.endWrite.
Proof. apply keeps_of_size. intros c c' [= ->]. reflexivity. Qed.

Lemma writePixel_size x y color : keeps P (Offscreen.writePixel d x y color).
Proof. apply keeps_of_size, drawPixel_size. Qed.

Lemma writeLine_size x0 y0 x1 y1 color :
  keeps P (Offscreen.writeLine d fuel x0 y0 x1 y1 color).
Proof. apply writeLine_keeps. apply writePixel_size. Qed.

Lemma drawFastVLine_size x y h color :
  keeps P (Offscreen.drawFastVLine d fuel x y h color).
Proof.
  apply drawFastVLine_keeps;
    auto using startWrite_size, endWrite_size, writeLine_size.
Qed.

Lemma drawFastHLine_size x y w color :
  keeps P (Offscreen.drawFastHLine d fuel x y w color).
Proof.
  apply drawFastHLine_keeps;
    auto using startWrite_size, endWrite_size, writeLine_size.
Qed.

Lemma writeFastHLine_size x y w color :
  keeps P (Offscreen.writeFastHLine d fuel x y w color).
Proof.
  unfold Offscreen.writeFastHLine.
  destruct d eqn:Ed; try (rewrite <- Ed; apply drawFastHLine_size).
  apply keeps_of_size, writeFastHLine8_size.
Qed.

Lemma step_size o : keeps P (Offscreen.step d fuel o).
Proof.
  destruct o; cbn [Offscreen.step].
  - apply keeps_of_size. intros c c' [= <-]. reflexivity.
  - apply writePixel_size.
  - apply keeps_of_size, fillScreen_size.
  - apply writeFastHLine_size.
  - apply drawFastHLine_size.
  - apply drawFastVLine_size.
  - apply fillRect_keeps;
      auto using startWrite_size, endWrite_size, drawFastVLine_size.
  - apply drawLine_keeps;
      auto using startWrite_size, endWrite_size, writeLine_size,
        drawFastVLine_size, drawFastHLine_size.
  - apply fillTriangle_keeps;
      auto using startWrite_size, endWrite_size, writeFastHLine_size.
Qed.

End BufferSize.

(** X23.  No history of public operations on a canvas resizes, allocates
    or frees its buffer: when the operations return, the canvas has a
    buffer exactly when it had one before, and of the same number of
    cells. *)
Theorem canvas_buffer_never_resized d fuel ops : ∀ c c',
  Offscreen.run d fuel ops c = Some c' →
  length <$> buffer c' = length <$> buffer c.
Proof.
  induction ops as [|o ops IH]; intros c c' Hrun; simpl in Hrun.
  - injection Hrun as <-. reflexivity.
  - destruct (Offscreen.step d fuel o c) as [c1|] eqn:E; [|discriminate].
    simpl in Hrun. rewrite (IH _ _ Hrun).
    apply (step_size c d fuel o c c1 E). reflexivity.
Qed.

Lemma canvas_buffer_never_resized_witness :
  ∃ c', Offscreen.run Bpp16 8
          [Offscreen.FillScreen 0x1234; Offscreen.SetRotation 1;
           Offscreen.DrawLine 0 0 1 2 5]
          (Offscreen.new Bpp16 3 2 true) = Some c'
        ∧ length <$> buffer c' = Some 6%nat.
Proof.
  destruct (Offscreen.run Bpp16 8
              [Offscreen.FillScreen 0x1234; Offscreen.SetRotation 1;
               Offscreen.DrawLine 0 0 1 2 5]
              (Offscreen.new Bpp16 3 2 true))
    as [c'|] eqn:E; [|vm_compute in E; discriminate].
  exists c'. split; [reflexivity|].
  rewrite (canvas_buffer_never_resized Bpp16 8 _ _ c' E). reflexivity.
Defined.

(** ** Text *)

(** A counted loop over a log: turn [i] appends [out i]. *)
Lemma for_loop_log {T A} (body : Z → list T * A → option (list T * A))
    (out : Z → list T) (I : Z → A → Prop) hi :
  (∀ i t a, i < hi → I i a →
            ∃ a', body i (t, a) = Some (t ++ out i, a') ∧ I (i + 1) a') →
  ∀ n i t a,
    i + Z.of_nat n <= hi → I i a →
    ∃ a', for_loop n i body (t, a)
          = Some (t ++ flat_map out (seqZ i (Z.of_nat n)), a')
          ∧ I (i + Z.of_nat n) a'.
Proof.
  intros Hbody. induction n as [|n IH]; intros i t a Hn Hi.
  - exists a. simpl. rewrite app_nil_r, Z.add_0_r. auto.
  - cbn [for_loop]. destruct (Hbody i t a) as (a1 & -> & H1); [lia|exact Hi|].
    cbn [mbind option_bind].
    destruct (IH (i + 1) (t ++ out i) a1) as (a' & -> & H'); [lia|exact H1|].
    exists a'. rewrite (seqZ_cons i) by lia. cbn [flat_map].
    rewrite <- app_assoc.
    replace (Z.succ i) with (i + 1) by lia.
    replace (Z.pred (Z.of_nat (S n))) with (Z.of_nat n) by lia.
    replace (i + Z.of_nat (S n)) with (i + 1 + Z.of_nat n) by lia.
    auto.
Qed.

Lemma for_loop_calls {T} (body : Z → list T → option (list T))
    (out : Z → list T) lo hi :
  (∀ i t, lo <= i < hi → body i t = Some (t ++ out i)) →
  ∀ n i t,
    lo <= i → i + Z.of_nat n <= hi →
    for_loop n i body t = Some (t ++ flat_map out (seqZ i (Z.of_nat n))).
Proof.
  intros Hbody. induction n as [|n IH]; intros i t Hi Hn.
  - simpl. rewrite app_nil_r. reflexivity.
  - cbn [for_loop]. rewrite Hbody by lia. cbn [mbind option_bind].
    rewrite IH by lia. rewrite (seqZ_cons i) by lia. cbn [flat_map].
    rewrite <- app_assoc.
    replace (Z.succ i) with (i + 1) by lia.
    replace (Z.pred (Z.of_nat (S n))) with (Z.of_nat n) by lia.
    reflexivity.
Qed.

Lemma low_bit x : negb (Z.land x 1 =? 0) = Z.testbit x 0.
Proof.
  change 1 with (Z.ones 1). rewrite Z.land_ones by lia.
  change (2 ^ 1) with 2. rewrite <- Z.bit0_mod.
  destruct (Z.testbit x 0); reflexivity.
Qed.

Section ClassicFont.

Variables (font : list Z) (t : Text.printer).
Variables (x y color bg size : Z).

Hypothesis Hsize : 0 < size < 256.
Hypothesis Hx : -32768 <= x ∧ x + 6 * size <= 32768.
Hypothesis Hy : -32768 <= y ∧ y + 8 * size <= 32768.

Lemma dot_call c i j log :
  0 <= i < 6 → 0 <= j < 8 →
  Text.dot (λ x y color, Glyphs.record (Glyphs.WritePixel x y color))
    (λ x y w h color, Glyphs.record (Glyphs.WriteFillRect x y w h color))
    x y size c i j log
  = Some (log ++ [glyph_dot x y size c i j]).
Proof.
  intros Hi Hj. unfold Text.dot, glyph_dot, Glyphs.record.
  destruct (size =? 1) eqn:E; zbool.
  - rewrite !wrap16_id by (unfold in16; lia). reflexivity.
  - rewrite !wrap16_id by (unfold in16; nia). reflexivity.
Qed.


Lemma classic_bits i line log :
  0 <= i < 5 →
  ∃ l', for_loop 8 0
          (Text.classic_bit
             (λ x y color, Glyphs.record (Glyphs.WritePixel x y color))
             (λ x y w h color, Glyphs.record (Glyphs.WriteFillRect x y w h color))
             x y size color bg i) (log, line)
        = Some (log ++ flat_map
                         (λ j, if Z.testbit line j
                               then [glyph_dot x y size color i j]
                               else if bg =? color then []
                               else [glyph_dot x y size bg i j])
                         (seqZ 0 8), l').
Proof.
  intros Hi.
  destruct (for_loop_log
              (Text.classic_bit
                 (λ x y color, Glyphs.record (Glyphs.WritePixel x y color))
                 (λ x y w h color,
                    Glyphs.record (Glyphs.WriteFillRect x y w h color))
                 x y size color bg i)
              (λ j, if Z.testbit line j
                    then [glyph_dot x y size color i j]
                    else if bg =? color then []
                    else [glyph_dot x y size bg i j])
              (λ j l, 0 <= j ∧ l = Z.shiftr line j) 8) with
    (n := 8%nat) (i := 0) (t := log) (a := line) as (l' & E & _).
  - intros j t0 l Hj [Hj0 ->]. eexists. split; [|split; [lia|reflexivity]].
    unfold Text.classic_bit. cbn [fst snd].
    rewrite low_bit, Z.shiftr_spec, Z.add_0_l by lia.
    rewrite Z.shiftr_shiftr by lia.
    destruct (Z.testbit line j).
    + rewrite dot_call by lia. reflexivity.
    + destruct (bg =? color); cbn [negb].
      * rewrite app_nil_r. reflexivity.
      * rewrite dot_call by lia. reflexivity.
  - simpl. lia.
  - split; [lia|]. rewrite Z.shiftr_0_r. reflexivity.
  - exists l'. exact E.
Qed.


Hypothesis Hfont : 1280 <= Z.of_nat (length font).

Lemma classic_columns c log :
  0 <= c < 256 →
  for_loop 5 0
    (Text.classic_column
       (λ x y color, Glyphs.record (Glyphs.WritePixel x y color))
       (λ x y w h color, Glyphs.record (Glyphs.WriteFillRect x y w h color))
       font x y size color bg c) log
  = Some (log ++ flat_map
                   (λ i, flat_map
                           (λ j, match font !! Z.to_nat (c * 5 + i) with
                                 | Some line =>
                                     if Z.testbit line j
                                     then [glyph_dot x y size color i j]
                                     else if bg =? color then []
                                     else [glyph_dot x y size bg i j]
                                 | None => []
                                 end)
                           (seqZ 0 8))
                   (seqZ 0 5)).
Proof.
  intros Hc.
  apply (for_loop_calls _ _ 0 5 ) with (n := 5%nat) (i := 0); [|lia|simpl; lia].
  intros i t0 Hi. unfold Text.classic_column.
  destruct (lookup_lt_is_Some_2 font (Z.to_nat (c * 5 + i))) as [line El];
    [lia|].
  rewrite El. cbn [mbind option_bind].
  destruct (classic_bits i (u8 line) t0) as (l' & ->); [lia|].
  cbn [mbind option_bind fst]. do 2 f_equal.
  apply flat_map_ext_in. intros j Hj. apply in_seqZ in Hj.
  unfold u8. change 256 with (2 ^ 8).
  rewrite Z.mod_pow2_bits_low by lia. reflexivity.
Qed.


(** [drawChar] with the classic font: nothing when the cell of the
    character misses the screen, the dots in a transaction otherwise. *)
Lemma classic_trace c log :
  Text.gfxFont t = None → 0 <= c < 256 →
  Glyphs.drawChar font t x y c color bg size log
  = Some (log ++
          if (x >=? _width (Text.scr t)) || (y >=? _height (Text.scr t))
             || (x + 6 * size - 1 <? 0) || (y + 8 * size - 1 <? 0)
          then []
          else [Glyphs.StartWrite]
                 ++ classic_dots font x y
                      (if negb (Text._cp437 t) && (c >=? 176)
                       then u8 (c + 1) else c) color bg size
                 ++ [Glyphs.EndWrite]).
Proof.
  intros Hf Hc. unfold Glyphs.drawChar, Text.drawChar. rewrite Hf.
  destruct (_ || _); [rewrite app_nil_r; reflexivity|].
  set (c' := if negb (Text._cp437 t) && (c >=? 176) then u8 (c + 1) else c).
  assert (Hc' : 0 <= c' < 256).
  { unfold c'. destruct (_ && _); [unfold u8; elia | exact Hc]. }
  change (Glyphs.record Glyphs.StartWrite log)
    with (Some (log ++ [Glyphs.StartWrite])).
  cbn [mbind option_bind]. rewrite classic_columns by exact Hc'.
  cbn [mbind option_bind]. unfold classic_dots, Glyphs.record.
  destruct (bg =? color); cbn [negb mbind option_bind].
  - rewrite !app_nil_r, <- !app_assoc. reflexivity.
  - destruct (size =? 1) eqn:E; zbool.
    + rewrite !wrap16_id by (unfold in16; lia).
      cbn [mbind option_bind]. rewrite <- !app_assoc. reflexivity.
    + rewrite !wrap16_id by (unfold in16; lia).
      cbn [mbind option_bind]. rewrite <- !app_assoc. reflexivity.
Qed.

Lemma glyph_dot_within c i j :
  0 <= i < 5 → 0 <= j < 8 →
  call_within x y (x + 6 * size - 1) (y + 8 * size - 1)
    (glyph_dot x y size c i j).
Proof.
  intros Hi Hj. unfold glyph_dot.
  destruct (size =? 1) eqn:E; zbool; cbn [call_within]; [lia|].
  repeat split; nia.
Qed.

Lemma classic_dots_within c :
  Forall (call_within x y (x + 6 * size - 1) (y + 8 * size - 1))
    (classic_dots font x y c color bg size).
Proof.
  unfold classic_dots. apply Forall_app. split.
  - apply Forall_flat_map, Forall_forall. intros i Hi.
    apply in_seqZ in Hi.
    apply Forall_flat_map, Forall_forall. intros j Hj.
    apply in_seqZ in Hj.
    destruct (font !! _); [|constructor].
    destruct (Z.testbit _ _).
    + constructor; [apply glyph_dot_within; lia | constructor].
    + destruct (bg =? color); [constructor|].
      constructor; [apply glyph_dot_within; lia | constructor].
  - destruct (bg =? color); [constructor|].
    destruct (size =? 1) eqn:E; zbool;
      (constructor; [cbn [call_within]; lia | constructor]).
Qed.

(** What [drawChar] draws with the classic font lies in the cell of the
    character. *)
Lemma classic_cell c log :
  Text.gfxFont t = None → 0 <= c < 256 →
  ∃ calls,
    Glyphs.drawChar font t x y c color bg size log = Some (log ++ calls)
    ∧ Forall (call_within x y (x + 6 * size - 1) (y + 8 * size - 1)) calls.
Proof.
  intros Hf Hc. eexists. split; [apply classic_trace; assumption|].
  destruct (_ || _); [constructor|].
  apply Forall_app. split; [repeat constructor|].
  apply Forall_app. split; [apply classic_dots_within|repeat constructor].
Qed.

End ClassicFont.

Lemma call_within_mono x1 y1 x2 y2 x1' y1' x2' y2' e :
  x1' <= x1 → y1' <= y1 → x2 <= x2' → y2 <= y2' →
  call_within x1 y1 x2 y2 e → call_within x1' y1' x2' y2' e.
Proof. destruct e; cbn [call_within]; lia. Qed.

Lemma charBounds_cursor t x y c b :
  Text.charBounds (Text.set_cursor x y t) c b = Text.charBounds t c b.
Proof. reflexivity. Qed.

Lemma bounds_of_cursor (sc : bool) (t : Text.printer) (x y : Z) (str : list Z) : ∀ b,
  Text.bounds_of sc (Text.set_cursor x y t) str b = Text.bounds_of sc t str b.
Proof.
  induction str as [|c str IH]; intros b; [reflexivity|].
  cbn [Text.bounds_of]. rewrite charBounds_cursor.
  destruct (Text.charBounds t _ b); [apply IH|reflexivity].
Qed.

Lemma char_value (sc : bool) (c : Z) :
  0 < c < 256 →
  ((if sc then wrap8 c else c) =? 10) = (c =? 10)
  ∧ ((if sc then wrap8 c else c) =? 13) = (c =? 13).
Proof.
  intros Hc. destruct sc; [|auto]. unfold wrap8.
  destruct (c =? 10) eqn:E1, (c =? 13) eqn:E2; zbool; split; elia.
Qed.

Section ClassicText.

Variables (font : list Z) (sc : bool).
Hypothesis Hfont : 1280 <= Z.of_nat (length font).

Lemma classic_step t b log n c :
  Text.gfxFont t = None → 0 < Text.textsize t < 256 →
  0 < c < 256 → 0 <= n →
  tracks t b log (n + 1) →
  ∃ t' b' log',
    Glyphs.write font c t log = Some (t', log')
    ∧ Text.charBounds t (if sc then wrap8 c else c) b = Some b'
    ∧ Text.gfxFont t' = None ∧ Text.textsize t' = Text.textsize t
    ∧ (∃ x y, t' = Text.set_cursor x y t)
    ∧ tracks t' b' log' n.
Proof.
  intros Hf Hts Hc Hn
    (Hbx & Hby & Hx0 & Hx1 & Hy0 & Hy1 & Hmx & Hmy & HMx & HMy & Hall & Hne).
  destruct (char_value sc c Hc) as [E10 E13].
  unfold Glyphs.write, Text.write, Text.charBounds. rewrite Hf, E10, E13.
  assert (Hp : 0 <= Text.textsize t * n) by nia.
  destruct (c =? 10) eqn:Enl.
  { eexists _, _, _. split; [reflexivity|]. split; [reflexivity|].
    split; [exact Hf|]. split; [reflexivity|]. split; [eauto|].
    unfold tracks, Text.new_line, Text.next_line.
    cbn [Text.set_cursor Text.bx Text.by_ Text.minx Text.miny Text.maxx
         Text.maxy Text.cursor_x Text.cursor_y Text.textsize].
    rewrite Hby, !wrap16_id by (unfold in16; lia).
    repeat split; try assumption; lia. }
  destruct (c =? 13) eqn:Ecr; cbn [negb].
  { eexists _, _, _. split; [reflexivity|]. split; [reflexivity|].
    split; [exact Hf|]. split; [reflexivity|].
    split; [exists (Text.cursor_x t), (Text.cursor_y t); destruct t; reflexivity|].
    unfold tracks. repeat split; try assumption; lia. }
  rewrite Hbx. cbv zeta.
  set (tw := if Text.wrap t && _ then _ else t).
  set (bw := if Text.wrap t && _ then _ else b).
  assert (Hw : Text.gfxFont tw = None ∧ Text.textsize tw = Text.textsize t
               ∧ (∃ x y, tw = Text.set_cursor x y t)
               ∧ Text.bx bw = Text.cursor_x tw
               ∧ Text.by_ bw = Text.cursor_y tw
               ∧ -32768 < Text.cursor_x tw
               ∧ Z.max 0 (Text.cursor_x tw) + 6 * Text.textsize t * (n + 1)
                 <= 32767
               ∧ -32768 < Text.cursor_y tw
               ∧ Text.cursor_y tw + 8 * Text.textsize t * (n + 1) <= 32767
               ∧ Text.minx bw = Text.minx b ∧ Text.miny bw = Text.miny b
               ∧ Text.maxx bw = Text.maxx b ∧ Text.maxy bw = Text.maxy b).
  { unfold tw, bw. destruct (Text.wrap t && _).
    - unfold Text.new_line, Text.next_line.
      cbn [Text.set_cursor Text.bx Text.by_ Text.minx Text.miny Text.maxx
           Text.maxy Text.cursor_x Text.cursor_y Text.textsize Text.gfxFont].
      rewrite Hby, !wrap16_id by (unfold in16; lia).
      repeat split; try assumption; try lia; eauto.
    - repeat split; try assumption; try lia.
      exists (Text.cursor_x t), (Text.cursor_y t). destruct t; reflexivity. }
  clearbody tw bw.
  destruct Hw as (Hfw & Htw & (xw & yw & Hset) & Hbxw & Hbyw & Hxw0 & Hxw1
                  & Hyw0 & Hyw1 & Emx & Emy & EMx & EMy).
  destruct (classic_cell font tw (Text.cursor_x tw) (Text.cursor_y tw)
              (Text.textcolor tw) (Text.textbgcolor tw) (Text.textsize tw))
    with (c := c) (log := log) as (calls & Hd & Hcalls);
    try rewrite Htw; try assumption; try lia.
  unfold Glyphs.drawChar in Hd. rewrite Htw in Hd. rewrite Hd.
  cbn [mbind option_bind].
  eexists _, _, _. split; [reflexivity|]. split; [reflexivity|].
  split; [exact Hfw|]. split; [exact Htw|].
  split; [rewrite Hset; eauto|].
  rewrite Htw in Hcalls.
  unfold tracks, Text.grow.
  cbn [Text.set_cursor Text.bx Text.by_ Text.minx Text.miny Text.maxx
       Text.maxy Text.cursor_x Text.cursor_y Text.textsize].
  rewrite Hbxw, Hbyw, Emx, Emy, EMx, EMy, Htw.
  rewrite !wrap16_id by (unfold in16; lia).
  set (x := Text.cursor_x tw) in *. set (y := Text.cursor_y tw) in *.
  set (ts := Text.textsize t) in *.
  assert (Hmin : ∀ a m, (if a <? m then a else m) = Z.min a m)
    by (intros a m; destruct (a <? m) eqn:E; zbool; lia).
  assert (Hmax : ∀ a m, (if a >? m then a else m) = Z.max a m)
    by (intros a m; destruct (a >? m) eqn:E; zbool; lia).
  rewrite !Hmin, !Hmax.
  split_and!; try lia.
  apply Forall_app. split.
    + eapply Forall_impl; [|exact Hall]. intros e.
      apply call_within_mono; lia.
    + eapply Forall_impl; [|exact Hcalls]. intros e.
      apply call_within_mono; lia.
Qed.

End ClassicText.

Section ClassicWalk.

Variables (font : list Z) (sc : bool).
Hypothesis Hfont : 1280 <= Z.of_nat (length font).

Lemma classic_walk str : ∀ t b log,
  Text.gfxFont t = None → 0 < Text.textsize t < 256 →
  Forall (λ c, 0 < c < 256) str →
  tracks t b log (Z.of_nat (length str)) →
  ∃ t' b' log',
    Glyphs.writes font str t log = Some (t', log')
    ∧ Text.bounds_of sc t str b = Some b'
    ∧ tracks t' b' log' 0.
Proof.
  induction str as [|c str IH]; intros t b log Hf Hts Hstr Htr.
  - exists t, b, log. auto.
  - inversion Hstr as [|? ? Hc Hstr']; subst.
    replace (Z.of_nat (length (c :: str)))
      with (Z.of_nat (length str) + 1) in Htr by (simpl length; lia).
    destruct (classic_step font sc Hfont t b log (Z.of_nat (length str)) c
                Hf Hts Hc (Nat2Z.is_nonneg _) Htr)
      as (t1 & b1 & log1 & Hw & Hb & Hf1 & Hts1 & (x1 & y1 & Hset) & Htr1).
    destruct (IH t1 b1 log1) as (t' & b' & log' & Hws & Hbs & Htr');
      try assumption; [rewrite Hts1; exact Hts|].
    exists t', b', log'. split; [|split; [|exact Htr']].
    + unfold Glyphs.writes in *. cbn [Text.writes].
      unfold Glyphs.write in Hw. rewrite Hw. exact Hws.
    + cbn [Text.bounds_of]. rewrite Hb. cbn [mbind option_bind].
      rewrite <- Hbs, Hset. symmetry. apply bounds_of_cursor.
Qed.

End ClassicWalk.

(** X24.  Printing with the classic font stays in the box that
    [getTextBounds] returns.  Take the classic font in an array of at
    least 1280 bytes, a text size in [1, 255], a display with
    [0 <= _width] and [0 <= _height], and a string of [n] non-NUL
    characters that is short enough for the cursor to stay in
    [int16_t]: [-32768 < cursor_x], [-32768 < cursor_y],
    [max(0, cursor_x) + 6 * textsize * n <= 32767] and
    [cursor_y + 8 * textsize * (n + 1) <= 32767].  Then the [write] calls
    return; the walk of [charBounds] from the cursor ends at the cursor
    they leave; and every call they make to a virtual drawing member
    draws inside the rectangle [(x1, y1, w, h)] that [getTextBounds]
    returns for the string at the cursor, whether text wraps or not and
    whether [char] is signed or not. *)
Theorem write_within_text_bounds font sc t str :
  let n := Z.of_nat (length str) in
  let b0 := {| Text.bx := Text.cursor_x t; Text.by_ := Text.cursor_y t;
               Text.minx := _width (Text.scr t);
               Text.miny := _height (Text.scr t);
               Text.maxx := -1; Text.maxy := -1 |} in
  1280 <= Z.of_nat (length font) →
  Text.gfxFont t = None → 0 < Text.textsize t < 256 →
  Forall (λ c, 0 < c < 256) str →
  0 <= _width (Text.scr t) → 0 <= _height (Text.scr t) →
  -32768 < Text.cursor_x t →
  Z.max 0 (Text.cursor_x t) + 6 * Text.textsize t * n <= 32767 →
  -32768 < Text.cursor_y t →
  Text.cursor_y t + 8 * Text.textsize t * (n + 1) <= 32767 →
  ∃ t' log b x1 y1 w h,
    Glyphs.writes font str t [] = Some (t', log)
    ∧ Text.bounds_of sc t str b0 = Some b
    ∧ (Text.cursor_x t', Text.cursor_y t') = (Text.bx b, Text.by_ b)
    ∧ Text.getTextBounds sc t str (Text.cursor_x t) (Text.cursor_y t)
      = Some (x1, y1, w, h)
    ∧ Forall (call_within x1 y1 (x1 + w - 1) (y1 + h - 1)) log.
Proof.
  intros n b0 Hfont Hf Hts Hstr HW HH Hx0 Hx1 Hy0 Hy1.
  destruct (classic_walk font sc Hfont str t b0 []) as
    (t' & b & log & Hws & Hbs
     & Hbx & Hby & _ & _ & _ & _ & Hmx & Hmy & HMx & HMy & Hall & Hne);
    try assumption.
  { unfold tracks, b0. cbn [Text.bx Text.by_ Text.minx Text.miny Text.maxx
                             Text.maxy].
    fold n. split_and!; try lia; auto. }
  unfold Text.getTextBounds. fold b0. rewrite Hbs. cbn [mbind option_bind].
  destruct Hne as [->|[Hx Hy]].
  - destruct (Text.maxx b >=? Text.minx b), (Text.maxy b >=? Text.miny b);
      (do 7 eexists; split; [exact Hws|]; split; [reflexivity|];
       split; [congruence|]; split; [reflexivity|]; constructor).
  - destruct (Text.maxx b >=? Text.minx b) eqn:Ex; zbool; [|lia].
    destruct (Text.maxy b >=? Text.miny b) eqn:Ey; zbool; [|lia].
    do 7 eexists. split; [exact Hws|]. split; [reflexivity|].
    split; [congruence|]. split; [reflexivity|].
    unfold u16. rewrite !Z.mod_small by lia.
    eapply Forall_impl; [|exact Hall]. intros e.
    apply call_within_mono; lia.
Qed.

Lemma wrap8_id z : -128 <= z < 128 → wrap8 z = z.
Proof. unfold wrap8. elia. Qed.

Lemma byte_at_u8 b : byte_at true b 0 (u8 b).
Proof.
  intros n Hn. rewrite Z.mul_1_r. unfold u8. change 256 with (2 ^ 8).
  apply Z.mod_pow2_bits_low. lia.
Qed.

Lemma bit_counter n : 0 <= n → (Z.land (u8 n) 7 =? 0) = (n mod 8 =? 0).
Proof.
  intros Hn. change 7 with (Z.ones 3). rewrite Z.land_ones by lia.
  unfold u8. f_equal. change (2 ^ 3) with 8. elia.
Qed.

Section CustomFont.

Variables (f : Text.GFXfont) (g : Text.GFXglyph).
Variables (x y color size : Z).

Let bo := Text.bitmapOffset g.
Let w := Text.width g.
Let h := Text.height g.
Let xo := Text.xOffset g.
Let yo := Text.yOffset g.

Hypothesis Hg : glyph_ok g.
Hypothesis Hsize : 0 < size < 256.
Hypothesis Hbits : bo + (w * h + 7) / 8 <= Z.of_nat (length (Text.bitmap f)).
Hypothesis Hbo : bo + (w * h + 7) / 8 < 65536.
Hypothesis Hx : -32768 <= x + xo * size ∧ x + (xo + w) * size <= 32768.
Hypothesis Hy : -32768 <= y + yo * size ∧ y + (yo + h) * size <= 32768.

Lemma custom_bit_spec yy xx log r :
  0 <= yy < h → 0 <= xx < w →
  glyph_regs (Text.bitmap f) bo (yy * w + xx) r →
  ∃ r',
    Text.custom_bit
      (λ x y color, Glyphs.record (Glyphs.WritePixel x y color))
      (λ x y w h color, Glyphs.record (Glyphs.WriteFillRect x y w h color))
      f x y xo yo (if size >? 1 then xo else 0) (if size >? 1 then yo else 0)
      size color yy xx (log, r)
    = Some (log ++ (if packed_bit (Text.bitmap f) bo (yy * w + xx)
                    then [glyph_dot x y size color (xo + xx) (yo + yy)]
                    else []), r')
    ∧ glyph_regs (Text.bitmap f) bo (yy * w + (xx + 1)) r'.
Proof.
  intros Hyy Hxx. destruct r as [[bits bit] bo']. intros (Hbit & Hbo' & Hcur).
  set (n := yy * w + xx) in *.
  assert (Hn : 0 <= n < w * h) by (unfold n; nia).
  replace (yy * w + (xx + 1)) with (n + 1) by (unfold n; lia).
  unfold Text.custom_bit. rewrite Hbit, bit_counter by lia.
  assert (Hfetch : ∃ b k bits1 bo1,
             (if n mod 8 =? 0
              then b ← Text.bitmap f !! Z.to_nat bo'; Some (u8 b, u16 (bo' + 1))
              else Some (bits, bo')) = Some (bits1, bo1)
             ∧ k = n mod 8
             ∧ Text.bitmap f !! Z.to_nat (bo + n / 8) = Some b
             ∧ byte_at true b k bits1
             ∧ bo1 = bo + (n + 8) / 8).
  { destruct (n mod 8 =? 0) eqn:E; zbool.
    - assert (Hidx : bo' = bo + n / 8) by (rewrite Hbo'; elia).
      destruct (lookup_lt_is_Some_2 (Text.bitmap f) (Z.to_nat bo'))
        as [b Eb].
      { destruct Hg as ((? & ?) & _). fold bo in H. elia. }
      exists b, 0, (u8 b), (u16 (bo' + 1)). rewrite Eb.
      split; [reflexivity|]. split; [lia|]. split; [congruence|].
      split; [apply byte_at_u8|].
      destruct Hg as ((? & ?) & _). fold bo in H.
      unfold u16. rewrite Z.mod_small by elia. elia.
    - destruct (Hcur E) as (b & Eb & Hat).
      exists b, (n mod 8), bits, bo'. split; [reflexivity|].
      split; [reflexivity|]. split; [exact Eb|]. split; [exact Hat|].
      rewrite Hbo'. elia. }
  destruct Hfetch as (b & k & bits1 & bo1 & -> & Hk & Eb & Hat & Hbo1).
  cbn [mbind option_bind fst snd].
  assert (Hk8 : 0 <= k < 8) by (subst k; elia).
  rewrite (byte_at_test true b k bits1 Hk8 Hat). cbv iota.
  assert (Hpb : packed_bit (Text.bitmap f) bo n = Z.testbit b (7 - k)).
  { unfold packed_bit. rewrite Eb, Hk. reflexivity. }
  rewrite Hpb.
  eexists. split.
  - destruct (Z.testbit b (7 - k)); [|rewrite app_nil_r; reflexivity].
    unfold glyph_dot, Glyphs.record.
    destruct Hg as (_ & Hw & Hh & _ & Hxo & Hyo).
    fold w in Hw. fold h in Hh. fold xo in Hxo. fold yo in Hyo.
    unfold is_u8 in *.
    destruct (size =? 1) eqn:E1; zbool.
    + assert (xo * size = xo ∧ (xo + w) * size = xo + w
              ∧ yo * size = yo ∧ (yo + h) * size = yo + h) by nia.
      rewrite !wrap16_id by (unfold in16; lia).
      cbn [mbind option_bind]. rewrite !Z.add_assoc. reflexivity.
    + destruct (size >? 1) eqn:E2; zbool; [|lia].
      assert (0 <= xx * size <= (w - 1) * size)
        by (split; [apply Z.mul_nonneg_nonneg; lia
                   | apply Z.mul_le_mono_nonneg_r; lia]).
      assert (0 <= yy * size <= (h - 1) * size)
        by (split; [apply Z.mul_nonneg_nonneg; lia
                   | apply Z.mul_le_mono_nonneg_r; lia]).
      rewrite !wrap16_id by (unfold in16; lia).
      cbn [mbind option_bind]. reflexivity.
  - split; [unfold u8; elia|]. split; [rewrite Hbo1; elia|].
    intros Hne. exists b. split.
    + rewrite <- Eb. do 2 f_equal. elia.
    + replace ((n + 1) mod 8) with (k + 1) by elia.
      apply (byte_at_shift true); [lia|exact Hat].
Qed.

Lemma custom_row yy log r :
  0 <= yy < h →
  glyph_regs (Text.bitmap f) bo (yy * w) r →
  ∃ r',
    for_loop (Z.to_nat w) 0
      (Text.custom_bit
         (λ x y color, Glyphs.record (Glyphs.WritePixel x y color))
         (λ x y w h color, Glyphs.record (Glyphs.WriteFillRect x y w h color))
         f x y xo yo (if size >? 1 then xo else 0)
         (if size >? 1 then yo else 0) size color yy) (log, r)
    = Some (log ++ flat_map
                     (λ xx, if packed_bit (Text.bitmap f) bo (yy * w + xx)
                            then [glyph_dot x y size color (xo + xx)
                                    (yo + yy)]
                            else [])
                     (seqZ 0 w), r')
    ∧ glyph_regs (Text.bitmap f) bo ((yy + 1) * w) r'.
Proof.
  intros Hyy Hr.
  assert (Hw : 0 <= w) by (destruct Hg as (_ & Hw & _); apply Hw).
  destruct (for_loop_log
              (Text.custom_bit
                 (λ x y color, Glyphs.record (Glyphs.WritePixel x y color))
                 (λ x y w h color,
                    Glyphs.record (Glyphs.WriteFillRect x y w h color))
                 f x y xo yo (if size >? 1 then xo else 0)
                 (if size >? 1 then yo else 0) size color yy)
              (λ xx, if packed_bit (Text.bitmap f) bo (yy * w + xx)
                     then [glyph_dot x y size color (xo + xx) (yo + yy)]
                     else [])
              (λ xx r, 0 <= xx ∧ glyph_regs (Text.bitmap f) bo (yy * w + xx) r)
              w) with (n := Z.to_nat w) (i := 0) (t := log) (a := r)
    as (r' & E & _ & Hr').
  - intros xx t0 r0 Hxx [Hxx0 Hr0].
    destruct (custom_bit_spec yy xx t0 r0) as (r1 & E1 & Hr1);
      [lia|lia|exact Hr0|].
    exists r1. split; [exact E1|]. split; [lia|exact Hr1].
  - lia.
  - split; [lia|]. rewrite Z.add_0_r. exact Hr.
  - exists r'. rewrite Z2Nat.id in E, Hr' by lia. split; [exact E|].
    replace ((yy + 1) * w) with (yy * w + (0 + w)) by lia. exact Hr'.
Qed.

Lemma custom_rows log :
  ∃ r',
    for_loop (Z.to_nat h) 0
      (λ yy st,
         for_loop (Z.to_nat w) 0
           (Text.custom_bit
              (λ x y color, Glyphs.record (Glyphs.WritePixel x y color))
              (λ x y w h color,
                 Glyphs.record (Glyphs.WriteFillRect x y w h color))
              f x y xo yo (if size >? 1 then xo else 0)
              (if size >? 1 then yo else 0) size color yy) st)
      (log, (0, 0, bo))
    = Some (log ++ custom_dots f g x y color size, r').
Proof.
  assert (Hh : 0 <= h) by (destruct Hg as (_ & _ & Hh & _); apply Hh).
  destruct (for_loop_log
              (λ yy st,
                 for_loop (Z.to_nat w) 0
                   (Text.custom_bit
                      (λ x y color,
                         Glyphs.record (Glyphs.WritePixel x y color))
                      (λ x y w h color,
                         Glyphs.record (Glyphs.WriteFillRect x y w h color))
                      f x y xo yo (if size >? 1 then xo else 0)
                      (if size >? 1 then yo else 0) size color yy) st)
              (λ yy, flat_map
                       (λ xx, if packed_bit (Text.bitmap f) bo (yy * w + xx)
                              then [glyph_dot x y size color (xo + xx)
                                      (yo + yy)]
                              else [])
                       (seqZ 0 w))
              (λ yy r, 0 <= yy ∧ glyph_regs (Text.bitmap f) bo (yy * w) r)
              h) with (n := Z.to_nat h) (i := 0) (t := log) (a := (0, 0, bo))
    as (r' & E & _).
  - intros yy t0 r0 Hyy [Hyy0 Hr0].
    destruct (custom_row yy t0 r0) as (r1 & E1 & Hr1); [lia|exact Hr0|].
    exists r1. split; [exact E1|]. split; [lia|exact Hr1].
  - lia.
  - split; [lia|]. cbn [glyph_regs]. split; [reflexivity|].
    rewrite Z.mul_0_l. split; [change ((0 + 7) / 8) with 0; lia|].
    intros H. contradiction H. reflexivity.
  - exists r'. rewrite Z2Nat.id in E by lia. exact E.
Qed.

End CustomFont.

(** X26.  [drawChar] with a custom font decodes the packed bitmap of the
    glyph.  Take a glyph at index [(c - first) mod 256] of the font whose
    fields hold values of their types, a magnification [0 < size < 256],
    glyph bits that lie inside the bitmap array and below byte 65536
    ([bitmapOffset + (width * height + 7) / 8] is at most the length of
    the array and less than 65536), and a magnified glyph box within
    [int16_t] ([-32768 <= x + xOffset * size],
    [x + (xOffset + width) * size <= 32768], and the same for [y]).  Then
    the call returns and, inside one transaction, draws exactly the dots
    whose bit is set, row by row: the bits are packed without padding
    between rows, most significant bit first, from byte [bitmapOffset]
    on.  The dot of column [xx] and row [yy] is the pixel or the
    [size * size] square at
    [(x + (xOffset + xx) * size, y + (yOffset + yy) * size)]; nothing is
    clipped against the screen and the background colour is not used. *)
Theorem drawChar_custom_decodes font f g t x y c color bg size log :
  Text.gfxFont t = Some f →
  Text.glyph f !! Z.to_nat (u8 (c - Text.first f)) = Some g →
  glyph_ok g → 0 < size < 256 →
  Text.bitmapOffset g + (Text.width g * Text.height g + 7) / 8
    <= Z.of_nat (length (Text.bitmap f)) →
  Text.bitmapOffset g + (Text.width g * Text.height g + 7) / 8 < 65536 →
  -32768 <= x + Text.xOffset g * size
  ∧ x + (Text.xOffset g + Text.width g) * size <= 32768 →
  -32768 <= y + Text.yOffset g * size
  ∧ y + (Text.yOffset g + Text.height g) * size <= 32768 →
  Glyphs.drawChar font t x y c color bg size log
  = Some (log ++ [Glyphs.StartWrite] ++ custom_dots f g x y color size
              ++ [Glyphs.EndWrite]).
Proof.
  intros Hf Hgl Hg Hsize Hbits Hbo Hx Hy.
  unfold Glyphs.drawChar, Text.drawChar. rewrite Hf, Hgl.
  cbn [mbind option_bind].
  pose proof Hg as (Hbo0 & Hw & Hh & Hxa & Hxo & Hyo).
  rewrite (u16_id _ Hbo0), (u8_id _ Hw), (u8_id _ Hh).
  rewrite (wrap8_id _ Hxo), (wrap8_id _ Hyo).
  replace (if size >? 1 then (Text.xOffset g, Text.yOffset g) else (0, 0))
    with (if size >? 1 then Text.xOffset g else 0,
          if size >? 1 then Text.yOffset g else 0)
    by (destruct (size >? 1); reflexivity).
  change (Glyphs.record Glyphs.StartWrite log)
    with (Some (log ++ [Glyphs.StartWrite])).
  cbn [mbind option_bind].
  destruct (custom_rows f g x y color size Hg Hsize Hbits Hbo Hx Hy
              (log ++ [Glyphs.StartWrite])) as (r' & ->).
  cbn [mbind option_bind fst]. unfold Glyphs.record.
  rewrite <- !app_assoc. reflexivity.
Qed.

(** ** The cursor of [write] and of [charBounds] *)

Lemma write_step font sc t c log t1 log1 b :
  0 < c < 256 → same_walk sc t [c] →
  Glyphs.write font c t log = Some (t1, log1) →
  Text.bx b = Text.cursor_x t → Text.by_ b = Text.cursor_y t →
  ∃ b1,
    Text.charBounds t (if sc then wrap8 c else c) b = Some b1
    ∧ Text.bx b1 = Text.cursor_x t1 ∧ Text.by_ b1 = Text.cursor_y t1
    ∧ ∃ x y, t1 = Text.set_cursor x y t.
Proof.
  intros Hc Hsame Hw Hbx Hby.
  destruct (char_value sc c Hc) as [E10 E13].
  unfold Glyphs.write, Text.write in Hw. unfold Text.charBounds.
  unfold same_walk in Hsame.
  destruct (Text.gfxFont t) as [f|] eqn:Hf.
  - (* custom font *)
    destruct Hsame as [Hsc Hwrap].
    assert (Ec : (if sc then wrap8 c else c) = c).
    { destruct Hsc as [->|Hlow]; [reflexivity|].
      inversion Hlow; subst. destruct sc; [|reflexivity].
      apply wrap8_id. lia. }
    rewrite Ec. clear E10 E13.
    destruct (c =? 10).
    { injection Hw as <- <-. eexists. split; [reflexivity|].
      unfold Text.new_line, Text.next_line. cbn. rewrite Hby. eauto. }
    destruct (c =? 13); cbn [negb] in *.
    { injection Hw as <- <-. eexists. split; [reflexivity|].
      split; [exact Hbx|]. split; [exact Hby|].
      exists (Text.cursor_x t), (Text.cursor_y t). destruct t; reflexivity. }
    cbv zeta in Hw |- *.
    destruct ((c >=? u8 (Text.first f)) && (c <=? u8 (Text.last f))).
    2:{ injection Hw as <- <-. eexists. split; [reflexivity|].
        split; [exact Hbx|]. split; [exact Hby|].
        exists (Text.cursor_x t), (Text.cursor_y t). destruct t; reflexivity. }
    destruct (Text.glyph f !! Z.to_nat (c - u8 (Text.first f))) as [g|] eqn:Eg;
      [|discriminate].
    cbn [mbind option_bind] in Hw |- *.
    destruct ((u8 (Text.width g) >? 0) && (u8 (Text.height g) >? 0)) eqn:Ene.
    + replace (Text.cursor_x t
               + Text.textsize t * (wrap8 (Text.xOffset g) + u8 (Text.width g)))
        with (Text.bx b
              + (wrap8 (Text.xOffset g) + u8 (Text.width g)) * Text.textsize t)
        in Hw by (rewrite Hbx; ring).
      destruct (Text.wrap t && _).
      * destruct (Text.drawChar _ _ _ _ _ _ _ _ _ _ _ _ _ _) as [s1|];
          [|discriminate].
        cbn [mbind option_bind fst snd] in Hw. injection Hw as <- <-.
        eexists. split; [reflexivity|].
        unfold Text.grow, Text.new_line, Text.next_line. cbn.
        rewrite Hby. split; [f_equal; ring|]. eauto.
      * destruct (Text.drawChar _ _ _ _ _ _ _ _ _ _ _ _ _ _) as [s1|];
          [|discriminate].
        cbn [mbind option_bind fst snd] in Hw. injection Hw as <- <-.
        eexists. split; [reflexivity|].
        unfold Text.grow. cbn. rewrite Hbx, Hby.
        split; [f_equal; ring|]. eauto.
    + cbn [mbind option_bind fst snd] in Hw. injection Hw as <- <-.
      assert (Hnw : Text.wrap t = false).
      { destruct Hwrap as [H|Hall]; [exact H|]. exfalso.
        rewrite list.Forall_forall in Hall.
        destruct (Hall g) as [Hw0 Hh0];
          [eapply list_elem_of_lookup_2; exact Eg|].
        apply andb_false_iff in Ene as [E|E]; zbool; lia. }
      rewrite Hnw. cbn [andb].
      eexists. split; [reflexivity|].
      unfold Text.grow. cbn. rewrite Hbx, Hby.
      split; [f_equal; ring|]. eauto.
  - (* classic font *)
    rewrite E10, E13.
    destruct (c =? 10).
    { injection Hw as <- <-. eexists. split; [reflexivity|].
      unfold Text.new_line, Text.next_line. cbn. rewrite Hby. eauto. }
    destruct (c =? 13); cbn [negb] in *.
    { injection Hw as <- <-. eexists. split; [reflexivity|].
      split; [exact Hbx|]. split; [exact Hby|].
      exists (Text.cursor_x t), (Text.cursor_y t). destruct t; reflexivity. }
    cbv zeta in Hw |- *. rewrite Hbx.
    destruct (Text.wrap t && _).
    + destruct (Text.drawChar _ _ _ _ _ _ _ _ _ _ _ _ _ _) as [s1|];
        [|discriminate].
      cbn [mbind option_bind] in Hw. injection Hw as <- <-.
      eexists. split; [reflexivity|].
      unfold Text.grow, Text.new_line, Text.next_line. cbn.
      rewrite Hby. eauto.
    + destruct (Text.drawChar _ _ _ _ _ _ _ _ _ _ _ _ _ _) as [s1|];
        [|discriminate].
      cbn [mbind option_bind] in Hw. injection Hw as <- <-.
      eexists. split; [reflexivity|].
      unfold Text.grow. cbn. rewrite Hbx, Hby. eauto.
Qed.

Lemma same_walk_cons sc t c str :
  same_walk sc t (c :: str) → same_walk sc t [c] ∧ same_walk sc t str.
Proof.
  unfold same_walk. destruct (Text.gfxFont t); [|auto].
  intros [[->|Hlow] Hw].
  - split; (split; [left; reflexivity|exact Hw]).
  - inversion Hlow; subst.
    split; (split; [right|exact Hw]); [repeat constructor|]; assumption.
Qed.

Lemma same_walk_cursor sc t x y str :
  same_walk sc (Text.set_cursor x y t) str ↔ same_walk sc t str.
Proof. reflexivity. Qed.

(** X27.  [charBounds] walks the cursor the way [write] moves it.  For a
    string of non-NUL characters and a walk of [charBounds] that starts
    at the cursor, whenever the history of [write] calls for the string
    returns, the walk of [charBounds] returns too and ends where the
    [write] calls leave the cursor: with the classic font always, and
    with a custom font provided that [char] is unsigned or the characters
    are below 128, and that text does not wrap or every glyph of the
    font has a bitmap ([same_walk]). *)
Theorem charBounds_follows_write font sc str : ∀ t log t' log' b,
  Forall (λ c, 0 < c < 256) str → same_walk sc t str →
  Text.bx b = Text.cursor_x t → Text.by_ b = Text.cursor_y t →
  Glyphs.writes font str t log = Some (t', log') →
  ∃ b', Text.bounds_of sc t str b = Some b'
        ∧ Text.bx b' = Text.cursor_x t' ∧ Text.by_ b' = Text.cursor_y t'.
Proof.
  induction str as [|c str IH]; intros t log t' log' b Hstr Hsame Hbx Hby Hw.
  - injection Hw as <- <-. exists b. auto.
  - inversion Hstr as [|? ? Hc Hstr']; subst.
    apply same_walk_cons in Hsame as [Hs1 Hs2].
    unfold Glyphs.writes in Hw. cbn [Text.writes] in Hw.
    fold (Glyphs.write font c t log) in Hw.
    destruct (Glyphs.write font c t log) as [[t1 log1]|] eqn:E1;
      [|discriminate].
    cbn [mbind option_bind fst snd] in Hw.
    destruct (write_step font sc t c log t1 log1 b Hc Hs1 E1 Hbx Hby)
      as (b1 & Hb1 & Hbx1 & Hby1 & x1 & y1 & Hset).
    destruct (IH t1 log1 t' log' b1) as (b' & Hb' & Hx' & Hy');
      try assumption.
    { rewrite Hset. apply same_walk_cursor. exact Hs2. }
    exists b'. split; [|auto].
    cbn [Text.bounds_of]. rewrite Hb1. cbn [mbind option_bind].
    rewrite <- Hb', Hset. symmetry. apply bounds_of_cursor.
Qed.

(** X25.  [drawChar] with the classic font.  For a character code in
    [uint8_t], a font array of at least 1280 bytes, a magnification
    [0 < size < 256] and a cell within [int16_t] ([-32768 <= x],
    [x + 6 * size <= 32768], [-32768 <= y], [y + 8 * size <= 32768]), the
    call returns.  It calls no virtual member when the cell of
    [6 * size] by [8 * size] pixels at [(x, y)] misses the screen
    entirely.  Otherwise it draws, inside one transaction and column by
    column, the dot [(i, j)] in [color] when bit [j] of byte [c * 5 + i]
    of the font is set, and in [bg] when it is cleared and [bg] differs
    from [color], and then fills the sixth column with [bg] when [bg]
    differs from [color]; the code [c] is the code plus one (modulo 256)
    for the characters from 176 on unless [_cp437] is set. *)
Theorem drawChar_classic_decodes font t x y c color bg size log :
  Text.gfxFont t = None → 0 <= c < 256 →
  1280 <= Z.of_nat (length font) → 0 < size < 256 →
  -32768 <= x ∧ x + 6 * size <= 32768 →
  -32768 <= y ∧ y + 8 * size <= 32768 →
  Glyphs.drawChar font t x y c color bg size log
  = Some (log ++
          if (x >=? _width (Text.scr t)) || (y >=? _height (Text.scr t))
             || (x + 6 * size - 1 <? 0) || (y + 8 * size - 1 <? 0)
          then []
          else [Glyphs.StartWrite]
                 ++ classic_dots font x y
                      (if negb (Text._cp437 t) && (c >=? 176)
                       then u8 (c + 1) else c) color bg size
                 ++ [Glyphs.EndWrite]).
Proof.
  intros Hf Hc Hfont Hsize Hx Hy.
  apply classic_trace; assumption.
Qed.

Lemma drawChar_classic_decodes_witness :
  Glyphs.drawChar (replicate 1280 0x41)
    (Text.mkPrinter (new_GFX 20 16) 0 0 7 0 1 true false None)
    3 4 65 7 0 1 []
  = Some ([] ++ [Glyphs.StartWrite]
             ++ classic_dots (replicate 1280 0x41) 3 4 65 7 0 1
             ++ [Glyphs.EndWrite]).
Proof.
  apply (drawChar_classic_decodes (replicate 1280 0x41)
           (Text.mkPrinter (new_GFX 20 16) 0 0 7 0 1 true false None)
           3 4 65 7 0 1 []);
    [reflexivity | lia | rewrite length_replicate; lia | lia | lia | lia].
Defined.

Lemma write_within_text_bounds_witness :
  ∃ t' log,
    Glyphs.writes (replicate 1280 0x41) [72; 105; 10; 33]
      (Text.mkPrinter (new_GFX 20 16) 0 0 7 0 1 true false None) []
    = Some (t', log)
    ∧ (Text.cursor_x t', Text.cursor_y t') = (6, 8)
    ∧ Text.getTextBounds false
        (Text.mkPrinter (new_GFX 20 16) 0 0 7 0 1 true false None)
        [72; 105; 10; 33] 0 0
      = Some (0, 0, 12, 16)
    ∧ Forall (call_within 0 0 11 15) log.
Proof.
  destruct (write_within_text_bounds (replicate 1280 0x41) false
              (Text.mkPrinter (new_GFX 20 16) 0 0 7 0 1 true false None)
              [72; 105; 10; 33])
    as (t' & log & b & x1 & y1 & w & h & Hw & Hb & Hc & Hg & Hall);
    [ rewrite length_replicate; lia | reflexivity | evaluate
    | repeat first [apply Forall_nil | apply Forall_cons; [lia|]]
    | evaluate | evaluate | evaluate | evaluate | evaluate | evaluate | ].
  assert (Hg' : Text.getTextBounds false
                  (Text.mkPrinter (new_GFX 20 16) 0 0 7 0 1 true false None)
                  [72; 105; 10; 33] 0 0 = Some (0, 0, 12, 16))
    by (vm_compute; reflexivity).
  change (Text.cursor_x (Text.mkPrinter (new_GFX 20 16) 0 0 7 0 1 true false
                           None)) with 0 in Hg.
  change (Text.cursor_y (Text.mkPrinter (new_GFX 20 16) 0 0 7 0 1 true false
                           None)) with 0 in Hg.
  rewrite Hg' in Hg. injection Hg as <- <- <- <-.
  assert (Hb' : Some b = Some (Text.mkBounds 6 8 0 0 11 15))
    by (rewrite <- Hb; vm_compute; reflexivity).
  injection Hb' as ->.
  exists t', log. split; [exact Hw|]. split; [exact Hc|].
  split; [exact Hg'|exact Hall].
Defined.

Lemma drawChar_custom_decodes_witness :
  Glyphs.drawChar []
    (Text.mkPrinter (new_GFX 20 16) 0 0 7 0 1 true false
       (Some (Text.mkFont [0xB4; 0x80]
                [Text.mkGlyph 0 3 3 4 1 (-3)] 65 65 8)))
    5 10 65 7 0 1 []
  = Some ([] ++ [Glyphs.StartWrite]
             ++ [Glyphs.WritePixel 6 7 7; Glyphs.WritePixel 8 7 7;
                 Glyphs.WritePixel 6 8 7; Glyphs.WritePixel 8 8 7;
                 Glyphs.WritePixel 8 9 7]
             ++ [Glyphs.EndWrite]).
Proof.
  change [Glyphs.WritePixel 6 7 7; Glyphs.WritePixel 8 7 7;
          Glyphs.WritePixel 6 8 7; Glyphs.WritePixel 8 8 7;
          Glyphs.WritePixel 8 9 7]
    with (custom_dots
            (Text.mkFont [0xB4; 0x80] [Text.mkGlyph 0 3 3 4 1 (-3)] 65 65 8)
            (Text.mkGlyph 0 3 3 4 1 (-3)) 5 10 7 1).
  apply (drawChar_custom_decodes []
           (Text.mkFont [0xB4; 0x80] [Text.mkGlyph 0 3 3 4 1 (-3)] 65 65 8)
           (Text.mkGlyph 0 3 3 4 1 (-3))
           (Text.mkPrinter (new_GFX 20 16) 0 0 7 0 1 true false
              (Some (Text.mkFont [0xB4; 0x80]
                       [Text.mkGlyph 0 3 3 4 1 (-3)] 65 65 8)))
           5 10 65 7 0 1 []);
    [ reflexivity | reflexivity
    | evaluate | lia | evaluate | evaluate | evaluate | evaluate ].
Defined.

Lemma charBounds_follows_write_witness :
  ∃ t' log,
    Glyphs.writes []
      [65; 10; 65]
      (Text.mkPrinter (new_GFX 20 16) 2 10 7 0 2 true false
         (Some (Text.mkFont [0xB4; 0x80]
                  [Text.mkGlyph 0 3 3 4 1 (-3)] 65 65 8))) []
    = Some (t', log)
    ∧ Text.bounds_of true
        (Text.mkPrinter (new_GFX 20 16) 2 10 7 0 2 true false
           (Some (Text.mkFont [0xB4; 0x80]
                    [Text.mkGlyph 0 3 3 4 1 (-3)] 65 65 8)))
        [65; 10; 65] (Text.mkBounds 2 10 20 16 (-1) (-1))
      = Some (Text.mkBounds 8 26 2 4 9 25)
    ∧ (Text.cursor_x t', Text.cursor_y t') = (8, 26).
Proof.
  destruct (Glyphs.writes [] [65; 10; 65]
              (Text.mkPrinter (new_GFX 20 16) 2 10 7 0 2 true false
                 (Some (Text.mkFont [0xB4; 0x80]
                          [Text.mkGlyph 0 3 3 4 1 (-3)] 65 65 8))) [])
    as [[t' log]|] eqn:E; [|vm_compute in E; discriminate].
  exists t', log. split; [reflexivity|].
  destruct (charBounds_follows_write [] true [65; 10; 65]
              (Text.mkPrinter (new_GFX 20 16) 2 10 7 0 2 true false
                 (Some (Text.mkFont [0xB4; 0x80]
                          [Text.mkGlyph 0 3 3 4 1 (-3)] 65 65 8)))
              [] t' log (Text.mkBounds 2 10 20 16 (-1) (-1)))
    as (b' & Hb & Hx & Hy);
    [ repeat first [apply Forall_nil | apply Forall_cons; [lia|]]
    | split; [right; repeat first [apply Forall_nil | apply Forall_cons; [lia|]]
             | right; repeat first [apply Forall_nil
                                   | apply Forall_cons;
                                     [vm_compute; split; reflexivity|]]]
    | reflexivity | reflexivity | exact E | ].
  assert (Hb' : Some b' = Some (Text.mkBounds 8 26 2 4 9 25))
    by (rewrite <- Hb; vm_compute; reflexivity).
  injection Hb' as ->. split; [exact Hb|].
  rewrite <- Hx, <- Hy. reflexivity.
Defined.
